(** * Evo backend: answer fusion, the RAG corpus and the chat handler

    A shallow embedding of
      - [backend/app/orchestrator/msync.py]  (MultiModelOrchestrator)
      - [backend/app/rag/pipeline.py]        (RagPipeline)
      - [backend/app/memory/short_term.py], [backend/app/memory/long_term.py]
      - [backend/app/tools/web_search.py], [backend/app/tools/registry.py]
      - the handler of [/api/chat] in [backend/app/main.py]
    and the properties of them that the specification states, with more
    that the code shows.

    Conventions of the embedding.
      - A Python [str] is a list of code points; the code points are those
        below 256 (one [ascii] each).  On them [str.lower], [str.strip] and
        [str.split] are exactly the functions below.
      - A call that may raise returns a [result].
      - Awaited calls (the Ollama backend, the network, the database) are
        oracles passed as arguments.  The oracle of a chat call tells a
        returned value from a raised [Exception] and from a cancellation
        ([asyncio.CancelledError] is no [Exception], so an [except
        Exception] lets it through), and the value it returns, read from
        the backend's JSON, need not be a string.  The oracle of an
        embedding call answers [None] when the call raised an [Exception].
      - The state of a file is what reading it gives: its text or array, or
        the exception that reading it raises.
      - float32 arithmetic, the random generator and [np.argsort] are not
        in the repository: they are the fields of the class [NumPy]; nothing
        is assumed about them except where a theorem says so.  The
        interpreter's [hash] of a string is part of the environment of a
        call. *)

From Stdlib Require Import String Ascii.
From Stdlib Require Import List Bool Arith ZArith Lia.
From Stdlib Require Import Permutation Sorted Orders Mergesort.
Import ListNotations.

Set Implicit Arguments.

(* ================================================================= *)
(** ** Python strings *)

Module PyStr.

Definition str := list ascii.

Definition py (s : string) : str := list_ascii_of_string s.

Definition str_eq_dec : forall a b : str, {a = b} + {a <> b} :=
  list_eq_dec ascii_dec.

Definition str_eqb (a b : str) : bool :=
  if str_eq_dec a b then true else false.

(** [c.isspace()] for a code point below 256: TAB, LF, VT, FF, CR,
    FS, GS, RS, US, SPACE, NEL and NBSP. *)
Definition isspace (c : ascii) : bool :=
  let n := nat_of_ascii c in
  ((9 <=? n) && (n <=? 13)) || ((28 <=? n) && (n <=? 32))
  || (n =? 133) || (n =? 160).

(** [c.lower()]: A-Z and the Latin-1 capitals (all of 0xC0-0xDE except the
    multiplication sign 0xD7) move up by 32. *)
Definition lower_char (c : ascii) : ascii :=
  let n := nat_of_ascii c in
  if ((65 <=? n) && (n <=? 90))
     || ((192 <=? n) && (n <=? 222) && negb (n =? 215))
  then ascii_of_nat (n + 32) else c.

Definition lower (s : str) : str := map lower_char s.

Fixpoint lstrip (s : str) : str :=
  match s with
  | [] => []
  | c :: r => if isspace c then lstrip r else s
  end.

Definition rstrip (s : str) : str := rev (lstrip (rev s)).

Definition strip (s : str) : str := rstrip (lstrip s).

(** [s.split()] with no separator: maximal runs of non-whitespace.
    [cur] is the word being read. *)
Fixpoint split_from (cur : str) (s : str) : list str :=
  match s with
  | [] => match cur with [] => [] | _ => [cur] end
  | c :: r =>
      if isspace c
      then match cur with
           | [] => split_from [] r
           | _ => cur :: split_from [] r
           end
      else split_from (cur ++ [c]) r
  end.

Definition split (s : str) : list str := split_from [] s.

(** [sep.join(l)] *)
Fixpoint join (sep : str) (l : list str) : str :=
  match l with
  | [] => []
  | [x] => x
  | x :: r => x ++ sep ++ join sep r
  end.

Definition LF : ascii := ascii_of_nat 10.
Definition CR : ascii := ascii_of_nat 13.
Definition SP : ascii := ascii_of_nat 32.

(** [s.rstrip("\n")] *)
Fixpoint lstrip_lf (s : str) : str :=
  match s with
  | [] => []
  | c :: r => if ascii_dec c LF then lstrip_lf r else s
  end.

Definition rstrip_lf (s : str) : str := rev (lstrip_lf (rev s)).

(** Iterating a file opened in text mode with the default [newline=None]:
    a line ends at LF, CR or CR LF, and the terminator is handed over as
    LF; a last line without terminator is handed over as it is. *)
Fixpoint lines_from (cur : str) (s : str) : list str :=
  match s with
  | [] => match cur with [] => [] | _ => [cur] end
  | c :: r =>
      if ascii_dec c LF then (cur ++ [LF]) :: lines_from [] r
      else if ascii_dec c CR then
        match r with
        | c' :: r' =>
            if ascii_dec c' LF then (cur ++ [LF]) :: lines_from [] r'
            else (cur ++ [LF]) :: lines_from [] r
        | [] => [cur ++ [LF]]
        end
      else lines_from (cur ++ [c]) r
  end.

Definition readlines (s : str) : list str := lines_from [] s.

(** What [for d in docs: f.write(d + "\n")] leaves in a file opened with
    mode "w" (on a platform whose line separator is LF). *)
Definition write_lines (docs : list str) : str :=
  concat (map (fun d => d ++ [LF]) docs).

Definition is_empty (s : str) : bool :=
  match s with [] => true | _ => false end.

End PyStr.

Import PyStr.

(* ================================================================= *)
(** ** Exceptions *)

Inductive exn : Set :=
| ValueError | IndexError | RuntimeError | OSError | AxisError | PdfReadError
| AttributeError | TypeError | CancelledError | UnicodeDecodeError | EOFError
| OverflowError | OperationalError.

Inductive result (A : Type) : Type :=
| Ok (a : A)
| Raise (e : exn).

Arguments Ok {A} a.
Arguments Raise {A} e.

(* ================================================================= *)
(** ** orchestrator/msync.py *)

Module MSync.

(** What [ollama.chat] returns: the value under "content" of the backend's
    JSON answer.  It is a string, or something else - null, a number, a
    boolean, an array, an object - of which the code sees the truth value
    only. *)
Inductive content : Set :=
| Text (s : str)
| NotText (truth : bool).

(** What one awaited [ollama.chat] does: it returns; it raises an
    [Exception] (backend error, timeout, an answer that is no JSON object);
    or it is cancelled, and [asyncio.CancelledError] is no [Exception]. *)
Inductive reply : Set :=
| Returns (v : content)
| Raises
| Cancelled.

(** [ask], lines 18-23: a model call that raises an [Exception] is logged
    and contributes the empty string; a cancellation passes through. *)
Definition ask (r : reply) : result content :=
  match r with
  | Returns v => Ok v
  | Raises => Ok (Text [])
  | Cancelled => Raise CancelledError
  end.

(** [asyncio.gather] over [ask(m) for m in model_list]: one answer per model,
    in the order of [model_list]; if a call raises, [gather] raises what it
    raised.  [ollama_chat i m] is what the backend does with the [i]-th
    request, sent to model [m]. *)
Fixpoint gather_from (i : nat) (ollama_chat : nat -> str -> reply)
    (model_list : list str) : result (list content) :=
  match model_list with
  | [] => Ok []
  | m :: r =>
      match ask (ollama_chat i m) with
      | Raise e => Raise e
      | Ok a =>
          match gather_from (S i) ollama_chat r with
          | Raise e => Raise e
          | Ok answers => Ok (a :: answers)
          end
      end
  end.

Definition gather := gather_from 0.

(** [collections.Counter]: a dict, so the keys stay in insertion order. *)
Fixpoint counter_incr (k : str) (c : list (str * nat)) : list (str * nat) :=
  match c with
  | [] => [(k, 1)]
  | (k', n) :: r =>
      if str_eq_dec k k' then (k', S n) :: r else (k', n) :: counter_incr k r
  end.

Definition Counter (l : list str) : list (str * nat) :=
  fold_left (fun c k => counter_incr k c) l [].

(** [most_common(1)] is [heapq.nlargest(1, items, key=count)], which for
    one element is [max(items, key=count)]: the running maximum is replaced
    only by a strictly greater count. *)
Fixpoint max_by_count (best : str * nat) (rest : list (str * nat))
    : str * nat :=
  match rest with
  | [] => best
  | x :: r => if snd best <? snd x then max_by_count x r
              else max_by_count best r
  end.

Definition most_common_1 (c : list (str * nat)) : list (str * nat) :=
  match c with
  | [] => []
  | x :: r => [max_by_count x r]
  end.

(** [max(non_empty, key=len)] *)
Fixpoint max_by_len (best : str) (rest : list str) : str :=
  match rest with
  | [] => best
  | x :: r => if length best <? length x then max_by_len x r
              else max_by_len best r
  end.

(** [_normalize], lines 37-38 *)
Definition _normalize (text : str) : str := join [SP] (split (lower text)).

(** Truth value of a string: non-empty. *)
Definition truthy (s : str) : bool := negb (is_empty s).

(** [a and a.strip()] *)
Definition usable (a : str) : bool := truthy a && truthy (strip a).

(** Lines 26-35 of [chat], on answers that are strings. *)
Definition fuse (answers : list str) : result str :=
  let non_empty := map strip (filter usable answers) in
  match non_empty with
  | [] => Ok (py "(no answer)")
  | first :: others =>
      let normalized := map _normalize non_empty in
      let counts := Counter normalized in
      match most_common_1 counts with
      | [] => Raise IndexError
      | (best_norm, _) :: _ =>
          let candidates :=
            filter (fun a => str_eqb (_normalize a) best_norm) non_empty in
          match candidates with
          | c :: _ => Ok c
          | [] => Ok (max_by_len first others)
          end
      end
  end.

(** The answers that are strings.  In the comprehension of line 26,
    [a and a.strip()] stops at an answer that is falsy, string or not, so
    an answer that is falsy and no string is skipped as the empty string
    is; an answer that is truthy and no string has no [strip]. *)
Fixpoint strings (answers : list content) : result (list str) :=
  match answers with
  | [] => Ok []
  | NotText true :: _ => Raise AttributeError
  | NotText false :: r => strings r
  | Text s :: r =>
      match strings r with
      | Raise e => Raise e
      | Ok l => Ok (s :: l)
      end
  end.

(** Lines 26-35 of [chat], on the gathered answers. *)
Definition fuse_answers (answers : list content) : result str :=
  match strings answers with
  | Raise e => Raise e
  | Ok l => fuse l
  end.

(** [chat], lines 14-35.  [models or self.default_models]: an absent or
    empty list selects the defaults. *)
Definition select_models (default_models : list str)
    (models : option (list str)) : list str :=
  match models with
  | Some (m :: ms) => m :: ms
  | _ => default_models
  end.

Definition chat (ollama_chat : nat -> str -> reply)
    (default_models : list str) (models : option (list str)) : result str :=
  let model_list := select_models default_models models in
  match gather ollama_chat model_list with
  | Raise e => Raise e
  | Ok answers => fuse_answers answers
  end.

(** The normalized form [fuse] votes for: the first most frequent one. *)
Definition winner (answers : list str) : option str :=
  match most_common_1
          (Counter (map _normalize (map strip (filter usable answers)))) with
  | (best_norm, _) :: _ => Some best_norm
  | [] => None
  end.

End MSync.

(* ================================================================= *)
(** ** What NumPy provides *)

(** [float] is the float32 scalar; a list of Python floats handed to
    [np.array(..., dtype=np.float32)] is identified with the list of its
    casts. *)
Class NumPy : Type := {
  float : Type;
  (** [x / n] *)
  fdiv : float -> float -> float;
  (** [np.linalg.norm(v) + 1e-8] *)
  norm_eps : list float -> float;
  (** unary minus *)
  fneg : float -> float;
  (** one entry of [embeddings @ qv]: the dot product of a row and [qv] *)
  fdot : list float -> list float -> float;
  (** the order in which sorting puts float32 values *)
  fle : float -> float -> bool;
  (** the [i]-th draw of [np.random.default_rng(seed).standard_normal(n)] *)
  normal_sample : Z -> nat -> float;
  (** [np.argsort(a)] with the default [kind] *)
  argsort : list float -> list nat
}.

(** What NumPy documents of [argsort]: the indices that sort the array.
    The default [kind='quicksort'] is documented as not stable, so nothing
    is said about the order of the indices of equal entries. *)
Definition key_le `{NumPy} (keys : list float) (i j : nat) : Prop :=
  match nth_error keys i, nth_error keys j with
  | Some a, Some b => fle a b = true
  | _, _ => False
  end.

Definition argsort_sorts `{NumPy} : Prop :=
  forall keys : list float,
    Permutation (argsort keys) (seq 0 (length keys)) /\
    StronglySorted (key_le keys) (argsort keys).


(* ================================================================= *)
(** ** rag/pipeline.py *)

Module Rag.

(** The event loop of the thread that calls [retrieve]. *)
Inductive event_loop : Set :=
| LoopRunning   (** the caller is itself running on the loop *)
| LoopIdle      (** the thread has a loop, open and not running *)
| LoopClosed    (** the thread's loop has been closed *)
| NoLoop.       (** the thread has no current loop: a worker thread, or
                    the main thread after [asyncio.run] *)

(** What reading [store.txt] gives. *)
Inductive store_file : Set :=
| Utf8 (content : str)    (** the file decodes as UTF-8, to [content] *)
| Unreadable (e : exn).   (** opening or decoding it raises [e]: a
                              directory, bytes that are not UTF-8 *)

(** What goes wrong when [store.txt] is written, lines 98-100. *)
Inductive store_fault : Set :=
| StoreOpenFails
    (** [open(self.store_path, "w")] raises: the file is as it was *)
| StoreWriteFails (written : nat) (torn : bool).
    (** [open] has emptied the file; a write, or the flush when the file
        is closed, raises after [written] characters have reached the file
        - and, if [torn], the first byte of the character after them *)

(** What goes wrong in [np.save(self.emb_path, ...)], line 101. *)
Inductive emb_fault : Set :=
| SaveOpenFails
    (** [np.save] cannot open the file: the file is as it was *)
| SaveWriteFails (started : bool)
    (** [np.save] has emptied the file and raises before all of the array
        is in it; [started]: some of it is *)
| SaveCloseFails.
    (** [np.save] raises when all of the array is in the file *)

(** The faults of one persist step. *)
Record IO : Set := mk_io {
  store_fault_of : option store_fault;
  emb_fault_of : option emb_fault
}.

Definition io_ok : IO := {| store_fault_of := None; emb_fault_of := None |}.

(** A code point below 128 is one byte of UTF-8, the others here are two. *)
Definition one_byte (c : ascii) : bool := nat_of_ascii c <? 128.

(** The file after a write of [text] that failed: the characters that
    reached it, unless it ends inside a character. *)
Definition partial_file (text : str) (written : nat) (torn : bool)
    : store_file :=
  match nth_error text written with
  | Some c =>
      if torn && negb (one_byte c) then Unreadable UnicodeDecodeError
      else Utf8 (firstn written text)
  | None => Utf8 text
  end.

Section WithNumPy.
Context {NP : NumPy}.

(** A two-dimensional float32 array of shape [(length rows, ncols)]. *)
Record ndarray : Type := mk_ndarray {
  ncols : nat;
  rows : list (list float)
}.

Definition nrows (a : ndarray) : nat := length (rows a).

(** [_normalize], lines 12-14 *)
Definition _normalize (v : list float) : list float :=
  let n := norm_eps v in
  map (fun x => fdiv x n) v.

(** The in-memory corpus: [self.docs], [self.embeddings]. *)
Record RagPipeline : Type := mk_rag {
  docs : list str;
  embeddings : option ndarray
}.

(** What [np.load] makes of [emb.npy].  A file that holds an array of
    another shape is not among the cases: the code never writes one. *)
Inductive npy_file : Type :=
| Npy (a : ndarray)       (** the two-dimensional float array [a] *)
| Unloadable (e : exn).   (** [np.load] raises [e]: a file cut short, a
                              file that holds no array *)

(** The directory [data_dir/rag]: whether [os.makedirs] fails on it, and
    its two artifacts; [None]: the file is absent. *)
Record Disk : Type := mk_disk {
  makedirs_fails : bool;
  store_txt : option store_file;
  emb_npy : option npy_file
}.

Definition no_files : Disk :=
  {| makedirs_fails := false; store_txt := None; emb_npy := None |}.

(** [_load], lines 29-34 *)
Definition _load (fs : Disk) (self : RagPipeline) : result RagPipeline :=
  let docs1 :=
    match store_txt fs with
    | None => Ok (docs self)
    | Some (Utf8 content) => Ok (map rstrip_lf (readlines content))
    | Some (Unreadable e) => Raise e
    end in
  match docs1 with
  | Raise e => Raise e
  | Ok ds =>
      match emb_npy fs with
      | None => Ok {| docs := ds; embeddings := embeddings self |}
      | Some (Npy a) => Ok {| docs := ds; embeddings := Some a |}
      | Some (Unloadable e) => Raise e
      end
  end.

(** [__init__], lines 18-27 *)
Definition __init__ (fs : Disk) : result RagPipeline :=
  if makedirs_fails fs then Raise OSError
  else _load fs {| docs := []; embeddings := None |}.

(** [_chunk], lines 58-69: the loop over [words], then the last flush. *)
Fixpoint chunk_loop (max_tokens : Z) (words : list str)
    (current : list str) (chunks : list str) : list str :=
  match words with
  | [] =>
      match current with
      | [] => chunks
      | _ => chunks ++ [join [SP] current]
      end
  | w :: ws =>
      let current := current ++ [w] in
      if (Z.of_nat (length current) >=? max_tokens)%Z
      then chunk_loop max_tokens ws [] (chunks ++ [join [SP] current])
      else chunk_loop max_tokens ws current chunks
  end.

Definition _chunk (text : str) (max_tokens : Z) : list str :=
  chunk_loop max_tokens (split text) [] [].

Definition default_max_tokens : Z := 500.

(** What surrounds one call: [str_hash t] is [hash(t)] in the interpreter
    process that serves it, and [ollama_embed i t] is the outcome of the
    [i]-th awaited [ollama.embed] of the call, sent for the text [t];
    [None]: it raised an [Exception]. *)
Record Env : Type := mk_env {
  str_hash : str -> Z;
  ollama_embed : nat -> str -> option (list float)
}.

(** Lines 81-83: the vector substituted when the backend gives none. *)
Definition fallback_seed (env : Env) (t : str) : Z :=
  (Z.abs (str_hash env t) mod 10 ^ 8)%Z.

Definition fallback_vector (env : Env) (t : str) : list float :=
  map (normal_sample (fallback_seed env t)) (seq 0 384).

(** The [except] branch is taken when the call raised and when it returned
    an empty list ([not v]). *)
Definition needs_fallback (reply : option (list float)) : bool :=
  match reply with
  | Some (_ :: _) => false
  | _ => true
  end.

(** Lines 74-83, one text *)
Definition embed_one (env : Env) (i : nat) (t : str) : list float :=
  match ollama_embed env i t with
  | Some (x :: v) => x :: v
  | _ => fallback_vector env t
  end.

Fixpoint embed_each (env : Env) (i : nat) (texts : list str)
    : list (list float) :=
  match texts with
  | [] => []
  | t :: r => embed_one env i t :: embed_each env (S i) r
  end.

(** [np.array(vectors, dtype=np.float32)] followed by
    [np.apply_along_axis(_normalize, 1, arr)]: rows of different lengths
    are a [ValueError]; no row at all gives a one-dimensional array, which
    has no axis 1. *)
Definition normalized_array (vectors : list (list float)) : result ndarray :=
  match vectors with
  | [] => Raise AxisError
  | v :: vs =>
      if forallb (fun u => length u =? length v) vs
      then Ok {| ncols := length v; rows := map _normalize vectors |}
      else Raise ValueError
  end.

(** [_embed_texts], lines 71-86 *)
Definition _embed_texts (env : Env) (texts : list str) : result ndarray :=
  normalized_array (embed_each env 0 texts).

(** [np.vstack([a, b])] of two-dimensional arrays *)
Definition vstack (a b : ndarray) : result ndarray :=
  if ncols a =? ncols b
  then Ok {| ncols := ncols a; rows := rows a ++ rows b |}
  else Raise ValueError.

(** The directory with its two files replaced. *)
Definition set_files (fs : Disk) (store : option store_file)
    (emb : option npy_file) : Disk :=
  {| makedirs_fails := makedirs_fails fs; store_txt := store; emb_npy := emb |}.

(** The persist step, lines 97-101, with [self.docs] and [self.embeddings]
    already extended: [store.txt] is rewritten, then [emb.npy]; whatever
    raises ends the step, and nothing is undone. *)
Definition persist (io : IO) (self : RagPipeline) (emb : ndarray) (fs : Disk)
    : Disk * result unit :=
  let text := write_lines (docs self) in
  match store_fault_of io with
  | Some StoreOpenFails => (fs, Raise OSError)
  | Some (StoreWriteFails written torn) =>
      (set_files fs (Some (partial_file text written torn)) (emb_npy fs),
       Raise OSError)
  | None =>
      let store := Some (Utf8 text) in
      match emb_fault_of io with
      | Some SaveOpenFails => (set_files fs store (emb_npy fs), Raise OSError)
      | Some (SaveWriteFails started) =>
          (set_files fs store
             (Some (Unloadable (if started then ValueError else EOFError))),
           Raise OSError)
      | Some SaveCloseFails =>
          (set_files fs store (Some (Npy emb)), Raise OSError)
      | None => (set_files fs store (Some (Npy emb)), Ok tt)
      end
  end.

(** [_add_documents], lines 88-101.  The outcome is the corpus in memory,
    the files, and whether the call returned or raised. *)
Definition _add_documents (io : IO) (env : Env)
    (self : RagPipeline) (fs : Disk) (chunks : list str)
    : RagPipeline * Disk * result unit :=
  match chunks with
  | [] => (self, fs, Ok tt)
  | _ :: _ =>
      match _embed_texts env chunks with
      | Raise e => (self, fs, Raise e)
      | Ok new_vecs =>
          let stacked :=
            match embeddings self with
            | None => Ok new_vecs
            | Some old => vstack old new_vecs
            end in
          match stacked with
          | Raise e => (self, fs, Raise e)
          | Ok emb =>
              let self1 := {| docs := docs self ++ chunks;
                              embeddings := Some emb |} in
              (self1, fst (persist io self1 emb fs),
               snd (persist io self1 emb fs))
          end
      end
  end.

(** An upload after text extraction (lines 37-46): the page texts of a PDF
    ([None] when [PdfReader] raises), or the decoded bytes of any other
    file. *)
Inductive upload : Type :=
| PdfFile (pages : option (list str))
| OtherFile (decoded : str).

(** [_pdf_to_text], lines 51-56 *)
Definition _pdf_to_text (pages : list str) : str := join [LF] pages.

(** [save_and_ingest], lines 36-49; the path it returns is left out. *)
Definition save_and_ingest (io : IO) (env : Env)
    (self : RagPipeline) (fs : Disk) (file : upload)
    : RagPipeline * Disk * result unit :=
  match file with
  | PdfFile None => (self, fs, Raise PdfReadError)
  | PdfFile (Some pages) =>
      _add_documents io env self fs
        (_chunk (_pdf_to_text pages) default_max_tokens)
  | OtherFile text =>
      _add_documents io env self fs (_chunk text default_max_tokens)
  end.

(** [l[:k]] *)
Definition slice_to {A : Type} (l : list A) (k : Z) : list A :=
  if (k <? 0)%Z then firstn (Z.to_nat (Z.of_nat (length l) + k)) l
  else firstn (Z.to_nat k) l.

(** [[self.docs[i] for i in idxs]] *)
Fixpoint getitems (l : list str) (idxs : list nat) : result (list str) :=
  match idxs with
  | [] => Ok []
  | i :: r =>
      match nth_error l i with
      | None => Raise IndexError
      | Some d =>
          match getitems l r with
          | Ok ds => Ok (d :: ds)
          | Raise e => Raise e
          end
      end
  end.

(** [self.embeddings @ qv] *)
Definition matvec (a : ndarray) (qv : list float) (qlen : nat)
    : result (list float) :=
  if ncols a =? qlen then Ok (map (fun r => fdot r qv) (rows a))
  else Raise ValueError.

(** [retrieve], lines 103-111.  [asyncio.get_event_loop()] raises
    [RuntimeError] on a thread without a current loop, and
    [run_until_complete] raises it on a loop that is running or closed. *)
Definition retrieve (loop : event_loop) (env : Env)
    (self : RagPipeline) (query : str) (top_k : Z) : result (list str) :=
  match embeddings self, docs self with
  | None, _ => Ok []
  | Some _, [] => Ok []
  | Some emb, _ :: _ =>
      match loop with
      | LoopIdle =>
          match _embed_texts env [query] with
          | Raise e => Raise e
          | Ok q =>
              match rows q with
              | [] => Raise IndexError
              | qv :: _ =>
                  match matvec emb qv (ncols q) with
                  | Raise e => Raise e
                  | Ok sims =>
                      let idxs := slice_to (argsort (map fneg sims)) top_k in
                      getitems (docs self) idxs
                  end
              end
          end
      | _ => Raise RuntimeError
      end
  end.

(** *** Runs of the service *)

(** One request to [/api/rag/ingest], with the environment it meets. *)
Record ingest_call : Type := mk_call {
  call_file : upload;
  call_env : Env
}.

Inductive event : Type :=
| Ingest (c : ingest_call)   (** [save_and_ingest], both writes succeeding *)
| ProcessRestart.            (** the process ends; a new one runs [__init__] *)

(** A process starts; [None]: [__init__] raised, and there is no service. *)
Definition start (fs : Disk) : option (RagPipeline * Disk) :=
  match __init__ fs with
  | Ok self => Some (self, fs)
  | Raise _ => None
  end.

Definition step (s : RagPipeline * Disk) (e : event)
    : option (RagPipeline * Disk) :=
  match e with
  | Ingest c =>
      Some (fst (save_and_ingest io_ok (call_env c) (fst s) (snd s)
                   (call_file c)))
  | ProcessRestart => start (snd s)
  end.

Fixpoint run_from (s : RagPipeline * Disk) (events : list event)
    : option (RagPipeline * Disk) :=
  match events with
  | [] => Some s
  | e :: r =>
      match step s e with
      | Some s1 => run_from s1 r
      | None => None
      end
  end.

(** The service started on an empty data directory, after [events]. *)
Definition run (events : list event) : option (RagPipeline * Disk) :=
  match start no_files with
  | Some s => run_from s events
  | None => None
  end.

End WithNumPy.

End Rag.

(* ================================================================= *)
(** ** memory/short_term.py *)

Module ShortTerm.

(** [{"role": role, "content": content}] *)
Record message : Set := mk_message {
  role : str;
  content : str
}.

(** [self._memory]: a dict from session id to the list of its messages. *)
Definition memory : Set := list (str * list message).

Fixpoint dict_get (k : str) (d : memory) : option (list message) :=
  match d with
  | [] => None
  | (k', v) :: r => if str_eq_dec k k' then Some v else dict_get k r
  end.

(** [d[k] = v] *)
Fixpoint dict_set (k : str) (v : list message) (d : memory) : memory :=
  match d with
  | [] => [(k, v)]
  | (k', v') :: r =>
      if str_eq_dec k k' then (k', v) :: r else (k', v') :: dict_set k v r
  end.

(** [d.pop(k, None)] *)
Fixpoint dict_pop (k : str) (d : memory) : memory :=
  match d with
  | [] => []
  | (k', v') :: r =>
      if str_eq_dec k k' then dict_pop k r else (k', v') :: dict_pop k r
  end.

(** [l[-n:]] for a positive [n] *)
Definition last_n {A : Type} (n : nat) (l : list A) : list A :=
  skipn (length l - n) l.

(** [__init__], lines 6-7 *)
Definition empty : memory := [].

(** [add], lines 9-13.  The [defaultdict] makes the list of a session that
    has none yet. *)
Definition add (session_id role content : str) (self : memory) : memory :=
  let l := match dict_get session_id self with
           | Some l => l
           | None => []
           end in
  let l1 := l ++ [mk_message role content] in
  let self1 := dict_set session_id l1 self in
  if 50 <? length l1 then dict_set session_id (last_n 50 l1) self1
  else self1.

(** [get], lines 15-16 *)
Definition get (session_id : str) (self : memory) : list message :=
  match dict_get session_id self with
  | Some l => l
  | None => []
  end.

(** [clear], lines 18-19 *)
Definition clear (session_id : str) (self : memory) : memory :=
  dict_pop session_id self.

(** The calls made on a [ShortTermMemory]. *)
Inductive op : Set :=
| Add (session_id role content : str)
| Clear (session_id : str).

Definition apply_op (self : memory) (o : op) : memory :=
  match o with
  | Add s r c => add s r c self
  | Clear s => clear s self
  end.

(** A fresh memory after the calls [ops]. *)
Definition after (ops : list op) : memory := fold_left apply_op ops empty.

(** The messages added to a session since it was last cleared. *)
Definition added_step (session_id : str) (acc : list message) (o : op)
    : list message :=
  match o with
  | Add s r c => if str_eq_dec s session_id then acc ++ [mk_message r c] else acc
  | Clear s => if str_eq_dec s session_id then [] else acc
  end.

Definition added (session_id : str) (ops : list op) : list message :=
  fold_left (added_step session_id) ops [].

End ShortTerm.

(* ================================================================= *)
(** ** tools/web_search.py and tools/registry.py *)

Module Tools.

(** What the network and the optional summarization model do during one
    search.  [None] stands for a raised exception. *)
Record Web : Type := mk_web {
  (** the (text, href) of the [a.result__a] elements of the result page *)
  ddg_anchors : str -> option (list (str * option str));
  (** the texts of the [p] elements of the page at a URL, for the [i]-th
      result of the search *)
  page_paragraphs : nat -> str -> option (list str);
  (** [_get_summarizer()], and the [summary_text] it gives for an input *)
  summarizer : option (str -> option str)
}.

(** [ddg_search], lines 19-30 *)
Definition ddg_search (web : Web) (query : str)
    : option (list (str * option str)) :=
  match ddg_anchors web query with
  | None => None
  | Some anchors => Some (Rag.slice_to anchors 5)
  end.

(** [fetch_text], lines 33-41; a result without [href] has the URL [None],
    which the HTTP client refuses. *)
Definition fetch_text (web : Web) (i : nat) (url : option str) : option str :=
  match url with
  | None => None
  | Some u =>
      match page_paragraphs web i u with
      | None => None
      | Some paragraphs => Some (Rag.slice_to (join [LF] paragraphs) 20000)
      end
  end.

(** The loop of lines 47-53: pages that raise or are empty are skipped. *)
Fixpoint fetch_all (web : Web) (i : nat) (results : list (str * option str))
    : list str :=
  match results with
  | [] => []
  | res :: rest =>
      match fetch_text web i (snd res) with
      | Some (c :: t) => (c :: t) :: fetch_all web (S i) rest
      | _ => fetch_all web (S i) rest
      end
  end.

(** [search_and_summarize], lines 44-63: the value under "summary". *)
Definition search_and_summarize (web : Web) (query : str) : option str :=
  match ddg_search web query with
  | None => None
  | Some results =>
      let texts := fetch_all web 0 results in
      let joined := Rag.slice_to (join [LF; LF] texts) 35000 in
      match joined with
      | [] => Some (py "No results")
      | _ :: _ =>
          match summarizer web with
          | None => Some (Rag.slice_to joined 1000)
          | Some summarize => summarize (Rag.slice_to joined 4000)
          end
      end
  end.

(** [tool_web_search], registry.py lines 9-11 *)
Definition tool_web_search (web : Web) (query : str) : option str :=
  match search_and_summarize web query with
  | None => None
  | Some summary => Some (py "[web_search]" ++ [LF] ++ summary)
  end.

(** [TOOLS], lines 14-16 *)
Definition TOOLS : list (str * (Web -> str -> option str)) :=
  [(py "web_search", tool_web_search)].

Fixpoint lookup_tool (name : str)
    (tools : list (str * (Web -> str -> option str)))
    : option (Web -> str -> option str) :=
  match tools with
  | [] => None
  | (k, f) :: r => if str_eq_dec name k then Some f else lookup_tool name r
  end.

(** The loop of [run_tools], lines 21-24.  [web i] is what the network
    does during the [i]-th tool call of the request. *)
Fixpoint run_tools_loop (web : nat -> Web) (i : nat) (tool_names : list str)
    (input_text : str) (outputs : list str) : option (list str) :=
  match tool_names with
  | [] => Some outputs
  | name :: rest =>
      match lookup_tool name TOOLS with
      | None => run_tools_loop web i rest input_text outputs
      | Some tool =>
          match tool (web i) input_text with
          | None => None
          | Some out =>
              run_tools_loop web (S i) rest input_text (outputs ++ [out])
          end
      end
  end.

(** [run_tools], lines 19-25 *)
Definition run_tools (web : nat -> Web) (tool_names : list str)
    (input_text : str) : option str :=
  match run_tools_loop web 0 tool_names input_text [] with
  | None => None
  | Some outputs => Some (join [LF; LF] outputs)
  end.

End Tools.

(* ================================================================= *)
(** ** memory/long_term.py *)

Module LongTerm.

(** The table [conversations]: the rows (session_id, role, content) in the
    order of their [AUTOINCREMENT] ids, that is, of insertion. *)
Definition table : Set := list (str * str * str).

(** [add_message], lines 27-33 *)
Definition add_message (session_id role content : str) (db : table) : table :=
  db ++ [(session_id, role, content)].

(** What the database does to one query. *)
Inductive sqlite_fault : Set :=
| FailsBeforeBinding
    (** connecting, or compiling the statement, raises: the file cannot be
        opened, the table does not exist *)
| FailsAfterBinding.
    (** running the statement raises: the database is locked *)

(** A Python [int] that fits an SQLite INTEGER. *)
Definition int64 (n : Z) : bool := ((- 2 ^ 63 <=? n) && (n <? 2 ^ 63))%Z.

(** [LIMIT ?] with [n] bound to it: binding raises [OverflowError] when
    [n] does not fit an SQLite INTEGER, and a negative [n] is no limit. *)
Definition sql_limit {A : Type} (n : Z) (rows : list A) : result (list A) :=
  if negb (int64 n) then Raise OverflowError
  else Ok (if (n <? 0)%Z then rows else firstn (Z.to_nat n) rows).

(** [get_messages], lines 36-45: the rows of the session by descending id,
    cut at [limit], then reversed. *)
Definition get_messages (fault : option sqlite_fault) (session_id : str)
    (limit : Z) (db : table) : result (list (str * str)) :=
  match fault with
  | Some FailsBeforeBinding => Raise OperationalError
  | _ =>
      let selected :=
        filter (fun row => str_eqb (fst (fst row)) session_id) db in
      match sql_limit limit (rev selected) with
      | Raise e => Raise e
      | Ok rows =>
          match fault with
          | Some _ => Raise OperationalError
          | None => Ok (map (fun r => (snd (fst r), snd r)) (rev rows))
          end
      end
  end.

End LongTerm.

(* ================================================================= *)
(** ** main.py: the handler of [/api/chat] *)

Module Main.

(** What one awaited [analyze_image] does: it returns a description -
    the answer of the vision model as it came, if that is truthy, string or
    not, or else a string made from the downloaded image -, it raises an
    [Exception], or it is cancelled. *)
Inductive analysis : Set :=
| Described (desc : MSync.content)
| AnalysisRaises
| AnalysisCancelled.

(** [ChatBody], lines 55-61 *)
Record ChatBody : Set := mk_body {
  message : str;
  models : option (list str);
  use_rag : bool;
  image_urls : option (list str);
  tools : option (list str);
  session_id : option str
}.

Inductive raised : Set :=
| RetrieveRaised (e : exn)    (** line 70 *)
| ImageRaised (e : exn)       (** line 79 *)
| ToolRaised                  (** line 88 *)
| GuidanceRaised (e : exn)    (** line 99 *)
| DatabaseRaised              (** lines 105 and 115 *)
| ChatRaised (e : exn).       (** line 107 *)

Inductive outcome : Set :=
| Reply (reply : str)
| Raised (r : raised).

(** [f"{m['role']}: {m['content']}"] *)
Definition format_message (m : ShortTerm.message) : str :=
  ShortTerm.role m ++ py ": " ++ ShortTerm.content m.

(** Lines 75-84: a description per URL; an analysis that raises an
    [Exception] leaves a notice in its place. *)
Fixpoint describe_images (analyze : nat -> str -> analysis) (i : nat)
    (urls : list str) : result (list MSync.content) :=
  match urls with
  | [] => Ok []
  | url :: r =>
      match analyze i url with
      | AnalysisCancelled => Raise CancelledError
      | a =>
          let desc :=
            match a with
            | Described d => d
            | _ => MSync.Text (py "Image analysis failed for " ++ url ++ py ".")
            end in
          match describe_images analyze (S i) r with
          | Raise e => Raise e
          | Ok descs => Ok (desc :: descs)
          end
      end
  end.

(** What [str.join] asks of [image_context], line 99: strings only. *)
Fixpoint joinable (items : list MSync.content) : result (list str) :=
  match items with
  | [] => Ok []
  | MSync.Text s :: r =>
      match joinable r with
      | Raise e => Raise e
      | Ok l => Ok (s :: l)
      end
  | MSync.NotText _ :: _ => Raise TypeError
  end.

(** Lines 90-102 *)
Definition build_guidance (short_history : list ShortTerm.message)
    (context_docs image_context : list str) (tool_context : str)
    : option str :=
  let history_text :=
    join [LF] (map format_message (ShortTerm.last_n 8 short_history)) in
  let parts1 :=
    if MSync.truthy history_text
    then [py "Conversation history:" ++ [LF] ++ history_text]
    else [] in
  let parts2 :=
    match context_docs with
    | [] => parts1
    | _ :: _ =>
        parts1 ++ [py "Retrieved context:" ++ [LF]
                   ++ join ([LF] ++ py "---" ++ [LF]) context_docs]
    end in
  let parts3 :=
    match image_context with
    | [] => parts2
    | _ :: _ => parts2 ++ [py "Image analysis:" ++ [LF] ++ join [LF] image_context]
    end in
  let parts4 :=
    if MSync.truthy tool_context
    then parts3 ++ [py "Tools:" ++ [LF] ++ tool_context]
    else parts3 in
  match parts4 with
  | [] => None
  | _ :: _ => Some (join [LF; LF] parts4)
  end.

(** [body.session_id or "default"] *)
Definition session_of (body : ChatBody) : str :=
  match session_id body with
  | Some (c :: s) => c :: s
  | _ => py "default"
  end.

Section WithNumPy.
Context {NP : NumPy}.

(** The module-level objects the handler works on: [short_mem], [rag] and
    the table behind [add_message]. *)
Record App : Type := mk_app {
  short_mem : ShortTerm.memory;
  rag : Rag.RagPipeline;
  conversations : LongTerm.table
}.

(** What the handler meets during one request. *)
Record World : Type := mk_world {
  (** the environment of the query embedding *)
  embed_env : Rag.Env;
  (** [analyze_image(url)] for the [i]-th URL *)
  analyze_image : nat -> str -> analysis;
  (** the network during the [i]-th tool call *)
  web : nat -> Tools.Web;
  (** whether the [i]-th [add_message] of the request succeeds *)
  db_insert_ok : nat -> bool;
  (** [ollama.chat] given the [context], for the [i]-th model *)
  ollama_chat : option str -> nat -> str -> MSync.reply
}.

(** [chat], lines 64-117.  The handler is a coroutine, so [rag.retrieve]
    is called while the event loop is running. *)
Definition chat (default_models : list str) (w : World) (body : ChatBody)
    (app : App) : App * outcome :=
  let sid := session_of body in
  let retrieved :=
    if use_rag body
    then Rag.retrieve Rag.LoopRunning (embed_env w) (rag app) (message body) 4
    else Ok [] in
  match retrieved with
  | Raise e => (app, Raised (RetrieveRaised e))
  | Ok context_docs =>
      let described :=
        match image_urls body with
        | Some (u :: us) => describe_images (analyze_image w) 0 (u :: us)
        | _ => Ok []
        end in
      match described with
      | Raise e => (app, Raised (ImageRaised e))
      | Ok image_context =>
          let tool_result :=
            match tools body with
            | Some (t :: ts) => Tools.run_tools (web w) (t :: ts) (message body)
            | _ => Some []
            end in
          match tool_result with
          | None => (app, Raised ToolRaised)
          | Some tool_context =>
              let short_history := ShortTerm.get sid (short_mem app) in
              match joinable image_context with
              | Raise e => (app, Raised (GuidanceRaised e))
              | Ok image_texts =>
                  let guidance :=
                    build_guidance short_history context_docs image_texts
                      tool_context in
                  let mem1 :=
                    ShortTerm.add sid (py "user") (message body)
                      (short_mem app) in
                  let app1 := {| short_mem := mem1; rag := rag app;
                                 conversations := conversations app |} in
                  if negb (db_insert_ok w 0)
                  then (app1, Raised DatabaseRaised)
                  else
                    let db1 :=
                      LongTerm.add_message sid (py "user") (message body)
                        (conversations app) in
                    let app2 := {| short_mem := mem1; rag := rag app;
                                   conversations := db1 |} in
                    match MSync.chat (ollama_chat w guidance) default_models
                            (models body) with
                    | Raise e => (app2, Raised (ChatRaised e))
                    | Ok reply =>
                        let mem2 :=
                          ShortTerm.add sid (py "assistant") reply mem1 in
                        let app3 := {| short_mem := mem2; rag := rag app;
                                       conversations := db1 |} in
                        if negb (db_insert_ok w 1)
                        then (app3, Raised DatabaseRaised)
                        else
                          ({| short_mem := mem2; rag := rag app;
                              conversations :=
                                LongTerm.add_message sid (py "assistant")
                                  reply db1 |},
                           Reply reply)
                    end
              end
          end
      end
  end.

End WithNumPy.

End Main.

(* ================================================================= *)
(** ** Vocabulary of the statements *)

Section StrVocabulary.

(** A word of [split]: not empty, no whitespace in it. *)
Definition is_word (w : str) : Prop :=
  w <> [] /\ Forall (fun c => isspace c = false) w.

(** No line terminator inside. *)
Definition line_safe (d : str) : Prop := ~ In LF d /\ ~ In CR d.

End StrVocabulary.

Section FusionVocabulary.
Import MSync.

(** The position at which [k] is first seen in [l] ([length l] if never). *)
Fixpoint first_index (k : str) (l : list str) : nat :=
  match l with
  | [] => 0
  | x :: r => if str_eq_dec k x then 0 else S (first_index k r)
  end.

(** The distinct elements of [l], in the order in which they are first
    seen. *)
Definition firsts (l : list str) : list str :=
  fold_left (fun acc k => if in_dec str_eq_dec k acc then acc else acc ++ [k])
            l [].

Definition count (l : list str) (k : str) : nat := count_occ str_eq_dec l k.

(** The normalized forms of the usable answers, in [model_list] order. *)
Definition normal_forms (answers : list str) : list str :=
  map _normalize (map strip (filter usable answers)).

(** The replies to the requests of [gather], in [model_list] order. *)
Fixpoint replies_from (i : nat) (ollama_chat : nat -> str -> reply)
    (model_list : list str) : list reply :=
  match model_list with
  | [] => []
  | m :: r => ollama_chat i m :: replies_from (S i) ollama_chat r
  end.

Definition is_cancelled (r : reply) : bool :=
  match r with Cancelled => true | _ => false end.

(** What [ask] makes of a reply that is no cancellation. *)
Definition answer_of (r : reply) : content :=
  match r with Returns v => v | _ => Text [] end.

(** Truthy, and no string: a value without [strip]. *)
Definition no_strip (v : content) : bool :=
  match v with NotText true => true | _ => false end.

(** The answers that are strings. *)
Fixpoint texts (answers : list content) : list str :=
  match answers with
  | [] => []
  | Text s :: r => s :: texts r
  | NotText _ :: r => texts r
  end.

End FusionVocabulary.

Section CorpusVocabulary.
Context {NP : NumPy}.
Import Rag.

(** The number of rows of [self.embeddings]; none when it is [None]. *)
Definition row_count (self : RagPipeline) : nat :=
  match embeddings self with Some a => nrows a | None => 0 end.

(** As many chunk texts as matrix rows, in memory. *)
Definition aligned (self : RagPipeline) : Prop :=
  length (docs self) = row_count self.

(** The number of lines of [store.txt] and of rows of [emb.npy], for files
    that can be read; an absent file has none. *)
Definition disk_lines (fs : Disk) : option nat :=
  match store_txt fs with
  | None => Some 0
  | Some (Utf8 content) => Some (length (readlines content))
  | Some (Unreadable _) => None
  end.

Definition disk_rows (fs : Disk) : option nat :=
  match emb_npy fs with
  | None => Some 0
  | Some (Npy a) => Some (nrows a)
  | Some (Unloadable _) => None
  end.

(** The files hold what is in memory. *)
Definition persisted (self : RagPipeline) (fs : Disk) : Prop :=
  match embeddings self with
  | None => docs self = [] /\ fs = no_files
  | Some a => fs = {| makedirs_fails := false;
                      store_txt := Some (Utf8 (write_lines (docs self)));
                      emb_npy := Some (Npy a) |}
  end.

Definition consistent (s : RagPipeline * Disk) : Prop :=
  aligned (fst s) /\ Forall line_safe (docs (fst s)) /\ persisted (fst s) (snd s).

(** The outcomes of [_add_documents]. *)
Inductive add_outcome (io : IO) (env : Env) (self : RagPipeline) (fs : Disk)
    (chunks : list str) : RagPipeline * Disk * result unit -> Prop :=
| add_nothing :
    chunks = [] ->
    add_outcome io env self fs chunks (self, fs, Ok tt)
| add_embed_raises e :
    chunks <> [] ->
    _embed_texts env chunks = Raise e ->
    add_outcome io env self fs chunks (self, fs, Raise e)
| add_vstack_raises new_vecs old e :
    chunks <> [] ->
    _embed_texts env chunks = Ok new_vecs ->
    embeddings self = Some old ->
    vstack old new_vecs = Raise e ->
    add_outcome io env self fs chunks (self, fs, Raise e)
| add_mutated new_vecs emb :
    chunks <> [] ->
    _embed_texts env chunks = Ok new_vecs ->
    match embeddings self with
    | None => emb = new_vecs
    | Some old => ncols old = ncols new_vecs /\
                  emb = {| ncols := ncols old; rows := rows old ++ rows new_vecs |}
    end ->
    add_outcome io env self fs chunks
      (let self1 := {| docs := docs self ++ chunks; embeddings := Some emb |} in
       (self1, fst (persist io self1 emb fs), snd (persist io self1 emb fs))).

(** The text that [save_and_ingest] chunks, when it gets to chunking. *)
Definition upload_text (file : upload) : option str :=
  match file with
  | PdfFile None => None
  | PdfFile (Some pages) => Some (_pdf_to_text pages)
  | OtherFile text => Some text
  end.

(** The query vector: the row [_embed_texts([query])[0]]. *)
Definition query_vector (env : Env) (query : str) : list float :=
  _normalize (embed_one env 0 query).



End CorpusVocabulary.

Section MoreVocabulary.

(** The (role, content) pairs of a session, oldest first. *)
Definition messages_of (session_id : str) (db : LongTerm.table)
    : list (str * str) :=
  map (fun r => (snd (fst r), snd r))
      (filter (fun row => str_eqb (fst (fst row)) session_id) db).

(** A block of [tool_web_search]. *)
Definition web_search_block (b : str) : Prop :=
  exists summary, b = py "[web_search]" ++ [LF] ++ summary.

End MoreVocabulary.

(* ================================================================= *)
(** ** A NumPy to compute with *)

(** float32 holds the integers of size up to 2^24 exactly, and a sum, a
    product, a quotient or a square root of such integers that is again
    such an integer is computed exactly, in whatever order the terms of a
    sum are taken.  [small_int_numpy] follows float32 on these values and
    on no others: [Exact z] is the float32 that is the integer [z], and
    [Inexact] is a float32 that is not followed.
      - [norm_eps]: for a vector of integers whose squares sum to a square
        [s * s] of at most 2^24 with [s >= 1], the norm is [s], and
        [s + 1e-8] is [s], since [1e-8] is less than half the distance from
        [s] to the next float32.
      - [fdot]: exact when the sizes of the products sum to at most 2^24.
      - [fle]: the order of the integers; values that are not followed are
        put last.
      - The generator is not modelled.  Its stand-in draws a vector with
        one entry 1 and the others 0, the seed choosing the entry, so that
        different seeds give different vectors, as those of the generator
        are.
      - [argsort] sorts the pairs (value, index) by value and, among equal
        values, by index. *)

Inductive f32 : Set :=
| Exact (z : Z)
| Inexact.

Definition in_range (z : Z) : bool := (Z.abs z <=? 2 ^ 24)%Z.

Fixpoint integers (v : list f32) : option (list Z) :=
  match v with
  | [] => Some []
  | Exact z :: r =>
      if in_range z then option_map (cons z) (integers r) else None
  | Inexact :: _ => None
  end.

Definition f32_div (x n : f32) : f32 :=
  match x, n with
  | Exact a, Exact b =>
      if (in_range a && in_range b && negb (b =? 0) && (a mod b =? 0))%Z
      then Exact (a / b) else Inexact
  | _, _ => Inexact
  end.

Definition f32_norm_eps (v : list f32) : f32 :=
  match integers v with
  | Some zs =>
      let s2 := fold_right (fun z acc => z * z + acc)%Z 0%Z zs in
      let s := Z.sqrt s2 in
      if ((s2 <=? 2 ^ 24) && (1 <=? s) && (s * s =? s2))%Z
      then Exact s else Inexact
  | None => Inexact
  end.

Definition f32_neg (x : f32) : f32 :=
  match x with
  | Exact z => Exact (- z)
  | Inexact => Inexact
  end.

Definition f32_dot (r q : list f32) : f32 :=
  match integers r, integers q with
  | Some a, Some b =>
      let products := map (fun p => fst p * snd p)%Z (combine a b) in
      if (fold_right (fun z acc => Z.abs z + acc) 0 products <=? 2 ^ 24)%Z
      then Exact (fold_right Z.add 0%Z products) else Inexact
  | _, _ => Inexact
  end.

Definition f32_le (a b : f32) : bool :=
  match a, b with
  | Exact x, Exact y => (x <=? y)%Z
  | _, Inexact => true
  | Inexact, Exact _ => false
  end.

Module IndexedOrder <: Orders.TotalLeBool.

Definition t : Type := (f32 * nat)%type.

Definition leb (a b : t) : bool :=
  negb (f32_le (fst b) (fst a))
  || (f32_le (fst a) (fst b) && (snd a <=? snd b)).

Lemma leb_total : forall a b : t, leb a b = true \/ leb b a = true.
Proof.
  intros [[k1|] i1] [[k2|] i2]; unfold leb; cbn [fst snd f32_le];
    try destruct (Z.leb_spec k1 k2); try destruct (Z.leb_spec k2 k1);
    destruct (Nat.leb_spec i1 i2), (Nat.leb_spec i2 i1); cbn; auto; lia.
Qed.

End IndexedOrder.

Module IndexedSort := Mergesort.Sort IndexedOrder.

Definition argsort_by_index (keys : list f32) : list nat :=
  map snd (IndexedSort.sort (combine keys (seq 0 (length keys)))).

Definition small_int_numpy : NumPy := {|
  float := f32;
  fdiv := f32_div;
  norm_eps := f32_norm_eps;
  fneg := f32_neg;
  fdot := f32_dot;
  fle := f32_le;
  normal_sample := fun seed i =>
    Exact (if (Z.of_nat i =? seed mod 384)%Z then 1%Z else 0%Z);
  argsort := argsort_by_index
|}.

Section ExampleData.
Import Rag.

Definition floats (l : list Z) : list (@float small_int_numpy) := map Exact l.

(** A process in which every [hash(t)] is [h], with the backend down. *)
Definition backend_down (h : Z) : @Env small_int_numpy :=
  @mk_env small_int_numpy (fun _ => h) (fun _ _ => None).

(** A backend that answers every text with the vector (1, 0). *)
Definition backend_unit : @Env small_int_numpy :=
  @mk_env small_int_numpy (fun _ => 0%Z) (fun _ _ => Some (floats [1; 0]%Z)).

(** A backend that answers the first text of a call and fails on the
    others. *)
Definition backend_first_only : @Env small_int_numpy :=
  @mk_env small_int_numpy (fun _ => 0%Z)
    (fun i _ => if i =? 0 then Some (floats [1; 0]%Z) else None).

(** Two rows alike. *)
Definition two_alike_matrix : @ndarray small_int_numpy :=
  @mk_ndarray small_int_numpy 2 [floats [1; 0]%Z; floats [1; 0]%Z].

(** Two chunks stored with the same row, in memory and in the files. *)
Definition two_alike : @RagPipeline small_int_numpy :=
  @mk_rag small_int_numpy [py "alpha"; py "beta"] (Some two_alike_matrix).

Definition two_alike_disk : @Disk small_int_numpy :=
  @mk_disk small_int_numpy false
    (Some (Utf8 (write_lines [py "alpha"; py "beta"])))
    (Some (Npy two_alike_matrix)).



(** The two uploads that make [two_alike] of an empty data directory. *)
Definition alpha_beta : list (@event small_int_numpy) :=
  [Ingest (mk_call (OtherFile (py "alpha")) backend_unit);
   Ingest (mk_call (OtherFile (py "beta")) backend_unit)].

(** A first upload, with the backend down. *)
Definition first_upload : @event small_int_numpy :=
  Ingest (mk_call (OtherFile (py "hello  world")) (backend_down 1)).

(** The corpus that upload makes of an empty data directory: one chunk
    text, one fallback row. *)
Definition fallback_matrix : @ndarray small_int_numpy :=
  @mk_ndarray small_int_numpy 384
    [@_normalize small_int_numpy
       (fallback_vector (backend_down 1) (py "hello world"))].

Definition one_fallback : @RagPipeline small_int_numpy :=
  @mk_rag small_int_numpy [py "hello world"] (Some fallback_matrix).

Definition one_fallback_disk : @Disk small_int_numpy :=
  @mk_disk small_int_numpy false
    (Some (Utf8 (write_lines [py "hello world"])))
    (Some (Npy fallback_matrix)).

(** [np.save] cannot open [emb.npy]. *)
Definition vector_write_fails : IO :=
  {| store_fault_of := None; emb_fault_of := Some SaveOpenFails |}.

(** The write of [store.txt] fails before a character reaches the file. *)
Definition text_write_fails : IO :=
  {| store_fault_of := Some (StoreWriteFails 0 false); emb_fault_of := None |}.

(** A second upload, with the backend down, after a first one. *)
Definition second_call
    : @RagPipeline small_int_numpy * @Disk small_int_numpy * result unit :=
  save_and_ingest io_ok (backend_down 1) one_fallback one_fallback_disk
    (OtherFile (py "second upload")).

(** A third chunk uploaded to [two_alike]; the write of [emb.npy] fails. *)
Definition faulty_call
    : @RagPipeline small_int_numpy * @Disk small_int_numpy * result unit :=
  save_and_ingest vector_write_fails backend_unit
    two_alike two_alike_disk (OtherFile (py "gamma")).

(** The same upload; the write of [store.txt] fails. *)
Definition emptied_call
    : @RagPipeline small_int_numpy * @Disk small_int_numpy * result unit :=
  save_and_ingest text_write_fails backend_unit
    two_alike two_alike_disk (OtherFile (py "gamma")).

(** What a new process loads from the files that [faulty_call] leaves:
    three chunk texts, two rows. *)
Definition three_texts_two_rows : @RagPipeline small_int_numpy :=
  @mk_rag small_int_numpy [py "alpha"; py "beta"; py "gamma"]
    (Some two_alike_matrix).

(** An upload to that process, both writes succeeding. *)
Definition late_call
    : @RagPipeline small_int_numpy * @Disk small_int_numpy * result unit :=
  save_and_ingest io_ok backend_unit
    three_texts_two_rows (snd (fst faulty_call)) (OtherFile (py "delta")).

(** A third chunk ingested into [two_alike], both writes succeeding. *)
Definition good_call
    : @RagPipeline small_int_numpy * @Disk small_int_numpy * result unit :=
  save_and_ingest io_ok backend_unit two_alike two_alike_disk
    (OtherFile (py "gamma")).

(** Two uploads with the backend answering, a restart between. *)
Definition two_uploads : list (@event small_int_numpy) :=
  [Ingest (mk_call (OtherFile (py "hello  world")) backend_unit);
   ProcessRestart;
   Ingest (mk_call (OtherFile (py " foo ")) backend_unit)].

(** A data directory whose [store.txt] has lines ending in CR LF and in
    CR, and a last line without terminator; no [emb.npy]. *)
Definition crlf_disk : @Disk small_int_numpy :=
  @mk_disk small_int_numpy false
    (Some (Utf8 (py "a" ++ [CR; LF] ++ py "b" ++ [CR] ++ py "c")))
    None.

(** Three models: the first raises, the others answer. *)
Definition three_models (i : nat) (m : str) : MSync.reply :=
  match i with
  | 0 => MSync.Raises
  | 1 => MSync.Returns (MSync.Text (py " Paris "))
  | _ => MSync.Returns (MSync.NotText false)
  end.

(** A world in which the model answers " Paris ", the network is down and
    the table accepts the inserts for which [db_ok] says so. *)
Definition quiet_web : Tools.Web :=
  Tools.mk_web (fun _ => None) (fun _ _ => None) None.

Definition world_with_db (db_ok : nat -> bool) : @Main.World small_int_numpy :=
  @Main.mk_world small_int_numpy backend_unit (fun _ _ => Main.AnalysisRaises)
    (fun _ => quiet_web) db_ok
    (fun _ _ _ => MSync.Returns (MSync.Text (py " Paris "))).

(** A world in which the model answers with a number. *)
Definition world_of_numbers : @Main.World small_int_numpy :=
  @Main.mk_world small_int_numpy backend_unit (fun _ _ => Main.AnalysisRaises)
    (fun _ => quiet_web) (fun _ => true)
    (fun _ _ _ => MSync.Returns (MSync.NotText true)).

Definition live_app : @Main.App small_int_numpy :=
  @Main.mk_app small_int_numpy ShortTerm.empty two_alike [].

Definition body_with_rag : Main.ChatBody :=
  Main.mk_body (py "capital of France?") None true None None None.

Definition body_plain : Main.ChatBody :=
  Main.mk_body (py "capital of France?") None false None None (Some (py "s1")).

Definition plain_call : @Main.App small_int_numpy * Main.outcome :=
  Main.chat [py "llama3"; py "mistral"] (world_with_db (fun _ => true))
    body_plain live_app.

Definition number_call : @Main.App small_int_numpy * Main.outcome :=
  Main.chat [py "llama3"; py "mistral"] world_of_numbers body_plain live_app.

End ExampleData.

(* ================================================================= *)
(** ** Facts about strings *)

Section StrFacts.

Lemma lstrip_all_space (s : str) :
  forallb isspace s = true -> lstrip s = [].
Proof.
  induction s as [|c r IH]; simpl; [reflexivity|].
  intros H. apply andb_true_iff in H as [Hc Hr].
  rewrite Hc. auto.
Qed.

Lemma strip_all_space (s : str) :
  forallb isspace s = true -> strip s = [].
Proof.
  intros H. unfold strip, rstrip. rewrite (lstrip_all_space s H).
  reflexivity.
Qed.

Lemma split_from_word (w : str) :
  Forall (fun c => isspace c = false) w ->
  forall cur rest, split_from cur (w ++ rest) = split_from (cur ++ w) rest.
Proof.
  induction 1 as [|c w Hc _ IH]; intros cur rest; simpl.
  - now rewrite app_nil_r.
  - rewrite Hc, IH, <- app_assoc. reflexivity.
Qed.

Lemma split_from_words (s : str) :
  forall cur, Forall (fun c => isspace c = false) cur ->
              Forall is_word (split_from cur s).
Proof.
  induction s as [|c r IH]; intros cur Hcur; simpl.
  - destruct cur as [|a cur']; constructor; [|constructor].
    split; [discriminate | assumption].
  - destruct (isspace c) eqn:Hc.
    + destruct cur as [|a cur'].
      * apply IH. constructor.
      * constructor.
        -- split; [discriminate | assumption].
        -- apply IH. constructor.
    + apply IH. apply Forall_app. split; [assumption|].
      constructor; [assumption | constructor].
Qed.

Lemma split_words (s : str) : Forall is_word (split s).
Proof. apply split_from_words. constructor. Qed.

Lemma isspace_SP : isspace SP = true.
Proof. reflexivity. Qed.

Lemma split_from_sep (w rest : str) :
  w <> [] -> split_from w (SP :: rest) = w :: split_from [] rest.
Proof.
  intros Hne. cbn [split_from]. rewrite isspace_SP.
  destruct w; [contradiction Hne; reflexivity | reflexivity].
Qed.

Lemma join_cons2 (sep w w' : str) (ws : list str) :
  join sep (w :: w' :: ws) = w ++ sep ++ join sep (w' :: ws).
Proof. reflexivity. Qed.

Lemma split_join (ws : list str) :
  Forall is_word ws -> split (join [SP] ws) = ws.
Proof.
  unfold split. induction 1 as [|w ws [Hne Hw] Hws IH]; [reflexivity|].
  destruct ws as [|w' ws'].
  - cbn [join]. rewrite <- (app_nil_r w) at 1.
    rewrite split_from_word by assumption. cbn [app split_from].
    destruct w; [contradiction Hne; reflexivity | reflexivity].
  - rewrite join_cons2, split_from_word by assumption.
    cbn [app]. rewrite split_from_sep by assumption.
    now rewrite IH.
Qed.

Lemma word_line_safe (w : str) : is_word w -> line_safe w.
Proof.
  intros [_ Hw]. rewrite Forall_forall in Hw.
  split; intros Hin; apply Hw in Hin; discriminate Hin.
Qed.

Lemma join_line_safe (ws : list str) :
  Forall is_word ws -> line_safe (join [SP] ws).
Proof.
  induction 1 as [|w ws Hw Hws IH].
  - split; intros [].
  - destruct ws as [|w' ws'].
    + simpl. now apply word_line_safe.
    + change (join [SP] (w :: w' :: ws'))
        with (w ++ [SP] ++ join [SP] (w' :: ws')).
      destruct (word_line_safe Hw) as [H1 H2], IH as [H3 H4].
      split; intros Hin; apply in_app_or in Hin as [Hin|Hin]; auto;
        destruct Hin as [Hin|Hin]; auto; discriminate Hin.
Qed.

Lemma lines_from_line (d : str) :
  line_safe d ->
  forall cur rest,
    lines_from cur (d ++ LF :: rest) = (cur ++ d ++ [LF]) :: lines_from [] rest.
Proof.
  induction d as [|c d IH]; intros [H1 H2] cur rest.
  - simpl. destruct (ascii_dec LF LF) as [_|n]; [reflexivity | now contradiction n].
  - simpl. destruct (ascii_dec c LF) as [e|_].
    { exfalso. apply H1. left. exact e. }
    destruct (ascii_dec c CR) as [e|_].
    { exfalso. apply H2. left. exact e. }
    rewrite IH.
    + rewrite <- app_assoc. reflexivity.
    + split; intros Hin; [apply H1 | apply H2]; now right.
Qed.

Lemma readlines_write_lines (ds : list str) :
  Forall line_safe ds ->
  readlines (write_lines ds) = map (fun d => d ++ [LF]) ds.
Proof.
  unfold readlines, write_lines.
  induction 1 as [|d ds Hd Hds IH]; [reflexivity|].
  simpl. rewrite <- app_assoc. simpl.
  rewrite lines_from_line by assumption. simpl. now rewrite IH.
Qed.

Lemma lstrip_lf_none (s : str) : ~ In LF s -> lstrip_lf s = s.
Proof.
  destruct s as [|c r]; [reflexivity|]. intros H. simpl.
  destruct (ascii_dec c LF) as [e|_]; [|reflexivity].
  exfalso. apply H. left. exact e.
Qed.

Lemma rstrip_lf_line (d : str) : ~ In LF d -> rstrip_lf (d ++ [LF]) = d.
Proof.
  intros H. unfold rstrip_lf. rewrite rev_app_distr. simpl.
  destruct (ascii_dec LF LF) as [_|n]; [|now contradiction n].
  rewrite lstrip_lf_none.
  - apply rev_involutive.
  - intros Hin. apply H. now apply in_rev.
Qed.

(** Reading back what the persist step wrote. *)
Lemma load_written_lines (ds : list str) :
  Forall line_safe ds ->
  map rstrip_lf (readlines (write_lines ds)) = ds.
Proof.
  intros H. rewrite readlines_write_lines by assumption.
  rewrite map_map. induction H as [|d ds [Hd _] _ IH]; [reflexivity|].
  simpl. rewrite rstrip_lf_line by assumption. now rewrite IH.
Qed.

End StrFacts.

(* ================================================================= *)
(** ** More about strings: stripping and lower-casing *)

Section StripFacts.

Lemma lstrip_idem (s : str) : lstrip (lstrip s) = lstrip s.
Proof.
  induction s as [|c r IH]; [reflexivity|].
  cbn [lstrip]. destruct (isspace c) eqn:Hc; [exact IH|].
  cbn [lstrip]. now rewrite Hc.
Qed.

(** [lstrip] removes a run of whitespace from the front. *)
Lemma lstrip_split_off (s : str) :
  exists sp, s = sp ++ lstrip s /\ forallb isspace sp = true.
Proof.
  induction s as [|c r (sp & E & Hsp)]; [now exists []|].
  cbn [lstrip]. destruct (isspace c) eqn:Hc.
  - exists (c :: sp). split.
    + cbn [app]. f_equal. exact E.
    + cbn [forallb]. now rewrite Hc, Hsp.
  - now exists [].
Qed.

Lemma lstrip_snoc (x : str) (c : ascii) :
  isspace c = false -> lstrip (x ++ [c]) = lstrip x ++ [c].
Proof.
  intros Hc. induction x as [|a x IH]; cbn [app lstrip].
  - now rewrite Hc.
  - destruct (isspace a); [exact IH | reflexivity].
Qed.

Lemma rstrip_cons (c : ascii) (t : str) :
  isspace c = false -> rstrip (c :: t) = c :: rstrip t.
Proof.
  intros Hc. unfold rstrip. cbn [rev].
  rewrite lstrip_snoc by assumption. now rewrite rev_app_distr.
Qed.

Lemma rstrip_idem (s : str) : rstrip (rstrip s) = rstrip s.
Proof. unfold rstrip. now rewrite rev_involutive, lstrip_idem. Qed.

(** [rstrip] removes a run of whitespace from the end. *)
Lemma rstrip_split_off (s : str) :
  exists sp, s = rstrip s ++ sp /\ forallb isspace sp = true.
Proof.
  destruct (lstrip_split_off (rev s)) as (sp & E & Hsp).
  exists (rev sp). split.
  - unfold rstrip. rewrite <- rev_app_distr, <- E. now rewrite rev_involutive.
  - rewrite forallb_forall in *. intros c Hin. apply Hsp. now apply in_rev.
Qed.

Lemma strip_idem (s : str) : strip (strip s) = strip s.
Proof.
  unfold strip. destruct (lstrip s) as [|c t] eqn:E; [reflexivity|].
  assert (Hc : isspace c = false).
  { destruct (isspace c) eqn:Hc; [|reflexivity].
    pose proof (lstrip_idem s) as H. rewrite E in H. cbn [lstrip] in H.
    rewrite Hc in H.
    assert (Hl : length (lstrip t) <= length t).
    { clear. induction t as [|a t IH]; cbn [lstrip]; [lia|].
      destruct (isspace a); cbn [length]; lia. }
    rewrite H in Hl. cbn [length] in Hl. lia. }
  rewrite rstrip_cons by assumption. cbn [lstrip]. rewrite Hc.
  rewrite <- rstrip_cons by assumption. apply rstrip_idem.
Qed.

(** A stripped string that is not empty begins and ends with a character
    that is not whitespace. *)
Lemma strip_nonempty_of_usable (a : str) :
  MSync.usable a = true -> strip a <> [].
Proof.
  unfold MSync.usable, MSync.truthy. intros H.
  apply andb_true_iff in H as [_ H]. destruct (strip a); [discriminate H|].
  discriminate.
Qed.

Lemma split_from_trailing_space (c : ascii) (x : str) :
  isspace c = true ->
  forall cur, split_from cur (x ++ [c]) = split_from cur x.
Proof.
  intros Hc. induction x as [|a x IH]; intros cur; cbn [app split_from].
  - rewrite Hc. destruct cur; reflexivity.
  - destruct (isspace a); [|apply IH].
    destruct cur; now rewrite IH.
Qed.

Lemma split_from_trailing_spaces (sp : str) :
  forallb isspace sp = true ->
  forall cur x, split_from cur (x ++ sp) = split_from cur x.
Proof.
  induction sp as [|c sp IH]; intros H cur x.
  - now rewrite app_nil_r.
  - cbn [forallb] in H. apply andb_true_iff in H as [Hc Hsp].
    change (x ++ c :: sp) with (x ++ [c] ++ sp). rewrite app_assoc.
    rewrite IH by assumption. now apply split_from_trailing_space.
Qed.

Lemma split_leading_spaces (sp : str) (x : str) :
  forallb isspace sp = true -> split (sp ++ x) = split x.
Proof.
  unfold split. induction sp as [|c sp IH]; intros H; [reflexivity|].
  cbn [forallb] in H. apply andb_true_iff in H as [Hc Hsp].
  cbn [app split_from]. rewrite Hc. auto.
Qed.

(** [split] does not see the whitespace that [strip] removes. *)
Lemma split_strip (s : str) : split (strip s) = split s.
Proof.
  destruct (lstrip_split_off s) as (sp1 & E1 & H1).
  destruct (rstrip_split_off (lstrip s)) as (sp2 & E2 & H2).
  fold (strip s) in E2.
  replace (split s) with (split (sp1 ++ lstrip s)) by (now rewrite <- E1).
  rewrite split_leading_spaces by assumption.
  replace (split (lstrip s)) with (split (strip s ++ sp2))
    by (now rewrite <- E2).
  unfold split. now rewrite split_from_trailing_spaces.
Qed.

Lemma lower_char_idem (c : ascii) : lower_char (lower_char c) = lower_char c.
Proof. destruct c as [[] [] [] [] [] [] [] []]; reflexivity. Qed.

Lemma isspace_lower_char (c : ascii) : isspace (lower_char c) = isspace c.
Proof. destruct c as [[] [] [] [] [] [] [] []]; reflexivity. Qed.

Lemma lower_idem (s : str) : lower (lower s) = lower s.
Proof.
  unfold lower. rewrite map_map. apply map_ext. apply lower_char_idem.
Qed.

Lemma split_from_lower (s : str) :
  forall cur, split_from (lower cur) (lower s) = map lower (split_from cur s).
Proof.
  induction s as [|c r IH]; intros cur; cbn [lower map split_from].
  - destruct cur; reflexivity.
  - rewrite isspace_lower_char. destruct (isspace c).
    + fold (lower r). destruct cur as [|a cur']; cbn [lower map].
      * apply (IH []).
      * f_equal. apply (IH []).
    + fold (lower r). rewrite <- IH. unfold lower. now rewrite map_app.
Qed.

Lemma split_lower (s : str) : split (lower s) = map lower (split s).
Proof. apply (split_from_lower s []). Qed.

End StripFacts.

(* ================================================================= *)
(** ** Facts about [Counter] and [most_common] *)

Section CounterFacts.
Import MSync.

Lemma first_index_lt (k : str) (l : list str) :
  In k l -> first_index k l < length l.
Proof.
  induction l as [|x r IH]; simpl; [intros []|].
  intros H. destruct (str_eq_dec k x) as [|n]; [lia|].
  destruct H as [H|H]; [congruence|]. apply IH in H. lia.
Qed.

Lemma first_index_app_in (k : str) (l l' : list str) :
  In k l -> first_index k (l ++ l') = first_index k l.
Proof.
  induction l as [|x r IH]; simpl; [intros []|].
  intros H. destruct (str_eq_dec k x) as [|n]; [reflexivity|].
  destruct H as [H|H]; [congruence|]. now rewrite IH.
Qed.

Lemma first_index_app_new (k : str) (l : list str) :
  ~ In k l -> first_index k (l ++ [k]) = length l.
Proof.
  induction l as [|x r IH]; simpl; intros H.
  - destruct (str_eq_dec k k); congruence.
  - destruct (str_eq_dec k x) as [e|n].
    + exfalso. apply H. left. now symmetry.
    + rewrite IH; [reflexivity|]. intros Hin. apply H. now right.
Qed.

Lemma firsts_snoc (l : list str) (k : str) :
  firsts (l ++ [k]) =
  if in_dec str_eq_dec k (firsts l) then firsts l else firsts l ++ [k].
Proof. unfold firsts. now rewrite fold_left_app. Qed.

Lemma firsts_In (l : list str) (x : str) : In x (firsts l) <-> In x l.
Proof.
  induction l as [|k l IH] using rev_ind; [reflexivity|].
  rewrite firsts_snoc, in_app_iff.
  destruct (in_dec str_eq_dec k (firsts l)) as [Hin|Hout].
  - rewrite IH. split; [now left|]. intros [H|[H|[]]]; [assumption|].
    subst x. now apply IH.
  - rewrite in_app_iff, IH. reflexivity.
Qed.

Lemma firsts_NoDup (l : list str) : NoDup (firsts l).
Proof.
  induction l as [|k l IH] using rev_ind; [constructor|].
  rewrite firsts_snoc.
  destruct (in_dec str_eq_dec k (firsts l)) as [Hin|Hout]; [assumption|].
  apply NoDup_app; [assumption | repeat constructor; intros [] |].
  intros x Hx [Hk|[]]. subst x. contradiction.
Qed.

(** Keys later in [firsts l] are first seen later in [l]. *)
Lemma firsts_order (l : list str) :
  forall ks1 b ks2, firsts l = ks1 ++ b :: ks2 ->
  forall x, In x ks2 -> first_index b l < first_index x l.
Proof.
  induction l as [|k l IH] using rev_ind; intros ks1 b ks2 E x Hx.
  - destruct ks1; discriminate E.
  - rewrite firsts_snoc in E.
    assert (Hb : forall ks2', firsts l = ks1 ++ b :: ks2' -> In b l).
    { intros ks2' E'. apply firsts_In. rewrite E'.
      apply in_or_app. right. now left. }
    destruct (in_dec str_eq_dec k (firsts l)) as [Hin|Hout].
    + assert (Hxl : In x l).
      { apply firsts_In. rewrite E. apply in_or_app. right. now right. }
      rewrite !first_index_app_in by eauto. eapply IH; eauto.
    + destruct ks2 as [|y ks2'] using rev_ind; [destruct Hx|]. clear IHks2'.
      change (ks1 ++ b :: ks2' ++ [y]) with (ks1 ++ (b :: ks2') ++ [y]) in E.
      rewrite app_assoc in E. apply app_inj_tail in E as [E Ey]. subst y.
      rewrite (@first_index_app_in b l [k] (Hb _ E)).
      apply in_app_or in Hx as [Hx|[Hx|[]]].
      * assert (Hxl : In x l).
        { apply firsts_In. rewrite E. apply in_or_app. right. now right. }
        rewrite first_index_app_in by assumption. eapply IH; eauto.
      * subst x. rewrite first_index_app_new.
        -- apply first_index_lt. eauto.
        -- intros H. apply Hout. now apply firsts_In.
Qed.

Lemma Counter_snoc (l : list str) (k : str) :
  Counter (l ++ [k]) = counter_incr k (Counter l).
Proof. unfold Counter. now rewrite fold_left_app. Qed.

Lemma count_snoc_other (l : list str) (k x : str) :
  x <> k -> count (l ++ [k]) x = count l x.
Proof.
  intros H. unfold count. rewrite count_occ_app. simpl.
  destruct (str_eq_dec k x); [congruence | lia].
Qed.

Lemma count_snoc_same (l : list str) (k : str) :
  count (l ++ [k]) k = S (count l k).
Proof.
  unfold count. rewrite count_occ_app. simpl.
  destruct (str_eq_dec k k); [lia | congruence].
Qed.

Lemma counter_incr_keys (l : list str) (k : str) (ks : list str) :
  NoDup ks ->
  counter_incr k (map (fun x => (x, count l x)) ks) =
  map (fun x => (x, count (l ++ [k]) x)) ks
  ++ (if in_dec str_eq_dec k ks then [] else [(k, 1)]).
Proof.
  induction 1 as [|x ks Hx Hnd IH]; [reflexivity|].
  cbn [map counter_incr]. destruct (str_eq_dec k x) as [e|n].
  - subst x. rewrite count_snoc_same.
    destruct (in_dec str_eq_dec k (k :: ks)) as [_|Hout];
      [|exfalso; apply Hout; now left].
    rewrite app_nil_r. cbn [app]. f_equal.
    apply map_ext_in. intros y Hy. rewrite count_snoc_other; [reflexivity|].
    intros ->. contradiction.
  - rewrite IH, count_snoc_other by congruence. cbn [app]. f_equal. f_equal.
    destruct (in_dec str_eq_dec k ks) as [Hin|Hout];
      destruct (in_dec str_eq_dec k (x :: ks)) as [Hin'|Hout'];
      try reflexivity.
    + exfalso. apply Hout'. now right.
    + exfalso. destruct Hin' as [e|Hin']; [congruence | contradiction].
Qed.

(** [Counter l]: each distinct element with its number of occurrences, in
    first-seen order. *)
Lemma Counter_spec (l : list str) :
  Counter l = map (fun x => (x, count l x)) (firsts l).
Proof.
  induction l as [|k l IH] using rev_ind; [reflexivity|].
  rewrite Counter_snoc, IH, counter_incr_keys by apply firsts_NoDup.
  rewrite firsts_snoc.
  destruct (in_dec str_eq_dec k (firsts l)) as [Hin|Hout].
  - now rewrite app_nil_r.
  - rewrite map_app. cbn [map]. rewrite count_snoc_same.
    replace (count l k) with 0; [reflexivity|].
    symmetry. apply count_occ_not_In. intros H. apply Hout.
    now apply firsts_In.
Qed.

(** [max_by_count] returns the first entry with the greatest count. *)
Lemma max_by_count_split (r : list (str * nat)) :
  forall x, exists l1 l2,
    x :: r = l1 ++ max_by_count x r :: l2 /\
    (forall y, In y l1 -> snd y < snd (max_by_count x r)) /\
    (forall y, In y l2 -> snd y <= snd (max_by_count x r)).
Proof.
  induction r as [|z r IH]; intros x.
  - exists [], []. repeat split; intros y [].
  - cbn [max_by_count]. destruct (Nat.ltb_spec (snd x) (snd z)) as [Hlt|Hge].
    + destruct (IH z) as (l1 & l2 & E & H1 & H2).
      exists (x :: l1), l2. split; [cbn [app]; now rewrite E|]. split; [|exact H2].
      intros y [<-|Hy]; [|now apply H1].
      assert (Hz : In z (l1 ++ max_by_count z r :: l2))
        by (rewrite <- E; now left).
      apply in_app_or in Hz as [Hz|[Hz|Hz]].
      * apply H1 in Hz. lia.
      * rewrite Hz. exact Hlt.
      * apply H2 in Hz. lia.
    + destruct (IH x) as (l1 & l2 & E & H1 & H2).
      destruct l1 as [|x' l1].
      * cbn [app] in E. injection E as Ex Er.
        exists [], (z :: l2). split; [cbn [app]; congruence|].
        split; [intros y []|]. intros y [<-|Hy]; [|now apply H2].
        rewrite <- Ex. exact Hge.
      * cbn [app] in E. injection E as Ex Er. subst x'.
        exists (x :: z :: l1), l2. split; [cbn [app]; do 2 f_equal; exact Er|].
        split; [|exact H2].
        assert (Hx : snd x < snd (max_by_count x r)) by (apply H1; now left).
        intros y [<-|[<-|Hy]]; [exact Hx | lia |].
        apply H1. now right.
Qed.

End CounterFacts.

(* ================================================================= *)
(** ** Answer fusion *)

Section FusionFacts.
Import MSync.

Lemma str_eqb_true (a b : str) : str_eqb a b = true <-> a = b.
Proof.
  unfold str_eqb. destruct (str_eq_dec a b); split; congruence.
Qed.

Lemma usable_filter_nonempty (answers : list str) :
  existsb usable answers = true -> filter usable answers <> [].
Proof.
  intros H. apply existsb_exists in H as (a & Ha & Hu).
  intros E. assert (Hin : In a (filter usable answers))
    by (apply filter_In; auto).
  rewrite E in Hin. destruct Hin.
Qed.

(** The vote: the winner is a normalized form of some usable answer, no
    form occurs more often, and a form that occurs as often is first seen
    later. *)
Lemma most_common_1_spec (l : list str) :
  l <> [] ->
  exists best nb,
    most_common_1 (Counter l) = [(best, nb)] /\
    In best l /\
    (forall k, In k l -> count l k <= count l best) /\
    (forall k, In k l -> k <> best -> count l k = count l best ->
               first_index best l < first_index k l).
Proof.
  intros Hne. rewrite Counter_spec.
  destruct (firsts l) as [|k0 ks] eqn:Ef.
  { destruct l as [|a l']; [contradiction Hne; reflexivity|].
    assert (H : In a (firsts (a :: l'))) by (apply firsts_In; now left).
    rewrite Ef in H. destruct H. }
  cbn [map most_common_1].
  set (f := fun x => (x, count l x)).
  destruct (max_by_count_split (map f ks) (f k0)) as (l1 & l2 & E & H1 & H2).
  set (b := max_by_count (f k0) (map f ks)) in *.
  change (f k0 :: map f ks) with (map f (k0 :: ks)) in E.
  apply map_eq_app in E as (ks1 & ks' & Eks & E1 & E2).
  apply map_eq_cons in E2 as (kb & ks2 & Eks' & Eb & E2).
  subst ks' l1 l2. rewrite <- Ef in Eks.
  exists kb, (count l kb).
  assert (Hb : b = (kb, count l kb)) by (symmetry; exact Eb).
  rewrite Hb in H1, H2. cbn [snd] in H1, H2.
  assert (Hcases : forall k, In k l -> In k ks1 \/ k = kb \/ In k ks2).
  { intros k Hk. apply firsts_In in Hk. rewrite Eks in Hk.
    apply in_app_or in Hk as [Hk|[Hk|Hk]]; auto. }
  split; [f_equal; exact Hb|]. split.
  { apply firsts_In. rewrite Eks. apply in_or_app. right. now left. }
  split.
  - intros k Hk. destruct (Hcases k Hk) as [Hk1|[->|Hk2]].
    + apply Nat.lt_le_incl. apply (H1 (f k)). now apply in_map.
    + apply Nat.le_refl.
    + apply (H2 (f k)). now apply in_map.
  - intros k Hk Hneq Hcnt. destruct (Hcases k Hk) as [Hk1|[->|Hk2]].
    + assert (Hlt : count l k < count l kb)
        by (apply (H1 (f k)); now apply in_map).
      lia.
    + contradiction Hneq; reflexivity.
    + eapply firsts_order; eauto.
Qed.

Lemma first_candidate {A B : Type} (q : A -> bool) (f : A -> B)
    (p : B -> bool) (l : list A) :
  forall c rest, filter p (map f (filter q l)) = c :: rest ->
  exists pre a post,
    l = pre ++ a :: post /\ q a = true /\ p (f a) = true /\ c = f a /\
    (forall b, In b pre -> q b = true -> p (f b) = false).
Proof.
  induction l as [|x l IH]; intros c rest E; [discriminate E|].
  cbn [filter] in E. destruct (q x) eqn:Hq.
  - cbn [map filter] in E. destruct (p (f x)) eqn:Hp.
    + injection E as Ec _. exists [], x, l.
      repeat split; auto. intros b [].
    + destruct (IH _ _ E) as (pre & a & post & El & Ha & Hpa & Ec & Hpre).
      exists (x :: pre), a, post. subst l. repeat split; auto.
      intros b [<-|Hb]; auto.
  - destruct (IH _ _ E) as (pre & a & post & El & Ha & Hpa & Ec & Hpre).
    exists (x :: pre), a, post. subst l. repeat split; auto.
    intros b [<-|Hb]; [congruence | auto].
Qed.

(** What [fuse] returns when some answer is usable. *)
Lemma fuse_spec (answers : list str) :
  existsb usable answers = true ->
  exists best nb pre a post,
    most_common_1 (Counter (normal_forms answers)) = [(best, nb)] /\
    answers = pre ++ a :: post /\
    usable a = true /\
    _normalize (strip a) = best /\
    (forall b, In b pre -> usable b = true -> _normalize (strip b) <> best) /\
    fuse answers = Ok (strip a).
Proof.
  intros Hex. pose proof (usable_filter_nonempty answers Hex) as Hne.
  assert (Hn : normal_forms answers <> []).
  { unfold normal_forms. intros E. apply Hne.
    apply map_eq_nil in E. now apply map_eq_nil in E. }
  destruct (most_common_1_spec Hn) as (best & nb & Emc & Hin & _ & _).
  unfold fuse. fold (normal_forms answers).
  destruct (map strip (filter usable answers)) as [|first others] eqn:Ene.
  { apply map_eq_nil in Ene. contradiction. }
  rewrite Emc.
  destruct (filter (fun a => str_eqb (_normalize a) best) (first :: others))
    as [|c rest] eqn:Ec.
  { exfalso. unfold normal_forms in Hin. rewrite Ene in Hin.
    apply in_map_iff in Hin as (a & Ha & Hain).
    assert (H : In a (filter (fun a => str_eqb (_normalize a) best)
                             (first :: others))).
    { apply filter_In. split; [assumption|]. now apply str_eqb_true. }
    rewrite Ec in H. destruct H. }
  rewrite <- Ene in Ec.
  apply first_candidate in Ec as (pre & a & post & El & Ha & Hp & Hc & Hpre).
  exists best, nb, pre, a, post. repeat split; auto.
  - now apply str_eqb_true.
  - intros b Hb Hub Hnb. apply str_eqb_true in Hnb.
    rewrite (Hpre b Hb Hub) in Hnb. discriminate Hnb.
  - now subst c.
Qed.

Lemma winner_most_common (answers : list str) (best : str) (nb : nat) :
  most_common_1 (Counter (normal_forms answers)) = [(best, nb)] ->
  winner answers = Some best.
Proof.
  intros E. unfold winner. fold (normal_forms answers). now rewrite E.
Qed.

Lemma filter_none {A : Type} (f : A -> bool) (l : list A) :
  (forall x, In x l -> f x = false) -> filter f l = [].
Proof.
  induction l as [|x l IH]; intros H; [reflexivity|].
  cbn [filter]. rewrite (H x) by now left.
  apply IH. intros y Hy. apply H. now right.
Qed.

Lemma blank_not_usable (a : str) : forallb isspace a = true -> usable a = false.
Proof.
  intros H. unfold usable. rewrite (strip_all_space a H).
  apply andb_false_r.
Qed.


Lemma existsb_false_filter {A : Type} (f : A -> bool) (l : list A) :
  existsb f l = false -> filter f l = [].
Proof.
  intros H. apply filter_none. intros x Hx.
  destruct (f x) eqn:E; [|reflexivity].
  assert (existsb f l = true) by (apply existsb_exists; eauto). congruence.
Qed.

Lemma count_two_forms (l : list str) (k k' : str) :
  k <> k' -> count l k + count l k' <= length l.
Proof.
  intros Hne. unfold count. induction l as [|x l IH]; [cbn; lia|].
  cbn [count_occ length].
  destruct (str_eq_dec x k), (str_eq_dec x k'); subst; try congruence; lia.
Qed.

(** [fuse] returns, and what: the sentinel, or a usable answer stripped. *)
Lemma fuse_returns (l : list str) :
  exists r, fuse l = Ok r /\ r <> [] /\ strip r = r /\
    (r = py "(no answer)" \/
     exists a, In a l /\ usable a = true /\ r = strip a).
Proof.
  destruct (existsb usable l) eqn:Hex.
  - destruct (fuse_spec _ Hex)
      as (best & nb & pre & a & post & _ & El & Ha & _ & _ & Ef).
    exists (strip a). split; [exact Ef|].
    split; [now apply strip_nonempty_of_usable|].
    split; [apply strip_idem|]. right. exists a.
    split; [rewrite El; apply in_or_app; right; now left | auto].
  - exists (py "(no answer)"). unfold fuse.
    rewrite (existsb_false_filter _ _ Hex). cbn [map].
    split; [reflexivity|]. split; [discriminate|].
    split; [reflexivity | now left].
Qed.

(** [gather]: cancelled if a call is, and the answers otherwise. *)
Lemma gather_from_replies (oc : nat -> str -> reply) (ml : list str) :
  forall i,
    gather_from i oc ml
    = if existsb is_cancelled (replies_from i oc ml)
      then Raise CancelledError
      else Ok (map answer_of (replies_from i oc ml)).
Proof.
  induction ml as [|m ml IH]; intros i; [reflexivity|].
  cbn [gather_from replies_from existsb map]. rewrite IH.
  destruct (oc i m) as [v| |]; cbn [ask is_cancelled orb answer_of];
    try reflexivity;
    destruct (existsb is_cancelled (replies_from (S i) oc ml)); reflexivity.
Qed.

Lemma In_replies_from (oc : nat -> str -> reply) (ml : list str) :
  forall i r, In r (replies_from i oc ml) <->
    exists j m, nth_error ml j = Some m /\ oc (i + j) m = r.
Proof.
  induction ml as [|m0 ml IH]; intros i r; cbn [replies_from In].
  - split; [intros [] | intros (j & m & Hj & _); destruct j; discriminate Hj].
  - rewrite IH. split.
    + intros [H|(j & m & Hj & H)].
      * exists 0, m0. split; [reflexivity|]. now rewrite Nat.add_0_r.
      * exists (S j), m. split; [exact Hj|]. now rewrite Nat.add_succ_r.
    + intros ([|j] & m & Hj & H).
      * left. injection Hj as ->. now rewrite Nat.add_0_r in H.
      * right. exists j, m. split; [exact Hj|]. now rewrite Nat.add_succ_r in H.
Qed.

(** Line 26 on the gathered answers. *)
Lemma strings_texts (answers : list content) :
  strings answers
  = if existsb no_strip answers then Raise AttributeError
    else Ok (texts answers).
Proof.
  induction answers as [|[s|[|]] r IH]; cbn [strings existsb no_strip orb texts];
    try reflexivity; rewrite IH; destruct (existsb no_strip r); reflexivity.
Qed.

Lemma In_texts (answers : list content) (s : str) :
  In s (texts answers) <-> In (Text s) answers.
Proof.
  induction answers as [|[s0|b] r IH]; cbn [texts In].
  - reflexivity.
  - rewrite IH. split; intros [H|H]; auto; left; congruence.
  - rewrite IH. split; [auto | intros [H|H]; [discriminate H | exact H]].
Qed.

(** [chat], by what the backend does. *)
Lemma chat_by_replies (oc : nat -> str -> reply) (default_models : list str)
    (models : option (list str)) :
  chat oc default_models models
  = if existsb is_cancelled
         (replies_from 0 oc (select_models default_models models))
    then Raise CancelledError
    else if existsb no_strip
              (map answer_of
                 (replies_from 0 oc (select_models default_models models)))
         then Raise AttributeError
         else fuse (texts (map answer_of
                (replies_from 0 oc (select_models default_models models)))).
Proof.
  unfold chat, gather. rewrite gather_from_replies.
  destruct (existsb is_cancelled _); [reflexivity|].
  unfold fuse_answers. rewrite strings_texts.
  destruct (existsb no_strip _); reflexivity.
Qed.

(** A reply of [chat] is not the empty string. *)
Lemma chat_ok_nonempty (oc : nat -> str -> reply) (default_models : list str)
    (models : option (list str)) (r : str) :
  chat oc default_models models = Ok r -> r <> [].
Proof.
  rewrite chat_by_replies.
  destruct (existsb is_cancelled _); [discriminate|].
  destruct (existsb no_strip _); [discriminate|].
  destruct (fuse_returns
              (texts (map answer_of
                 (replies_from 0 oc (select_models default_models models)))))
    as (r0 & E & Hne & _).
  rewrite E. now intros [= <-].
Qed.

(** What [chat] raises. *)
Lemma chat_raises (oc : nat -> str -> reply) (default_models : list str)
    (models : option (list str)) (e : exn) :
  chat oc default_models models = Raise e ->
  e = CancelledError \/ e = AttributeError.
Proof.
  rewrite chat_by_replies.
  destruct (existsb is_cancelled _); [intros [= <-]; now left|].
  destruct (existsb no_strip _); [intros [= <-]; now right|].
  destruct (fuse_returns
              (texts (map answer_of
                 (replies_from 0 oc (select_models default_models models)))))
    as (r0 & E & _).
  rewrite E. discriminate.
Qed.

End FusionFacts.

(* ================================================================= *)
(** ** Theorems: answer fusion *)

Section FusionTheorems.
Import MSync.

(** C3, as the code has it.  When some answer is usable, [fuse] returns the
    first answer, in [model_list] order, that is usable and whose
    normalized form is the winning one - with its leading and trailing
    whitespace stripped, case and inner whitespace as the model wrote them.
    For the answers "Paris.", "paris", "Paris" the result is "paris",
    one of the three. *)
Theorem fuse_returns_first_stripped_winner :
  (forall answers : list str,
      existsb usable answers = true ->
      exists best pre a post,
        winner answers = Some best /\
        answers = pre ++ a :: post /\
        usable a = true /\
        _normalize (strip a) = best /\
        (forall b, In b pre -> usable b = true ->
                   _normalize (strip b) <> best) /\
        fuse answers = Ok (strip a)) /\
  fuse [py "Paris."; py "paris"; py "Paris"] = Ok (py "paris") /\
  In (py "paris") [py "Paris."; py "paris"; py "Paris"].
Proof.
  split; [|split; [reflexivity | right; now left]].
  intros answers Hex.
  destruct (fuse_spec answers Hex)
    as (best & nb & pre & a & post & Emc & El & Ha & Hn & Hpre & Ef).
  exists best, pre, a, post. repeat split; auto.
  eapply winner_most_common; eauto.
Qed.

Lemma fuse_returns_first_stripped_winner_witness :
  existsb usable [py " Paris"; []; py "paris  "] = true /\
  fuse [py " Paris"; []; py "paris  "] = Ok (py "Paris").
Proof.
  split; [reflexivity|].
  destruct fuse_returns_first_stripped_winner as [H _].
  destruct (H [py " Paris"; []; py "paris  "] eq_refl)
    as (best & pre & a & post & _ & _ & _ & _ & _ & Ef).
  reflexivity.
Defined.

(** C3, as the specification words it, fails: the string returned for the
    single answer " Paris" is "Paris", which is none of the original
    answers. *)
Lemma fuse_result_not_an_original_answer :
  fuse [py " Paris"] = Ok (py "Paris") /\
  forall a, In a [py " Paris"] -> fuse [py " Paris"] <> Ok a.
Proof.
  split; [reflexivity|].
  intros a [<-|[]]. discriminate.
Qed.



(** C9.  If every dispatched call raises (error, timeout) or returns an
    empty or whitespace-only answer - or a falsy value that is no string -
    [chat] returns the string "(no answer)"; it does not raise. *)
Theorem chat_no_answer_when_all_fail
    (ollama_chat : nat -> str -> reply) (default_models : list str)
    (models : option (list str)) :
  (forall i m, nth_error (select_models default_models models) i = Some m ->
               match ollama_chat i m with
               | Raises => True
               | Returns (Text s) => forallb isspace s = true
               | Returns (NotText truth) => truth = false
               | Cancelled => False
               end) ->
  chat ollama_chat default_models models = Ok (py "(no answer)").
Proof.
  intros H. rewrite chat_by_replies.
  set (rs := replies_from 0 ollama_chat (select_models default_models models)).
  assert (Hrs : forall r, In r rs ->
            match r with
            | Raises => True
            | Returns (Text s) => forallb isspace s = true
            | Returns (NotText truth) => truth = false
            | Cancelled => False
            end).
  { intros r Hr. apply In_replies_from in Hr as (j & m & Hj & <-).
    exact (H j m Hj). }
  replace (existsb is_cancelled rs) with false.
  2: { symmetry. apply not_true_is_false. intros Hc.
       apply existsb_exists in Hc as (r & Hr & Hc).
       apply Hrs in Hr. destruct r; try discriminate Hc. exact Hr. }
  replace (existsb no_strip (map answer_of rs)) with false.
  2: { symmetry. apply not_true_is_false. intros Hc.
       apply existsb_exists in Hc as (v & Hv & Hc).
       apply in_map_iff in Hv as (r & <- & Hr). apply Hrs in Hr.
       destruct r as [[s|[|]]| |]; try discriminate Hc. discriminate Hr. }
  unfold fuse.
  replace (filter usable (texts (map answer_of rs))) with (@nil str);
    [reflexivity|].
  symmetry. apply filter_none. intros a Ha.
  apply In_texts in Ha. apply in_map_iff in Ha as (r & Er & Hr).
  apply Hrs in Hr. destruct r as [[s|b]| |]; cbn [answer_of] in Er.
  - injection Er as ->. now apply blank_not_usable.
  - discriminate Er.
  - injection Er as <-. reflexivity.
  - destruct Hr.
Qed.

Lemma chat_no_answer_when_all_fail_witness :
  chat (fun i _ => if i =? 0 then Raises else Returns (Text (py "  ")))
       [py "llama3"; py "mistral"] None
  = Ok (py "(no answer)").
Proof.
  apply chat_no_answer_when_all_fail.
  intros [|[|i]] m E; simpl in *; try exact I; reflexivity.
Defined.

(** X1.  [chat] raises in two cases only.  If a dispatched call is
    cancelled, it raises [CancelledError].  If none is cancelled and a model
    returns a truthy value that is no string, it raises [AttributeError].
    Otherwise it returns: its reply is not empty and has no whitespace at
    either end; it is the string "(no answer)" or the stripped answer of a
    dispatched model that returned a string. *)
Theorem chat_reply_is_sentinel_or_stripped_answer
    (ollama_chat : nat -> str -> reply) (default_models : list str)
    (models : option (list str)) :
  ((exists i m,
      nth_error (select_models default_models models) i = Some m /\
      ollama_chat i m = Cancelled) ->
   chat ollama_chat default_models models = Raise CancelledError) /\
  ((forall i m,
      nth_error (select_models default_models models) i = Some m ->
      ollama_chat i m <> Cancelled) ->
   (exists i m,
      nth_error (select_models default_models models) i = Some m /\
      ollama_chat i m = Returns (NotText true)) ->
   chat ollama_chat default_models models = Raise AttributeError) /\
  ((forall i m,
      nth_error (select_models default_models models) i = Some m ->
      ollama_chat i m <> Cancelled /\
      ollama_chat i m <> Returns (NotText true)) ->
   exists r,
     chat ollama_chat default_models models = Ok r /\
     r <> [] /\ strip r = r /\
     (r = py "(no answer)" \/
      exists i m s,
        nth_error (select_models default_models models) i = Some m /\
        ollama_chat i m = Returns (Text s) /\ r = strip s)).
Proof.
  rewrite chat_by_replies.
  set (ml := select_models default_models models).
  set (rs := replies_from 0 ollama_chat ml).
  assert (Hnc : (forall i m, nth_error ml i = Some m ->
                   ollama_chat i m <> Cancelled) ->
                existsb is_cancelled rs = false).
  { intros H. apply not_true_is_false. intros Hc.
    apply existsb_exists in Hc as (r & Hr & Hc).
    apply In_replies_from in Hr as (j & m & Hj & <-).
    apply (H j m Hj). change (0 + j) with j in Hc.
    destruct (ollama_chat j m); try discriminate Hc. reflexivity. }
  split; [|split].
  - intros (i & m & Hi & Hc).
    replace (existsb is_cancelled rs) with true; [reflexivity|].
    symmetry. apply existsb_exists. exists Cancelled. split; [|reflexivity].
    apply In_replies_from. now exists i, m.
  - intros H (i & m & Hi & Hv). rewrite (Hnc H).
    replace (existsb no_strip (map answer_of rs)) with true; [reflexivity|].
    symmetry. apply existsb_exists. exists (NotText true).
    split; [|reflexivity].
    apply in_map_iff. exists (Returns (NotText true)). split; [reflexivity|].
    apply In_replies_from. now exists i, m.
  - intros H. rewrite (Hnc (fun i m Hi => proj1 (H i m Hi))).
    replace (existsb no_strip (map answer_of rs)) with false.
    2: { symmetry. apply not_true_is_false. intros Hc.
         apply existsb_exists in Hc as (v & Hv & Hc).
         apply in_map_iff in Hv as (r & <- & Hr).
         apply In_replies_from in Hr as (j & m & Hj & <-).
         apply (proj2 (H j m Hj)). change (0 + j) with j in Hc.
         destruct (ollama_chat j m) as [[s|[|]]| |]; try discriminate Hc.
         reflexivity. }
    destruct (fuse_returns (texts (map answer_of rs)))
      as (r & E & Hne & Hs & [Hr|(a & Ha & Hu & Hr)]).
    + exists r. repeat split; auto.
    + exists r. repeat split; auto. right.
      apply In_texts in Ha. apply in_map_iff in Ha as (rep & Erep & Hrep).
      apply In_replies_from in Hrep as (j & m & Hj & <-).
      change (0 + j) with j in Erep.
      destruct (ollama_chat j m) as [v| |] eqn:Eo; cbn [answer_of] in Erep.
      * subst v. now exists j, m, a.
      * injection Erep as <-. discriminate Hu.
      * injection Erep as <-. discriminate Hu.
Qed.

Lemma chat_reply_is_sentinel_or_stripped_answer_witness :
  chat three_models [py "llama3"; py "mistral"; py "phi3"] None
  = Ok (py "Paris").
Proof.
  destruct (proj2 (proj2 (chat_reply_is_sentinel_or_stripped_answer
              three_models [py "llama3"; py "mistral"; py "phi3"] None)))
    as (r & E & _).
  - intros [|[|[|i]]] m Hi; cbn in Hi; try discriminate Hi;
      split; discriminate.
  - reflexivity.
Defined.

(** X2.  The normalized form is canonical: normalizing it again changes
    nothing, and neither whitespace around an answer nor the case of its
    letters changes its normalized form. *)
Theorem normalize_is_canonical (a : str) :
  _normalize (_normalize a) = _normalize a /\
  _normalize (strip a) = _normalize a /\
  _normalize (lower a) = _normalize a.
Proof.
  assert (Hl : split (lower (lower a)) = split (lower a))
    by now rewrite lower_idem.
  unfold _normalize. split; [|split].
  - f_equal. rewrite split_lower, split_join by apply split_words.
    now rewrite <- split_lower.
  - f_equal. now rewrite split_lower, split_strip, <- split_lower.
  - now rewrite Hl.
Qed.

(** X3.  A normalized form given by more than half of the usable answers
    wins the vote, wherever in [model_list] order it stands, and [fuse]
    returns an answer of that form. *)
Theorem fuse_majority_wins (answers : list str) (k : str) :
  length (normal_forms answers) < 2 * count (normal_forms answers) k ->
  winner answers = Some k /\
  exists r, fuse answers = Ok r /\ _normalize r = k.
Proof.
  intros Hmaj.
  assert (Hex : existsb usable answers = true).
  { destruct (existsb usable answers) eqn:E; [reflexivity|].
    unfold normal_forms in Hmaj. rewrite (existsb_false_filter _ _ E) in Hmaj.
    cbn in Hmaj. lia. }
  destruct (fuse_spec answers Hex)
    as (best & nb & pre & a & post & Emc & _ & _ & Hn & _ & Ef).
  assert (Hne : normal_forms answers <> []).
  { intros E. rewrite E in Emc. discriminate Emc. }
  destruct (most_common_1_spec Hne) as (best' & nb' & Emc' & Hin & Hmax & _).
  rewrite Emc in Emc'. injection Emc' as <- <-.
  assert (Hk : In k (normal_forms answers)).
  { apply (count_occ_In str_eq_dec). unfold count in Hmaj. lia. }
  assert (Hbest : best = k).
  { destruct (str_eq_dec best k) as [|Hneq]; [assumption|].
    pose proof (Hmax k Hk).
    pose proof (count_two_forms (normal_forms answers) Hneq). lia. }
  rewrite Hbest in *. split.
  - exact (winner_most_common answers Emc).
  - exists (strip a). split; assumption.
Qed.

Lemma fuse_majority_wins_witness :
  winner [py "Rome"; py " paris"; py "PARIS"; py "Paris "; py "Oslo"]
  = Some (py "paris").
Proof.
  refine (proj1 (@fuse_majority_wins
                   [py "Rome"; py " paris"; py "PARIS"; py "Paris "; py "Oslo"]
                   (py "paris") _)).
  vm_compute. lia.
Defined.


End FusionTheorems.

(* ================================================================= *)
(** ** Chunking *)

Section ChunkFacts.
Import Rag.

Open Scope Z_scope.

(** Words that fill [current] exactly are flushed as one chunk. *)
Lemma chunk_loop_fill (m : Z) (ws1 : list str) :
  forall cur ws2 chunks,
    ws1 <> [] ->
    Z.of_nat (length cur + length ws1) = m ->
    chunk_loop m (ws1 ++ ws2) cur chunks
    = chunk_loop m ws2 [] (chunks ++ [join [SP] (cur ++ ws1)]).
Proof.
  induction ws1 as [|w ws1 IH]; intros cur ws2 chunks Hne Hlen;
    [contradiction Hne; reflexivity|].
  cbn [app chunk_loop]. rewrite length_app. cbn [length] in *.
  destruct ws1 as [|w' ws1']; cbn [length] in Hlen.
  - destruct (Z.geb_spec (Z.of_nat (length cur + 1)) m) as [_|Hlt]; [|lia].
    reflexivity.
  - destruct (Z.geb_spec (Z.of_nat (length cur + 1)) m) as [Hge|_]; [lia|].
    rewrite IH.
    + now rewrite <- app_assoc.
    + discriminate.
    + rewrite length_app. cbn [length]. lia.
Qed.

(** Fewer words than fit: they make the last chunk, if there are any. *)
Lemma chunk_loop_short (m : Z) (ws : list str) :
  forall cur chunks,
    Z.of_nat (length cur + length ws) < m ->
    chunk_loop m ws cur chunks
    = match cur ++ ws with
      | [] => chunks
      | _ => chunks ++ [join [SP] (cur ++ ws)]
      end.
Proof.
  induction ws as [|w ws IH]; intros cur chunks Hlen.
  - cbn [chunk_loop]. rewrite app_nil_r. reflexivity.
  - cbn [chunk_loop]. rewrite length_app. cbn [length] in *.
    destruct (Z.geb_spec (Z.of_nat (length cur + 1)) m) as [Hge|_]; [lia|].
    rewrite IH by (rewrite length_app; cbn [length]; lia).
    rewrite <- app_assoc. cbn [app]. destruct cur; reflexivity.
Qed.

(** The chunks are the words cut into consecutive groups: none empty, none
    longer than [m], all but the last of exactly [m] words. *)
Lemma chunk_loop_shape (m : Z) (ws : list str) :
  1 <= m ->
  forall cur chunks,
    Z.of_nat (length cur) < m ->
    exists groups,
      chunk_loop m ws cur chunks = chunks ++ map (join [SP]) groups /\
      concat groups = cur ++ ws /\
      Forall (fun g => g <> [] /\ Z.of_nat (length g) <= m) groups /\
      (forall pre g post, groups = pre ++ g :: post -> post <> [] ->
                          Z.of_nat (length g) = m).
Proof.
  intros Hm. induction ws as [|w ws IH]; intros cur chunks Hcur.
  - cbn [chunk_loop]. destruct cur as [|c cur'].
    + exists []. rewrite app_nil_r. repeat split; auto.
      intros pre g post E. destruct pre; discriminate E.
    + exists [c :: cur']. cbn [map concat]. rewrite !app_nil_r.
      repeat split; auto.
      * constructor; [|constructor]. split; [discriminate | lia].
      * intros pre g post E Hpost. destruct pre as [|x pre].
        -- injection E as _ E. now subst post.
        -- injection E as _ E. destruct pre; discriminate E.
  - cbn [chunk_loop].
    assert (Hlen : length (cur ++ [w]) = S (length cur))
      by (rewrite length_app; cbn [length]; lia).
    destruct (Z.geb_spec (Z.of_nat (length (cur ++ [w]))) m) as [Hge|Hlt].
    + destruct (IH [] (chunks ++ [join [SP] (cur ++ [w])])) as
          (groups & E & Hc & Hall & Hfull); [cbn [length]; lia|].
      exists ((cur ++ [w]) :: groups). repeat split.
      * rewrite E, <- app_assoc. reflexivity.
      * cbn [concat]. rewrite Hc, <- app_assoc. reflexivity.
      * constructor; [|exact Hall].
        split; [destruct cur; discriminate | lia].
      * intros pre g post Eg Hpost. destruct pre as [|x pre].
        -- injection Eg as Eg _. subst g. lia.
        -- injection Eg as _ Eg. eapply Hfull; eauto.
    + destruct (IH (cur ++ [w]) chunks) as
          (groups & E & Hc & Hall & Hfull); [lia|].
      exists groups. repeat split; auto.
      rewrite Hc, <- app_assoc. reflexivity.
Qed.

Lemma Forall_concat_groups {A : Type} (P : A -> Prop) (groups : list (list A)) :
  Forall P (concat groups) -> Forall (Forall P) groups.
Proof.
  induction groups as [|g groups IH]; intros H; [constructor|].
  cbn [concat] in H. apply Forall_app in H as [Hg Hr].
  constructor; auto.
Qed.

(** [_chunk] with the default [max_tokens], as groups of words. *)
Lemma chunk_groups (text : str) :
  exists groups,
    _chunk text default_max_tokens = map (join [SP]) groups /\
    concat groups = split text /\
    Forall (fun g => Forall is_word g /\ g <> [] /\ (length g <= 500)%nat)
           groups /\
    (forall pre g post, groups = pre ++ g :: post -> post <> [] ->
                        length g = 500%nat).
Proof.
  unfold _chunk, default_max_tokens.
  destruct (@chunk_loop_shape 500 (split text) ltac:(lia) [] [])
    as (groups & E & Hc & Hall & Hfull); [cbn [length]; lia|].
  exists groups. cbn [app] in *. repeat split; auto.
  - assert (Hw : Forall (Forall is_word) groups).
    { apply Forall_concat_groups. rewrite Hc. apply split_words. }
    rewrite Forall_forall in *. intros g Hg.
    destruct (Hall g Hg) as [H1 H2]. repeat split; auto. lia.
  - intros pre g post Eg Hpost.
    pose proof (Hfull pre g post Eg Hpost). lia.
Qed.

Lemma chunk_line_safe (text : str) :
  Forall line_safe (_chunk text default_max_tokens).
Proof.
  destruct (chunk_groups text) as (groups & E & _ & Hall & _).
  rewrite E. apply Forall_forall. intros c Hc.
  apply in_map_iff in Hc as (g & <- & Hg).
  rewrite Forall_forall in Hall. apply join_line_safe. now apply Hall.
Qed.

Close Scope Z_scope.

End ChunkFacts.

Section ChunkTheorems.
Import Rag.

(** C6.  [_chunk] with the default limit cuts the whitespace-delimited
    words of a text into chunks of at most 500 words, filling each chunk
    before the next is begun: 500 words make one chunk, 501 words make a
    chunk of the first 500 and a chunk of the last one, a text without
    words makes no chunk; every chunk holds between 1 and 500 words, every
    chunk but the last exactly 500, and the chunks hold the words of the
    text in order. *)
Theorem chunk_500_greedy :
  (forall text, length (split text) = 500 ->
     _chunk text 500 = [join [SP] (split text)]) /\
  (forall text, length (split text) = 501 ->
     _chunk text 500
     = [join [SP] (firstn 500 (split text)); join [SP] (skipn 500 (split text))]
     /\ length (split (join [SP] (firstn 500 (split text)))) = 500
     /\ length (split (join [SP] (skipn 500 (split text)))) = 1) /\
  _chunk [] 500 = [] /\
  (forall text c, In c (_chunk text 500) ->
     1 <= length (split c) <= 500) /\
  (forall text pre c post, _chunk text 500 = pre ++ c :: post -> post <> [] ->
     length (split c) = 500) /\
  (forall text, concat (map split (_chunk text 500)) = split text).
Proof.
  split; [|split; [|split; [reflexivity|split; [|split]]]].
  - intros text Hlen. unfold _chunk.
    rewrite <- (app_nil_r (split text)) at 1.
    rewrite chunk_loop_fill.
    + reflexivity.
    + intros E. rewrite E in Hlen. discriminate Hlen.
    + cbn [length app]. rewrite Hlen. reflexivity.
  - intros text Hlen. unfold _chunk.
    pose proof (split_words text) as Hw.
    rewrite <- (firstn_skipn 500 (split text)) in Hw.
    apply Forall_app in Hw as [Hw1 Hw2].
    assert (H1 : length (firstn 500 (split text)) = 500)
      by (rewrite length_firstn; lia).
    assert (H2 : length (skipn 500 (split text)) = 1)
      by (rewrite length_skipn; lia).
    rewrite !split_join by assumption. split; [|split; assumption].
    rewrite <- (firstn_skipn 500 (split text)) at 1.
    rewrite chunk_loop_fill.
    + rewrite chunk_loop_short by (rewrite H2; cbn; lia).
      cbn [app]. destruct (skipn 500 (split text)); [discriminate H2|].
      reflexivity.
    + intros E. rewrite E in H1. discriminate H1.
    + cbn [length app]. rewrite H1. reflexivity.
  - intros text c Hc.
    destruct (chunk_groups text) as (groups & E & _ & Hall & _).
    change 500%Z with default_max_tokens in Hc. rewrite E in Hc.
    apply in_map_iff in Hc as (g & <- & Hg).
    rewrite Forall_forall in Hall. destruct (Hall g Hg) as (Hw & Hne & Hle).
    rewrite split_join by assumption.
    destruct g; [contradiction Hne; reflexivity | cbn [length] in *; lia].
  - intros text pre c post E Hpost.
    destruct (chunk_groups text) as (groups & Eg & _ & Hall & Hfull).
    change 500%Z with default_max_tokens in E. rewrite Eg in E.
    apply map_eq_app in E as (gpre & grest & -> & _ & E).
    apply map_eq_cons in E as (g & gpost & -> & <- & <-).
    rewrite Forall_forall in Hall.
    destruct (Hall g) as (Hw & _); [apply in_or_app; right; now left|].
    rewrite split_join by assumption.
    eapply Hfull; [reflexivity|]. intros ->. now apply Hpost.
  - intros text.
    destruct (chunk_groups text) as (groups & E & Hc & Hall & _).
    change 500%Z with default_max_tokens. rewrite E, map_map, <- Hc.
    f_equal. rewrite <- (map_id groups) at 2.
    apply map_ext_in. intros g Hg. rewrite Forall_forall in Hall.
    apply split_join. now apply Hall.
Qed.

Lemma chunk_500_greedy_witness :
  length (split (concat (repeat (py "ab ") 500))) = 500 /\
  _chunk (concat (repeat (py "ab ") 500)) 500
  = [join [SP] (split (concat (repeat (py "ab ") 500)))].
Proof.
  assert (H : length (split (concat (repeat (py "ab ") 500))) = 500)
    by (vm_compute; reflexivity).
  split; [exact H|].
  apply (proj1 chunk_500_greedy). exact H.
Defined.

End ChunkTheorems.

(* ================================================================= *)
(** ** More about chunking *)

Section ChunkMore.
Import Rag.

Lemma chunk_loop_singletons (m : Z) (ws : list str) :
  (m <= 1)%Z ->
  forall chunks, chunk_loop m ws [] chunks = chunks ++ ws.
Proof.
  intros Hm. induction ws as [|w ws IH]; intros chunks.
  - cbn [chunk_loop]. now rewrite app_nil_r.
  - cbn [chunk_loop app length join].
    destruct (Z.geb_spec (Z.of_nat 1) m) as [_|Hlt]; [|lia].
    rewrite IH, <- app_assoc. reflexivity.
Qed.

(** [_chunk] with any limit of at least one, as groups of words. *)
Lemma chunk_groups_any (text : str) (m : Z) :
  (1 <= m)%Z ->
  exists groups,
    _chunk text m = map (join [SP]) groups /\
    concat groups = split text /\
    Forall (fun g => Forall is_word g /\ g <> [] /\ (Z.of_nat (length g) <= m)%Z)
           groups /\
    (forall pre g post, groups = pre ++ g :: post -> post <> [] ->
                        Z.of_nat (length g) = m).
Proof.
  intros Hm. unfold _chunk.
  destruct (@chunk_loop_shape m (split text) Hm [] [])
    as (groups & E & Hc & Hall & Hfull); [cbn [length]; lia|].
  exists groups. cbn [app] in *. repeat split; auto.
  assert (Hw : Forall (Forall is_word) groups).
  { apply Forall_concat_groups. rewrite Hc. apply split_words. }
  rewrite Forall_forall in *. intros g Hg.
  destruct (Hall g Hg) as [H1 H2]. repeat split; auto.
Qed.

(** X4.  Whatever the limit, at least one: every chunk holds between one
    word and as many words as the limit, every chunk but the last exactly as
    many as the limit, and the chunks hold the words of the text in order.
    With a limit of one or less - zero and negative limits too - every word
    is a chunk of its own. *)
Theorem chunk_any_limit :
  (forall text m c, (1 <= m)%Z -> In c (_chunk text m) ->
     1 <= length (split c) /\ (Z.of_nat (length (split c)) <= m)%Z) /\
  (forall text m pre c post, (1 <= m)%Z ->
     _chunk text m = pre ++ c :: post -> post <> [] ->
     Z.of_nat (length (split c)) = m) /\
  (forall text m, (1 <= m)%Z ->
     concat (map split (_chunk text m)) = split text) /\
  (forall text m, (m <= 1)%Z -> _chunk text m = split text).
Proof.
  split; [|split; [|split]].
  - intros text m c Hm Hc.
    destruct (chunk_groups_any text Hm) as (groups & E & _ & Hall & _).
    rewrite E in Hc. apply in_map_iff in Hc as (g & <- & Hg).
    rewrite Forall_forall in Hall. destruct (Hall g Hg) as (Hw & Hne & Hle).
    rewrite split_join by assumption.
    destruct g; [contradiction Hne; reflexivity|]. cbn [length] in *.
    split; [lia | exact Hle].
  - intros text m pre c post Hm E Hpost.
    destruct (chunk_groups_any text Hm) as (groups & Eg & _ & Hall & Hfull).
    rewrite Eg in E.
    apply map_eq_app in E as (gpre & grest & -> & _ & E).
    apply map_eq_cons in E as (g & gpost & -> & <- & <-).
    rewrite Forall_forall in Hall.
    destruct (Hall g) as (Hw & _); [apply in_or_app; right; now left|].
    rewrite split_join by assumption.
    eapply Hfull; [reflexivity|]. intros ->. now apply Hpost.
  - intros text m Hm.
    destruct (chunk_groups_any text Hm) as (groups & E & Hc & Hall & _).
    rewrite E, map_map, <- Hc.
    f_equal. rewrite <- (map_id groups) at 2.
    apply map_ext_in. intros g Hg. rewrite Forall_forall in Hall.
    apply split_join. now apply Hall.
  - intros text m Hm. unfold _chunk.
    now rewrite chunk_loop_singletons.
Qed.

Lemma chunk_any_limit_witness :
  _chunk (py " one two  three four five ") 2
  = [py "one two"; py "three four"; py "five"] /\
  concat (map split (_chunk (py " one two  three four five ") 2))
  = split (py " one two  three four five ").
Proof.
  split; [reflexivity|].
  apply (proj1 (proj2 (proj2 chunk_any_limit))). lia.
Defined.

(** X5.  A chunk is not cut again: chunking a chunk text with the limit it
    was made with gives that one chunk back.  Chunk texts that are ingested
    a second time are therefore stored as they are. *)
Theorem chunk_of_chunk (text : str) (m : Z) (c : str) :
  (1 <= m)%Z -> In c (_chunk text m) -> _chunk c m = [c].
Proof.
  intros Hm Hc.
  destruct (chunk_groups_any text Hm) as (groups & E & _ & Hall & _).
  rewrite E in Hc. apply in_map_iff in Hc as (g & <- & Hg).
  rewrite Forall_forall in Hall. destruct (Hall g Hg) as (Hw & Hne & Hle).
  unfold _chunk. rewrite split_join by assumption.
  destruct (Z.eq_dec (Z.of_nat (length g)) m) as [Heq|Hneq].
  - rewrite <- (app_nil_r g) at 1. rewrite chunk_loop_fill; auto.
  - rewrite chunk_loop_short by (cbn [length]; lia).
    cbn [app]. destruct g; [contradiction Hne; reflexivity | reflexivity].
Qed.

Lemma chunk_of_chunk_witness :
  _chunk (py "three four") 2 = [py "three four"].
Proof.
  apply (@chunk_of_chunk (py " one two  three four five ") 2 (py "three four")).
  - lia.
  - right. left. reflexivity.
Defined.

End ChunkMore.

(* ================================================================= *)
(** ** The corpus: invariants of a run *)

Section CorpusFacts.
Context {NP : NumPy}.
Import Rag.

Lemma length_normalize (v : list float) : length (_normalize v) = length v.
Proof. unfold _normalize. apply length_map. Qed.

Lemma length_fallback_vector (env : Env) (t : str) :
  length (fallback_vector env t) = 384.
Proof. unfold fallback_vector. rewrite length_map. apply length_seq. Qed.

Lemma length_embed_each (env : Env) (texts : list str) :
  forall i, length (embed_each env i texts) = length texts.
Proof.
  induction texts as [|t r IH]; intros i; [reflexivity|].
  cbn [embed_each length]. now rewrite IH.
Qed.

Lemma nth_embed_each (env : Env) (texts : list str) :
  forall i j t, nth_error texts j = Some t ->
  nth_error (embed_each env i texts) j = Some (embed_one env (i + j) t).
Proof.
  induction texts as [|t0 r IH]; intros i j t H.
  - destruct j; discriminate H.
  - destruct j as [|j].
    + injection H as ->. cbn. now rewrite Nat.add_0_r.
    + cbn [nth_error embed_each] in *. rewrite (IH (S i) j t H).
      now rewrite Nat.add_succ_r.
Qed.

Lemma embed_one_fallback (env : Env) (i : nat) (t : str) :
  needs_fallback (ollama_embed env i t) = true ->
  embed_one env i t = fallback_vector env t.
Proof.
  unfold embed_one, needs_fallback.
  destruct (ollama_embed env i t) as [[|x v]|]; congruence.
Qed.

(** A successful [normalized_array]: one normalized row per vector, all of
    the length of the first. *)
Lemma normalized_array_ok (vectors : list (list float)) (a : ndarray) :
  normalized_array vectors = Ok a ->
  rows a = map _normalize vectors /\
  Forall (fun v => length v = ncols a) vectors.
Proof.
  unfold normalized_array. destruct vectors as [|v vs]; [discriminate|].
  destruct (forallb (fun u => length u =? length v) vs) eqn:Hall;
    [|discriminate].
  intros E. injection E as <-. cbn [rows ncols]. split; [reflexivity|].
  constructor; [reflexivity|].
  rewrite forallb_forall in Hall. apply Forall_forall. intros u Hu.
  apply Nat.eqb_eq. now apply Hall.
Qed.

Lemma embed_texts_ok (env : Env) (texts : list str) (a : ndarray) :
  _embed_texts env texts = Ok a ->
  nrows a = length texts /\
  rows a = map _normalize (embed_each env 0 texts) /\
  Forall (fun v => length v = ncols a) (embed_each env 0 texts).
Proof.
  intros E. apply normalized_array_ok in E as [Hr Hc].
  split; [|split; assumption].
  unfold nrows. now rewrite Hr, length_map, length_embed_each.
Qed.

(** A single text is always embedded. *)
Lemma embed_texts_single (env : Env) (t : str) :
  _embed_texts env [t]
  = Ok {| ncols := length (embed_one env 0 t);
          rows := [_normalize (embed_one env 0 t)] |}.
Proof. reflexivity. Qed.

Lemma add_documents_cases (io : IO) (env : Env) (self : RagPipeline)
    (fs : Disk) (chunks : list str) :
  add_outcome io env self fs chunks (_add_documents io env self fs chunks).
Proof.
  unfold _add_documents. destruct chunks as [|c cs] eqn:Ec.
  { now apply add_nothing. }
  rewrite <- Ec. assert (Hne : chunks <> []) by (rewrite Ec; discriminate).
  clear Ec. destruct (_embed_texts env chunks) as [new_vecs|e] eqn:Ee.
  2: { now apply add_embed_raises. }
  destruct (embeddings self) as [old|] eqn:Eo.
  - destruct (vstack old new_vecs) as [emb|e] eqn:Ev.
    + unfold vstack in Ev.
      destruct (Nat.eqb_spec (ncols old) (ncols new_vecs)) as [Hc|];
        [|discriminate Ev].
      injection Ev as <-.
      apply (@add_mutated _ io env self fs chunks new_vecs
               {| ncols := ncols old; rows := rows old ++ rows new_vecs |});
        auto.
      rewrite Eo. auto.
    + eapply add_vstack_raises; eauto.
  - apply (@add_mutated _ io env self fs chunks new_vecs new_vecs); auto.
    now rewrite Eo.
Qed.

(** The persist step returns only without a fault, and then the files hold
    the corpus it was given. *)
Lemma persist_returned (io : IO) (self : RagPipeline) (emb : ndarray)
    (fs fs1 : Disk) :
  persist io self emb fs = (fs1, Ok tt) ->
  io = io_ok /\
  fs1 = {| makedirs_fails := makedirs_fails fs;
           store_txt := Some (Utf8 (write_lines (docs self)));
           emb_npy := Some (Npy emb) |}.
Proof.
  unfold persist, set_files. destruct io as [[[|n torn]|] [[|started|]|]];
    cbn [store_fault_of emb_fault_of]; intros E; try discriminate E.
  injection E as <-. split; reflexivity.
Qed.

(** Memory after a batch that got as far as the persist step. *)
Lemma mutated_counts (env : Env) (self : RagPipeline) (chunks : list str)
    (new_vecs emb : ndarray) :
  _embed_texts env chunks = Ok new_vecs ->
  match embeddings self with
  | None => emb = new_vecs
  | Some old => ncols old = ncols new_vecs /\
                emb = {| ncols := ncols old; rows := rows old ++ rows new_vecs |}
  end ->
  nrows emb = row_count self + length chunks.
Proof.
  intros Ee Hemb. apply embed_texts_ok in Ee as (Hn & _ & _).
  unfold row_count. destruct (embeddings self) as [old|].
  - destruct Hemb as [_ ->]. unfold nrows in *. cbn [rows].
    rewrite length_app. lia.
  - subst emb. lia.
Qed.

End CorpusFacts.

(* ================================================================= *)
(** ** Facts about the NumPy to compute with *)

Section SmallIntFacts.

Lemma f32_le_total (a b : f32) : f32_le a b = true \/ f32_le b a = true.
Proof.
  destruct a as [x|], b as [y|]; cbn; auto.
  destruct (Z.leb_spec x y), (Z.leb_spec y x); auto; lia.
Qed.

Lemma indexed_leb_trans :
  Transitive (fun a b => is_true (IndexedOrder.leb a b)).
Proof.
  intros [[k1|] i1] [[k2|] i2] [[k3|] i3]; unfold is_true, IndexedOrder.leb;
    cbn [fst snd f32_le];
    repeat match goal with
           | |- context [Z.leb ?a ?b] => destruct (Z.leb_spec a b)
           | |- context [Nat.leb ?a ?b] => destruct (Nat.leb_spec a b)
           end; cbn; intros; try discriminate; try reflexivity; lia.
Qed.

Lemma StronglySorted_map_in {A B : Type} (R : A -> A -> Prop)
    (R' : B -> B -> Prop) (f : A -> B) (l : list A) :
  StronglySorted R l ->
  (forall x y, In x l -> In y l -> R x y -> R' (f x) (f y)) ->
  StronglySorted R' (map f l).
Proof.
  induction 1 as [|x l Hl IH Hx]; intros H; [constructor|].
  cbn [map]. constructor.
  - apply IH. intros a b Ha Hb. apply H; now right.
  - apply Forall_forall. intros y Hy.
    apply in_map_iff in Hy as (a & <- & Ha).
    rewrite Forall_forall in Hx. apply H; [now left | now right | auto].
Qed.


Lemma in_combine_seq {A : Type} (keys : list A) :
  forall s k i, In (k, i) (combine keys (seq s (length keys))) ->
                s <= i /\ nth_error keys (i - s) = Some k.
Proof.
  induction keys as [|a keys IH]; intros s k i H; [destruct H|].
  cbn [length seq combine] in H. destruct H as [H|H].
  - injection H as <- <-. rewrite Nat.sub_diag. split; [lia | reflexivity].
  - apply IH in H as [Hle Hn]. split; [lia|].
    replace (i - s) with (S (i - S s)) by lia. exact Hn.
Qed.

Lemma map_snd_combine_seq {A : Type} (keys : list A) :
  forall s, map snd (combine keys (seq s (length keys))) = seq s (length keys).
Proof.
  induction keys as [|a keys IH]; intros s; [reflexivity|].
  cbn [length seq combine map snd]. now rewrite IH.
Qed.

(** The sorted pairs: each is a key with its index. *)
Lemma sorted_pair_key (keys : list f32) (k : f32) (i : nat) :
  In (k, i) (IndexedSort.sort (combine keys (seq 0 (length keys)))) ->
  @nth_error (@float small_int_numpy) keys i = Some k.
Proof.
  intros H.
  apply (Permutation_in _ (Permutation_sym (IndexedSort.Permuted_sort _))) in H.
  apply in_combine_seq in H as [_ H]. now rewrite Nat.sub_0_r in H.
Qed.

Lemma small_int_argsort_perm (keys : list f32) :
  Permutation (argsort_by_index keys) (seq 0 (length keys)).
Proof.
  unfold argsort_by_index. set (l := combine keys (seq 0 (length keys))).
  rewrite <- (map_snd_combine_seq keys 0). fold l.
  apply Permutation_map, Permutation_sym, IndexedSort.Permuted_sort.
Qed.

Lemma small_int_argsort_sorts : @argsort_sorts small_int_numpy.
Proof.
  intros keys. cbn [argsort small_int_numpy].
  split; [apply small_int_argsort_perm|].
  unfold argsort_by_index.
  apply StronglySorted_map_in
    with (R := fun a b => is_true (IndexedOrder.leb a b)).
  - apply IndexedSort.StronglySorted_sort. exact indexed_leb_trans.
  - intros [k1 i1] [k2 i2] H1 H2 Hle.
    apply sorted_pair_key in H1, H2.
    unfold key_le. cbn [snd]. rewrite H1, H2. cbn [fle small_int_numpy].
    unfold is_true, IndexedOrder.leb in Hle. cbn [fst snd] in Hle.
    destruct (f32_le_total k1 k2) as [H|H]; [exact H|].
    rewrite H in Hle. cbn [negb orb] in Hle.
    now apply andb_true_iff in Hle as [Hle _].
Qed.


End SmallIntFacts.

(* ================================================================= *)
(** ** The corpus: ingestion and persistence *)

Section CorpusInvariant.
Context {NP : NumPy}.
Import Rag.

Lemma consistent_empty :
  consistent ({| docs := []; embeddings := None |}, no_files).
Proof.
  repeat split; cbn; auto.
Qed.

(** Loading the files of a consistent state gives the corpus in memory. *)
Lemma init_of_persisted (self : RagPipeline) (fs : Disk) :
  consistent (self, fs) -> __init__ fs = Ok self.
Proof.
  intros (_ & Hsafe & Hp). cbn [fst snd] in *. unfold persisted in Hp.
  destruct self as [ds [a|]]; cbn [embeddings docs] in *.
  - subst fs. unfold __init__, _load. cbn [makedirs_fails store_txt emb_npy].
    now rewrite load_written_lines.
  - destruct Hp as [-> ->]. reflexivity.
Qed.

Lemma persisted_makedirs (self : RagPipeline) (fs : Disk) :
  persisted self fs -> makedirs_fails fs = false.
Proof.
  unfold persisted. destruct (embeddings self).
  - now intros ->.
  - now intros [_ ->].
Qed.

Lemma add_documents_consistent (env : Env) (self : RagPipeline) (fs : Disk)
    (chunks : list str) :
  consistent (self, fs) ->
  Forall line_safe chunks ->
  consistent (fst (_add_documents io_ok env self fs chunks)).
Proof.
  intros Hc Hsafe.
  destruct (add_documents_cases io_ok env self fs chunks)
    as [E|e Hne Ee|new_vecs old e Hne Ee Eo Ev|new_vecs emb Hne Ee Hemb];
    try exact Hc.
  pose proof (@mutated_counts _ env self chunks new_vecs emb Ee Hemb) as Hn.
  destruct Hc as (Hal & Hds & Hp). cbn [fst snd] in *.
  pose proof (persisted_makedirs self fs Hp) as Hmk.
  cbv zeta. unfold persist, set_files.
  cbn [io_ok store_fault_of emb_fault_of fst snd].
  repeat split; cbn [fst snd docs embeddings].
  - unfold aligned, row_count in *. cbn [docs embeddings].
    rewrite length_app. unfold row_count in Hn. lia.
  - apply Forall_app. now split.
  - unfold persisted. cbn [embeddings docs]. now rewrite Hmk.
Qed.

Lemma step_consistent (s : RagPipeline * Disk) (e : event) :
  consistent s -> exists s1, step s e = Some s1 /\ consistent s1.
Proof.
  intros Hc. destruct s as [self fs]. destruct e as [[file env]|].
  - cbn [step call_file call_env fst snd]. eexists. split; [reflexivity|].
    unfold save_and_ingest.
    destruct file as [[pages|]|text]; cbn [fst]; try exact Hc;
      apply add_documents_consistent; auto; apply chunk_line_safe.
  - cbn [step fst snd]. unfold start. rewrite (init_of_persisted Hc).
    now exists (self, fs).
Qed.

Lemma run_from_consistent (events : list event) :
  forall s, consistent s ->
            exists s1, run_from s events = Some s1 /\ consistent s1.
Proof.
  induction events as [|e events IH]; intros s Hc; [now exists s|].
  cbn [run_from]. destruct (step_consistent e Hc) as (s1 & E & Hc1).
  rewrite E. now apply IH.
Qed.

Lemma run_consistent (events : list event) :
  exists s, run events = Some s /\ consistent s.
Proof.
  unfold run. cbn [start __init__ makedirs_fails no_files _load store_txt
                   emb_npy docs embeddings].
  apply run_from_consistent, consistent_empty.
Qed.

Lemma disk_counts (self : RagPipeline) (emb : ndarray) (fs : Disk) :
  Forall line_safe (docs self) ->
  store_txt fs = Some (Utf8 (write_lines (docs self))) ->
  emb_npy fs = Some (Npy emb) ->
  disk_lines fs = Some (length (docs self)) /\ disk_rows fs = Some (nrows emb).
Proof.
  intros Hsafe Hs He. unfold disk_lines, disk_rows. rewrite Hs, He.
  rewrite readlines_write_lines by assumption. now rewrite length_map.
Qed.

Lemma consistent_disk_counts (self : RagPipeline) (fs : Disk) :
  consistent (self, fs) ->
  disk_lines fs = Some (length (docs self)) /\
  disk_rows fs = Some (length (docs self)).
Proof.
  intros (Hal & Hsafe & Hp). cbn [fst snd] in *.
  unfold aligned, row_count, persisted in *.
  destruct (embeddings self) as [a|].
  - subst fs. unfold disk_lines, disk_rows. cbn [store_txt emb_npy].
    rewrite readlines_write_lines by assumption. rewrite length_map.
    split; [reflexivity | now rewrite Hal].
  - destruct Hp as [-> ->]. split; reflexivity.
Qed.

(** A call that returned did what the call without write failures does. *)
Lemma add_documents_returned (io : IO) (env : Env) (self : RagPipeline)
    (fs : Disk) (chunks : list str) (self' : RagPipeline) (fs' : Disk) :
  _add_documents io env self fs chunks = (self', fs', Ok tt) ->
  _add_documents io_ok env self fs chunks = (self', fs', Ok tt).
Proof.
  unfold _add_documents. destruct chunks as [|c cs]; [auto|].
  destruct (_embed_texts env (c :: cs)) as [new_vecs|e]; [|auto].
  destruct (match embeddings self with
            | Some old => vstack old new_vecs
            | None => Ok new_vecs
            end) as [emb|e]; [|auto].
  cbv zeta. intros E.
  destruct (persist io _ emb fs) as [fs1 r] eqn:Ep. cbn [fst snd] in E.
  injection E as <- <- ->.
  apply persist_returned in Ep as [-> ->]. reflexivity.
Qed.

(** What a call that returned has done: nothing, for no chunk; else the
    chunk texts and as many rows are in memory and the files hold the
    corpus in memory. *)
Lemma add_documents_returned_cases (io : IO) (env : Env) (self : RagPipeline)
    (fs : Disk) (chunks : list str) (self' : RagPipeline) (fs' : Disk) :
  _add_documents io env self fs chunks = (self', fs', Ok tt) ->
  (chunks = [] /\ self' = self /\ fs' = fs) \/
  (chunks <> [] /\
   exists new_vecs emb,
     _embed_texts env chunks = Ok new_vecs /\
     match embeddings self with
     | None => emb = new_vecs
     | Some old => ncols old = ncols new_vecs /\
                   emb = {| ncols := ncols old;
                            rows := rows old ++ rows new_vecs |}
     end /\
     self' = {| docs := docs self ++ chunks; embeddings := Some emb |} /\
     fs' = {| makedirs_fails := makedirs_fails fs;
              store_txt := Some (Utf8 (write_lines (docs self ++ chunks)));
              emb_npy := Some (Npy emb) |}).
Proof.
  intros E.
  destruct (add_documents_cases io env self fs chunks)
    as [Ec|e Hne Ee|new_vecs old e Hne Ee Eo Ev|new_vecs emb Hne Ee Hemb];
    try discriminate E.
  - injection E as <- <-. now left.
  - right. split; [exact Hne|]. exists new_vecs, emb.
    cbv zeta in E.
    destruct (persist io _ emb fs) as [fs1 r] eqn:Ep. cbn [fst snd] in E.
    injection E as <- <- ->.
    apply persist_returned in Ep as [_ ->]. auto.
Qed.

(** The row stored for an added chunk whose embedding fell back. *)
Lemma add_documents_fallback_row (env : Env) (self : RagPipeline) (fs : Disk)
    (chunks : list str) (self' : RagPipeline) (fs' : Disk) :
  aligned self ->
  _add_documents io_ok env self fs chunks = (self', fs', Ok tt) ->
  forall j c, nth_error chunks j = Some c ->
    needs_fallback (ollama_embed env j c) = true ->
    exists emb r, embeddings self' = Some emb /\
      nth_error (docs self') (length (docs self) + j) = Some c /\
      nth_error (rows emb) (length (docs self) + j) = Some r /\
      length r = 384.
Proof.
  intros Hal E j c Hj Hfb.
  destruct (add_documents_returned_cases _ _ _ _ _ E)
    as [(Ec & _)|(Hne & new_vecs & emb & Ee & Hemb & -> & _)].
  { subst chunks. destruct j; discriminate Hj. }
  cbn [docs embeddings].
  apply embed_texts_ok in Ee as (Hn & Hr & _).
  assert (Hrow : nth_error (rows new_vecs) j
                 = Some (_normalize (fallback_vector env c))).
  { rewrite Hr. rewrite nth_error_map.
    rewrite (nth_embed_each env chunks 0 j Hj). cbn [option_map Nat.add].
    now rewrite embed_one_fallback. }
  exists emb, (_normalize (fallback_vector env c)).
  split; [reflexivity|]. split; [|split].
  - rewrite nth_error_app2 by lia. now rewrite Nat.add_comm, Nat.add_sub.
  - unfold aligned, row_count in Hal. destruct (embeddings self) as [old|].
    + destruct Hemb as [_ ->]. cbn [rows]. unfold nrows in Hal.
      rewrite nth_error_app2 by lia.
      rewrite Hal, Nat.add_comm, Nat.add_sub. exact Hrow.
    + subst emb. rewrite Hal. exact Hrow.
  - now rewrite length_normalize, length_fallback_vector.
Qed.

End CorpusInvariant.

Section CorpusTheorems.
Context {NP : NumPy}.
Import Rag.

Lemma add_documents_docs (env : Env) (self : RagPipeline) (fs : Disk)
    (chunks : list str) (self' : RagPipeline) (fs' : Disk) :
  _add_documents io_ok env self fs chunks = (self', fs', Ok tt) ->
  docs self' = docs self ++ chunks.
Proof.
  intros E.
  destruct (add_documents_returned_cases _ _ _ _ _ E)
    as [(-> & -> & _)|(_ & new_vecs & emb & _ & _ & -> & _)].
  - now rewrite app_nil_r.
  - reflexivity.
Qed.

Lemma embed_texts_raises (env : Env) (texts : list str) (e : exn) :
  _embed_texts env texts = Raise e -> e = ValueError \/ e = AxisError.
Proof.
  unfold _embed_texts, normalized_array.
  destruct (embed_each env 0 texts) as [|v vs]; [intros [= <-]; now right|].
  destruct (forallb _ vs); [discriminate | intros [= <-]; now left].
Qed.

Lemma vstack_raises (a b : ndarray) (e : exn) :
  vstack a b = Raise e -> e = ValueError.
Proof.
  unfold vstack. destruct (ncols a =? ncols b); [discriminate|].
  now intros [= <-].
Qed.

(** [save_and_ingest] is [_add_documents] on the chunks of the upload. *)
Lemma save_and_ingest_chunks (io : IO) (env : Env) (self : RagPipeline)
    (fs : Disk) (file : upload) (text : str) :
  upload_text file = Some text ->
  save_and_ingest io env self fs file
  = _add_documents io env self fs (_chunk text default_max_tokens).
Proof.
  destruct file as [[pages|]|t]; cbn [upload_text]; intros [= <-]; reflexivity.
Qed.

(** The chunks a call of [save_and_ingest] hands to [_add_documents]. *)
Lemma save_and_ingest_returned (io : IO) (env : Env) (self : RagPipeline)
    (fs : Disk) (file : upload) (self' : RagPipeline) (fs' : Disk) :
  save_and_ingest io env self fs file = (self', fs', Ok tt) ->
  exists text,
    upload_text file = Some text /\
    _add_documents io_ok env self fs (_chunk text default_max_tokens)
    = (self', fs', Ok tt).
Proof.
  unfold save_and_ingest. destruct file as [[pages|]|text]; intros E.
  - exists (_pdf_to_text pages). split; [reflexivity|].
    eapply add_documents_returned; eauto.
  - discriminate E.
  - exists text. split; [reflexivity|]. eapply add_documents_returned; eauto.
Qed.

(** C1, as the code has it.  An ingest adds chunk texts and rows together
    and repairs nothing: after a call of [save_and_ingest] that returns,
    the chunk texts in memory are those of before followed by the chunks of
    the uploaded text, and the corpus has as many chunk texts more than
    rows as it had before, so it has as many chunk texts as rows if it had
    so before.
    Either the call added nothing and the files are untouched, or the two
    files hold the corpus in memory - then, if the corpus was aligned and
    held no line terminator, [store.txt] has one line and [emb.npy] one row
    per chunk text.  Every added chunk whose embedding call raised or
    returned an empty list has, at its own index, a row of exactly 384
    entries.  A service started on an empty data directory is, after any
    ingests whose writes succeed and any restarts, in a state whose corpus
    is aligned and held by the two files. *)
Theorem ingest_preserves_alignment :
  (forall events : list event,
      exists self fs, run events = Some (self, fs) /\ consistent (self, fs)) /\
  (forall (io : IO) (env : Env) (self : RagPipeline) (fs : Disk)
          (file : upload) (self' : RagPipeline) (fs' : Disk),
      save_and_ingest io env self fs file = (self', fs', Ok tt) ->
      (exists text,
         upload_text file = Some text /\
         docs self' = docs self ++ _chunk text default_max_tokens) /\
      length (docs self') + row_count self
      = length (docs self) + row_count self' /\
      (aligned self -> aligned self') /\
      ((self' = self /\ fs' = fs) \/
       (exists emb,
          embeddings self' = Some emb /\
          store_txt fs' = Some (Utf8 (write_lines (docs self'))) /\
          emb_npy fs' = Some (Npy emb) /\
          (aligned self -> Forall line_safe (docs self) ->
           disk_lines fs' = Some (length (docs self')) /\
           disk_rows fs' = Some (length (docs self'))))) /\
      (aligned self ->
       forall i c,
         length (docs self) <= i ->
         nth_error (docs self') i = Some c ->
         needs_fallback (ollama_embed env (i - length (docs self)) c) = true ->
         exists emb r,
           embeddings self' = Some emb /\
           nth_error (rows emb) i = Some r /\ length r = 384)).
Proof.
  split.
  { intros events. destruct (run_consistent events) as ([self fs] & E & Hc).
    now exists self, fs. }
  intros io env self fs file self' fs' E.
  apply save_and_ingest_returned in E as (text & Htext & E).
  split.
  { exists text. split; [exact Htext|]. exact (add_documents_docs _ _ _ _ E). }
  set (chunks := _chunk text default_max_tokens) in *.
  assert (Hdiff : length (docs self') + row_count self
                  = length (docs self) + row_count self').
  { destruct (add_documents_returned_cases _ _ _ _ _ E)
      as [(_ & -> & _)|(_ & new_vecs & emb & Ee & Hemb & -> & _)];
      [lia|].
    pose proof (@mutated_counts _ env self chunks new_vecs emb Ee Hemb) as Hn.
    unfold row_count at 2. cbn [docs embeddings]. rewrite length_app. lia. }
  assert (Hal : aligned self -> aligned self').
  { unfold aligned. lia. }
  split; [exact Hdiff|]. split; [exact Hal|]. split.
  - destruct (add_documents_returned_cases _ _ _ _ _ E)
      as [(_ & -> & ->)|(_ & new_vecs & emb & Ee & Hemb & Es & ->)];
      [now left|].
    right. exists emb. rewrite Es. cbn [docs embeddings store_txt emb_npy].
    split; [reflexivity|]. split; [reflexivity|]. split; [reflexivity|].
    intros Ha Hsafe.
    assert (Hsafe' : Forall line_safe (docs self ++ chunks)).
    { apply Forall_app. split; [exact Hsafe | apply chunk_line_safe]. }
    specialize (Hal Ha). rewrite Es in Hal.
    unfold aligned, row_count in Hal. cbn [docs embeddings] in Hal.
    rewrite Hal. unfold disk_lines, disk_rows. cbn [store_txt emb_npy].
    rewrite readlines_write_lines by assumption.
    rewrite length_map. split; [f_equal; exact Hal | reflexivity].
  - intros Ha i c Hi Hdoc Hfb.
    pose proof (add_documents_docs _ _ _ _ E) as Hdocs.
    rewrite Hdocs, nth_error_app2 in Hdoc by assumption.
    destruct (add_documents_fallback_row _ _ _ Ha E _ Hdoc Hfb)
      as (emb & r & He & _ & Hrow & Hlen).
    exists emb, r. split; [exact He|]. split; [|exact Hlen].
    replace i with (length (docs self) + (i - length (docs self))) at 1 by lia.
    exact Hrow.
Qed.

(** The file after a failed write: some first characters of the text, or
    a file that cannot be decoded. *)
Lemma partial_file_cases (text : str) (written : nat) (torn : bool) :
  partial_file text written torn = Utf8 (firstn written text) \/
  partial_file text written torn = Unreadable UnicodeDecodeError.
Proof.
  unfold partial_file. destruct (nth_error text written) as [c|] eqn:E.
  - destruct (torn && negb (one_byte c)); auto.
  - left. apply nth_error_None in E. now rewrite firstn_all2.
Qed.

(** C2, as the code has it.  A call of [save_and_ingest] that raises before
    the persist step (text extraction, embedding, stacking) leaves the
    corpus in memory and both files as they were.  A call that raises in the
    persist step has extended the corpus in memory, and nothing is rolled
    back: if [store.txt] cannot be opened, both files are as they were; if
    writing it fails, [store.txt] holds some first characters of the new
    text, or cannot be decoded, and [emb.npy] is as it was; if [np.save]
    fails, [store.txt] holds the extended corpus and [emb.npy] is as it
    was, or cannot be loaded, or holds the new matrix. *)
Theorem failed_ingest_effect_on_disk
    (io : IO) (env : Env) (self : RagPipeline) (fs : Disk) (file : upload)
    (self' : RagPipeline) (fs' : Disk) (e : exn) :
  save_and_ingest io env self fs file = (self', fs', Raise e) ->
  (e <> OSError -> self' = self /\ fs' = fs) /\
  (e = OSError ->
     (exists chunks, chunks <> [] /\ docs self' = docs self ++ chunks) /\
     match store_fault_of io with
     | Some StoreOpenFails => fs' = fs
     | Some (StoreWriteFails written torn) =>
         store_txt fs'
         = Some (partial_file (write_lines (docs self')) written torn) /\
         (store_txt fs'
          = Some (Utf8 (firstn written (write_lines (docs self')))) \/
          store_txt fs' = Some (Unreadable UnicodeDecodeError)) /\
         emb_npy fs' = emb_npy fs
     | None =>
         store_txt fs' = Some (Utf8 (write_lines (docs self'))) /\
         match emb_fault_of io with
         | Some SaveOpenFails => emb_npy fs' = emb_npy fs
         | Some (SaveWriteFails started) =>
             exists e1, emb_npy fs' = Some (Unloadable e1)
         | Some SaveCloseFails =>
             emb_npy fs' = option_map Npy (embeddings self')
         | None => False
         end
     end).
Proof.
  assert (Hadd : forall chunks,
    _add_documents io env self fs chunks = (self', fs', Raise e) ->
    (e <> OSError -> self' = self /\ fs' = fs) /\
    (e = OSError ->
       (exists chunks, chunks <> [] /\ docs self' = docs self ++ chunks) /\
       match store_fault_of io with
       | Some StoreOpenFails => fs' = fs
       | Some (StoreWriteFails written torn) =>
           store_txt fs'
           = Some (partial_file (write_lines (docs self')) written torn) /\
           (store_txt fs'
            = Some (Utf8 (firstn written (write_lines (docs self')))) \/
            store_txt fs' = Some (Unreadable UnicodeDecodeError)) /\
           emb_npy fs' = emb_npy fs
       | None =>
           store_txt fs' = Some (Utf8 (write_lines (docs self'))) /\
           match emb_fault_of io with
           | Some SaveOpenFails => emb_npy fs' = emb_npy fs
           | Some (SaveWriteFails started) =>
               exists e1, emb_npy fs' = Some (Unloadable e1)
           | Some SaveCloseFails =>
               emb_npy fs' = option_map Npy (embeddings self')
           | None => False
           end
       end)).
  { intros chunks E.
    destruct (add_documents_cases io env self fs chunks)
      as [Ec|e0 Hne Ee|new_vecs old e0 Hne Ee Eo Ev|new_vecs emb Hne Ee Hemb].
    - discriminate E.
    - injection E as <- <- <-. split; [auto|].
      intros ->. apply embed_texts_raises in Ee as [Ee|Ee]; discriminate Ee.
    - injection E as <- <- <-. split; [auto|].
      intros ->. apply vstack_raises in Ev. discriminate Ev.
    - cbv zeta in E. unfold persist, set_files in E.
      destruct (store_fault_of io) as [[|written torn]|];
        [| |destruct (emb_fault_of io) as [[|started|]|]];
        cbn [fst snd] in E; try discriminate E;
        injection E as <- <- <-; (split; [congruence|]); intros _;
        (split; [now exists chunks|]);
        cbn [docs embeddings store_txt emb_npy option_map]; auto.
      + split; [reflexivity|]. split; [|reflexivity].
        destruct (partial_file_cases (write_lines (docs self ++ chunks))
                    written torn) as [->| ->]; auto.
      + split; [reflexivity|]. eexists. reflexivity. }
  unfold save_and_ingest. destruct file as [[pages|]|text]; intros E.
  - eapply Hadd; exact E.
  - injection E as <- <- <-. split; [auto | discriminate].
  - eapply Hadd; exact E.
Qed.

(** C7.  After any run of ingests and restarts, loading the two files anew
    gives the chunk list and the embedding matrix that are in memory - the
    ones the last persist step wrote; no chunk text holds a line
    terminator. *)
Theorem persist_then_load_roundtrip (events : list event) :
  exists self fs,
    run events = Some (self, fs) /\
    __init__ fs = Ok self /\
    Forall line_safe (docs self) /\
    persisted self fs.
Proof.
  destruct (run_consistent events) as ([self fs] & E & Hc).
  exists self, fs. split; [exact E|].
  split; [exact (init_of_persisted Hc)|]. split; apply Hc.
Qed.

(** C10.  On a corpus without chunk texts or without a matrix, [retrieve]
    returns the empty list, whatever the query, [top_k], the backend and
    the state of the event loop; it does not raise. *)
Theorem retrieve_empty_corpus
    (loop : event_loop) (env : Env) (self : RagPipeline)
    (query : str) (top_k : Z) :
  docs self = [] \/ embeddings self = None ->
  retrieve loop env self query top_k = Ok [].
Proof.
  unfold retrieve. intros [H|H]; rewrite H.
  - destruct (embeddings self); reflexivity.
  - reflexivity.
Qed.

End CorpusTheorems.

(* ================================================================= *)
(** ** Retrieval *)

Section RetrieveFacts.
Context {NP : NumPy}.
Import Rag.

Lemma getitems_ok (l : list str) (idxs : list nat) :
  Forall (fun i => i < length l) idxs ->
  getitems l idxs = Ok (map (fun i => nth i l []) idxs).
Proof.
  induction 1 as [|i idxs Hi _ IH]; [reflexivity|].
  cbn [getitems map]. rewrite (nth_error_nth' l [] Hi), IH. reflexivity.
Qed.

Lemma In_firstn {A : Type} (n : nat) (l : list A) (x : A) :
  In x (firstn n l) -> In x l.
Proof.
  revert l. induction n as [|n IH]; intros [|a l] H; try destruct H.
  - now left.
  - right. now apply IH.
Qed.

Lemma In_slice_to {A : Type} (l : list A) (k : Z) (x : A) :
  In x (slice_to l k) -> In x l.
Proof.
  unfold slice_to. destruct (k <? 0)%Z; apply In_firstn.
Qed.


End RetrieveFacts.

Section RetrieveTheorems.
Context {NP : NumPy}.
Import Rag.

Lemma map_nth_seq {A : Type} (d : A) (l : list A) :
  forall n, n <= length l ->
  map (fun i => nth i l d) (seq 0 n) = firstn n l.
Proof.
  induction l as [|a l IH]; intros n Hn.
  - cbn [length] in Hn. replace n with 0 by lia. reflexivity.
  - destruct n as [|n]; [reflexivity|].
    cbn [seq map nth firstn]. f_equal.
    rewrite <- seq_shift, map_map. cbn [nth].
    apply IH. cbn [length] in Hn. lia.
Qed.

Lemma length_slice_to {A : Type} (l : list A) (k : Z) :
  length (slice_to l k)
  = if (k <? 0)%Z then Z.to_nat (Z.of_nat (length l) + k)
    else Nat.min (Z.to_nat k) (length l).
Proof.
  unfold slice_to. destruct (Z.ltb_spec k 0); rewrite length_firstn; lia.
Qed.


(** What [retrieve] returns on a corpus with at least as many chunk texts
    as rows: the chunk texts at the first [top_k] of the sorted indices. *)
Lemma retrieve_result
    (Hsort : argsort_sorts) (env : Env) (self : RagPipeline) (emb : ndarray)
    (query : str) (top_k : Z) :
  embeddings self = Some emb ->
  docs self <> [] ->
  nrows emb <= length (docs self) ->
  ncols emb = length (embed_one env 0 query) ->
  Permutation
    (argsort (map fneg (map (fun r => fdot r (query_vector env query))
                            (rows emb))))
    (seq 0 (nrows emb)) /\
  retrieve LoopIdle env self query top_k
  = Ok (map (fun i => nth i (docs self) [])
            (slice_to
               (argsort (map fneg (map (fun r => fdot r (query_vector env query))
                                       (rows emb))))
               top_k)).
Proof.
  intros Hemb Hne Hlen Hcols.
  set (qv := query_vector env query).
  set (sims := map (fun r => fdot r qv) (rows emb)).
  destruct (Hsort (map fneg sims)) as [Hperm _].
  assert (Hn : length (map fneg sims) = nrows emb).
  { unfold sims, nrows. now rewrite !length_map. }
  rewrite Hn in Hperm. split; [exact Hperm|].
  unfold retrieve. rewrite Hemb.
  destruct (docs self) as [|d ds] eqn:Ed; [contradiction Hne; reflexivity|].
  rewrite <- Ed in *. rewrite embed_texts_single. cbn [rows ncols].
  unfold matvec. rewrite Hcols, Nat.eqb_refl.
  fold (query_vector env query). fold qv. fold sims.
  apply getitems_ok. apply Forall_forall. intros i Hi.
  apply In_slice_to in Hi. apply (Permutation_in _ Hperm) in Hi.
  apply in_seq in Hi. lia.
Qed.


(** Within one interpreter process the fallback row depends on the text
    alone: wherever the text stands in a batch and whatever the batch, the
    row is the normalized vector drawn from the seed
    [abs(hash(t)) % 10**8]. *)
Lemma fallback_row_by_hash (env : Env) (texts : list str) (a : ndarray)
    (i : nat) (t : str) :
  _embed_texts env texts = Ok a ->
  nth_error texts i = Some t ->
  needs_fallback (ollama_embed env i t) = true ->
  nth_error (rows a) i
  = Some (_normalize
            (map (normal_sample (Z.abs (str_hash env t) mod 10 ^ 8))
                 (seq 0 384))).
Proof.
  intros E Ht Hfb. apply embed_texts_ok in E as (_ & Hr & _).
  rewrite Hr, nth_error_map, (nth_embed_each env texts 0 i Ht).
  cbn [option_map Nat.add]. now rewrite embed_one_fallback.
Qed.

(** X9.  On a corpus with a matrix and a chunk text, [retrieve] raises
    [RuntimeError] unless the event loop of the calling thread is idle.  On
    an idle loop, a query whose vector does not have as many entries as the
    stored matrix has columns makes it raise [ValueError]: so it is when the
    backend is down for the query - its vector is then the fallback of 384
    entries - and the stored matrix has another number of columns. *)
Theorem retrieve_dimension_mismatch
    (env : Env) (self : RagPipeline) (emb : ndarray) (query : str) (top_k : Z) :
  embeddings self = Some emb ->
  docs self <> [] ->
  (forall loop, loop <> LoopIdle ->
     retrieve loop env self query top_k = Raise RuntimeError) /\
  (ncols emb <> length (embed_one env 0 query) ->
   retrieve LoopIdle env self query top_k = Raise ValueError) /\
  (needs_fallback (ollama_embed env 0 query) = true -> ncols emb <> 384 ->
   retrieve LoopIdle env self query top_k = Raise ValueError).
Proof.
  intros Hemb Hne.
  assert (H : ncols emb <> length (embed_one env 0 query) ->
              retrieve LoopIdle env self query top_k = Raise ValueError).
  { intros Hd. unfold retrieve. rewrite Hemb.
    destruct (docs self) as [|d ds]; [contradiction Hne; reflexivity|].
    rewrite embed_texts_single. cbn [rows ncols]. unfold matvec.
    destruct (Nat.eqb_spec (ncols emb) (length (embed_one env 0 query)));
      [contradiction | reflexivity]. }
  split; [|split; [exact H|]].
  - intros loop Hloop. unfold retrieve. rewrite Hemb.
    destruct (docs self); [contradiction Hne; reflexivity|].
    destruct loop; try reflexivity. contradiction Hloop; reflexivity.
  - intros Hfb Hd. apply H.
    rewrite embed_one_fallback by assumption.
    now rewrite length_fallback_vector.
Qed.

(** X10.  Let [argsort] return the indices that sort its argument, and let
    the corpus have at least one chunk text, at least as many chunk texts
    as rows, and rows as long as the query vector.  Then [retrieve], called
    on a thread whose event loop is idle, returns, and every text it returns
    is one of the first [n] chunk texts, [n] being the number of rows: a
    chunk text beyond the rows is never returned.  For [top_k >= 0] it
    returns [min(top_k, n)] texts, for [top_k >= n] a rearrangement of the
    first [n] chunk texts, and for a negative [top_k] it returns [n + top_k]
    texts (none if that is negative), leaving out the least similar ones. *)
Theorem retrieve_returns_stored_texts
    (Hsort : argsort_sorts) (env : Env) (self : RagPipeline) (emb : ndarray)
    (query : str) (top_k : Z) :
  embeddings self = Some emb ->
  docs self <> [] ->
  nrows emb <= length (docs self) ->
  ncols emb = length (embed_one env 0 query) ->
  exists res,
    retrieve LoopIdle env self query top_k = Ok res /\
    (forall d, In d res -> In d (firstn (nrows emb) (docs self))) /\
    length res
    = (if (top_k <? 0)%Z then Z.to_nat (Z.of_nat (nrows emb) + top_k)
       else Nat.min (Z.to_nat top_k) (nrows emb)) /\
    ((Z.of_nat (nrows emb) <= top_k)%Z ->
     Permutation res (firstn (nrows emb) (docs self))).
Proof.
  intros Hemb Hne Hlen Hcols.
  destruct (retrieve_result Hsort env self query top_k Hemb Hne Hlen Hcols)
    as (Hperm & Hres).
  set (idxs := argsort _) in *.
  assert (Hidx : forall i, In i idxs -> i < nrows emb).
  { intros i Hi. apply (Permutation_in _ Hperm) in Hi.
    apply in_seq in Hi. lia. }
  exists (map (fun i => nth i (docs self) []) (slice_to idxs top_k)).
  split; [exact Hres|]. split; [|split].
  - intros d Hd. apply in_map_iff in Hd as (i & <- & Hi).
    apply In_slice_to in Hi. apply Hidx in Hi.
    rewrite <- (@map_nth_seq str [] (docs self) _ Hlen).
    apply (in_map (fun i => nth i (docs self) [])). apply in_seq. lia.
  - rewrite length_map, length_slice_to.
    now rewrite (Permutation_length Hperm), length_seq.
  - intros Hk. unfold slice_to.
    destruct (Z.ltb_spec top_k 0) as [Hneg|_]; [lia|].
    rewrite firstn_all2
      by (rewrite (Permutation_length Hperm), length_seq; lia).
    rewrite <- (@map_nth_seq str [] (docs self) _ Hlen).
    now apply Permutation_map.
Qed.

(** X20.  What is ingested can be retrieved.  Let [argsort] return the
    indices that sort its argument, and let the corpus in memory have as
    many chunk texts as rows.  A call of [save_and_ingest] that returns has
    appended the chunks of the uploaded text to the chunk texts.  After it,
    a query whose vector is as long as the stored rows and a [top_k] of at
    least the number of chunk texts make [retrieve] - called on a thread
    whose event loop is idle - return every chunk text of the corpus, the
    old ones and the chunks of the upload, each once. *)
Theorem ingested_chunks_are_retrievable
    (Hsort : argsort_sorts) (io : IO) (env : Env) (self : RagPipeline)
    (fs : Disk) (file : upload) (self' : RagPipeline) (fs' : Disk)
    (env_q : Env) (query : str) (top_k : Z) :
  aligned self ->
  save_and_ingest io env self fs file = (self', fs', Ok tt) ->
  (forall emb, embeddings self' = Some emb ->
               ncols emb = length (embed_one env_q 0 query)) ->
  (Z.of_nat (length (docs self')) <= top_k)%Z ->
  exists text res,
    upload_text file = Some text /\
    docs self' = docs self ++ _chunk text default_max_tokens /\
    retrieve LoopIdle env_q self' query top_k = Ok res /\
    Permutation res (docs self ++ _chunk text default_max_tokens).
Proof.
  intros Hal E Hdim Hk.
  destruct (save_and_ingest_returned _ _ _ _ _ E) as (text & Htext & E1).
  pose proof (add_documents_docs _ _ _ _ E1) as Hdocs.
  assert (Hal' : aligned self').
  { destruct (add_documents_returned_cases _ _ _ _ _ E1)
      as [(_ & -> & _)|(_ & new_vecs & emb & Ee & Hemb & -> & _)];
      [exact Hal|].
    pose proof (@mutated_counts _ env self _ new_vecs emb Ee Hemb) as Hn.
    unfold aligned, row_count in *. cbn [docs embeddings].
    rewrite length_app. lia. }
  exists text. rewrite <- Hdocs.
  unfold aligned, row_count in Hal'.
  destruct (embeddings self') as [emb|] eqn:He.
  2: { exists []. split; [exact Htext|]. split; [reflexivity|].
       destruct (docs self') eqn:Ed; [|discriminate Hal'].
       split; [|constructor].
       unfold retrieve. now rewrite He. }
  destruct (docs self') as [|d ds] eqn:Ed.
  { exists []. split; [exact Htext|]. split; [reflexivity|].
    split; [|constructor]. unfold retrieve. now rewrite He, Ed. }
  rewrite <- Ed in *.
  assert (Hne : docs self' <> []) by (rewrite Ed; discriminate).
  destruct (retrieve_result Hsort env_q self' query top_k He Hne
              ltac:(lia) (Hdim emb eq_refl)) as (Hperm & Hres).
  set (idxs := argsort _) in *.
  assert (Hall : slice_to idxs top_k = idxs).
  { unfold slice_to. destruct (Z.ltb_spec top_k 0) as [Hneg|_]; [lia|].
    apply firstn_all2. rewrite (Permutation_length Hperm), length_seq. lia. }
  rewrite Hall in Hres.
  eexists. split; [exact Htext|]. split; [reflexivity|].
  split; [exact Hres|].
  apply Permutation_trans
    with (map (fun i => nth i (docs self') []) (seq 0 (nrows emb)));
    [now apply Permutation_map|].
  rewrite (@map_nth_seq str [] (docs self') (nrows emb)) by lia.
  rewrite <- Hal', firstn_all. apply Permutation_refl.
Qed.

End RetrieveTheorems.

(* ================================================================= *)
(** ** More about embedding and ingestion *)

Section EmbedMore.
Context {NP : NumPy}.
Import Rag.

Lemma length_embed_one (env : Env) (i : nat) (t : str) :
  length (embed_one env i t)
  = match ollama_embed env i t with
    | Some (x :: v) => S (length v)
    | _ => 384
    end.
Proof.
  unfold embed_one. destruct (ollama_embed env i t) as [[|x v]|];
    try apply length_fallback_vector. reflexivity.
Qed.

Lemma embed_one_nonempty (env : Env) (i : nat) (t : str) :
  1 <= length (embed_one env i t).
Proof.
  rewrite length_embed_one.
  destruct (ollama_embed env i t) as [[|x v]|]; lia.
Qed.

Lemma In_embed_each (env : Env) (texts : list str) :
  forall i v, In v (embed_each env i texts) ->
  exists j t, nth_error texts j = Some t /\ v = embed_one env (i + j) t.
Proof.
  induction texts as [|t0 r IH]; intros i v H; [destruct H|].
  destruct H as [H|H].
  - exists 0, t0. split; [reflexivity|]. now rewrite Nat.add_0_r.
  - apply IH in H as (j & t & Hj & Hv). exists (S j), t.
    split; [exact Hj|]. now rewrite Nat.add_succ_r.
Qed.

Lemma normalized_array_same_length (vectors : list (list float)) (d : nat) :
  vectors <> [] ->
  Forall (fun v => length v = d) vectors ->
  normalized_array vectors
  = Ok {| ncols := d; rows := map _normalize vectors |}.
Proof.
  intros Hne Hall. destruct vectors as [|v vs]; [contradiction Hne; reflexivity|].
  unfold normalized_array. inversion Hall as [|? ? Hv Hvs]; subst.
  replace (forallb (fun u => length u =? length v) vs) with true; [reflexivity|].
  symmetry. apply forallb_forall. intros u Hu. apply Nat.eqb_eq.
  rewrite Forall_forall in Hvs. now apply Hvs.
Qed.

(** X6.  [_embed_texts] returns a rectangular matrix or raises.  When it
    returns, the matrix has one row per text, at least one column, and every
    row has as many entries as the matrix has columns.  When two texts of a
    batch are given vectors of different lengths - the backend's list, or
    the fallback of 384 entries where the backend raised or returned an
    empty list - it raises [ValueError]; without any text it raises too. *)
Theorem embed_texts_rectangular_or_raises (env : Env) :
  (forall texts a, _embed_texts env texts = Ok a ->
     nrows a = length texts /\ 1 <= ncols a /\
     Forall (fun r => length r = ncols a) (rows a)) /\
  (forall texts i j t u,
     nth_error texts i = Some t -> nth_error texts j = Some u ->
     length (embed_one env i t) <> length (embed_one env j u) ->
     _embed_texts env texts = Raise ValueError) /\
  _embed_texts env [] = Raise AxisError.
Proof.
  split; [|split; [|reflexivity]].
  - intros texts a E. destruct (embed_texts_ok _ _ E) as (Hn & Hr & Hc).
    split; [exact Hn|]. split.
    + destruct texts as [|t r]; [discriminate E|].
      cbn [embed_each] in Hc. inversion Hc as [|? ? Hv _]; subst.
      rewrite <- Hv. apply embed_one_nonempty.
    + rewrite Hr. apply Forall_forall. intros r Hin.
      apply in_map_iff in Hin as (v & <- & Hv).
      rewrite length_normalize. rewrite Forall_forall in Hc. now apply Hc.
  - intros texts i j t u Hi Hj Hne. unfold _embed_texts.
    pose proof (nth_embed_each env texts 0 i Hi) as Ei.
    pose proof (nth_embed_each env texts 0 j Hj) as Ej.
    cbn [Nat.add] in Ei, Ej. apply nth_error_In in Ei, Ej.
    unfold normalized_array.
    destruct (embed_each env 0 texts) as [|v vs]; [destruct Ei|].
    destruct (forallb (fun u0 => length u0 =? length v) vs) eqn:Hall;
      [|reflexivity].
    exfalso. apply Hne. rewrite forallb_forall in Hall.
    assert (Hlen : forall w, In w (v :: vs) -> length w = length v).
    { intros w [<-|Hw]; [reflexivity|]. apply Nat.eqb_eq. now apply Hall. }
    rewrite (Hlen _ Ei), (Hlen _ Ej). reflexivity.
Qed.

Lemma embed_each_all_fallback (env : Env) (chunks : list str) :
  forall i0,
    (forall j c, nth_error chunks j = Some c ->
                 needs_fallback (ollama_embed env (i0 + j) c) = true) ->
    Forall (fun v => length v = 384) (embed_each env i0 chunks).
Proof.
  induction chunks as [|c r IH]; intros i0 H; [constructor|].
  cbn [embed_each]. constructor.
  - rewrite embed_one_fallback; [apply length_fallback_vector|].
    specialize (H 0 c eq_refl). now rewrite Nat.add_0_r in H.
  - apply IH. intros j c' Hj. specialize (H (S j) c' Hj).
    now rewrite Nat.add_succ_r in H.
Qed.

(** X7.  With the backend down for every chunk of a batch that is not
    empty: if the stored matrix has a number of columns other than 384,
    [_add_documents] raises [ValueError] and changes neither the corpus in
    memory nor the files, whatever the state of the disk; if there is no
    stored matrix yet, or it has 384 columns, and both writes succeed, the
    call returns and the chunk texts are appended. *)
Theorem ingest_during_outage
    (env : Env) (self : RagPipeline) (fs : Disk) (chunks : list str) :
  chunks <> [] ->
  (forall j c, nth_error chunks j = Some c ->
               needs_fallback (ollama_embed env j c) = true) ->
  (forall old, embeddings self = Some old -> ncols old <> 384 ->
     forall io, _add_documents io env self fs chunks
                = (self, fs, Raise ValueError)) /\
  ((forall old, embeddings self = Some old -> ncols old = 384) ->
     exists self' fs',
       _add_documents io_ok env self fs chunks = (self', fs', Ok tt) /\
       docs self' = docs self ++ chunks /\
       row_count self' = row_count self + length chunks).
Proof.
  intros Hne Hfb.
  assert (He : _embed_texts env chunks
               = Ok {| ncols := 384;
                       rows := map _normalize (embed_each env 0 chunks) |}).
  { unfold _embed_texts. apply normalized_array_same_length.
    - destruct chunks; [contradiction Hne; reflexivity | discriminate].
    - apply embed_each_all_fallback. exact Hfb. }
  split.
  - intros old Ho Hd io. unfold _add_documents.
    destruct chunks as [|c cs]; [contradiction Hne; reflexivity|].
    rewrite He, Ho. unfold vstack. cbn [ncols].
    destruct (Nat.eqb_spec (ncols old) 384); [contradiction|reflexivity].
  - intros Hd. unfold _add_documents.
    destruct chunks as [|c cs] eqn:Ec; [contradiction Hne; reflexivity|].
    rewrite <- Ec in *. rewrite He. unfold row_count.
    destruct (embeddings self) as [old|] eqn:Ho.
    + unfold vstack. cbn [ncols]. rewrite (Hd old eq_refl), Nat.eqb_refl.
      cbv zeta. unfold persist, set_files.
      cbn [io_ok store_fault_of emb_fault_of fst snd].
      eexists _, _. split; [reflexivity|]. cbn [docs embeddings].
      split; [reflexivity|]. unfold nrows. cbn [rows].
      now rewrite length_app, length_map, length_embed_each.
    + cbv zeta. unfold persist, set_files.
      cbn [io_ok store_fault_of emb_fault_of fst snd].
      eexists _, _. split; [reflexivity|]. cbn [docs embeddings].
      split; [reflexivity|]. unfold nrows. cbn [rows].
      now rewrite length_map, length_embed_each.
Qed.

(** X8.  Whatever the state and whatever fails, [_add_documents] either
    leaves the corpus in memory as it was, or appends the chunk texts of the
    batch and adds exactly as many rows as chunk texts: a difference between
    the number of chunk texts and the number of rows, as a corpus loaded
    from files that disagree has, is never made and never repaired. *)
Theorem add_documents_adds_rows_and_texts_together
    (io : IO) (env : Env) (self : RagPipeline) (fs : Disk) (chunks : list str) :
  fst (fst (_add_documents io env self fs chunks)) = self \/
  (docs (fst (fst (_add_documents io env self fs chunks)))
   = docs self ++ chunks /\
   row_count (fst (fst (_add_documents io env self fs chunks)))
   = row_count self + length chunks).
Proof.
  destruct (add_documents_cases io env self fs chunks)
    as [E|e Hne Ee|new_vecs old e Hne Ee Eo Ev|new_vecs emb Hne Ee Hemb];
    try (left; reflexivity).
  right. cbv zeta. cbn [fst]. split; [reflexivity|].
  unfold row_count at 1. cbn [embeddings].
  exact (@mutated_counts _ env self chunks new_vecs emb Ee Hemb).
Qed.

End EmbedMore.
(* ================================================================= *)
(** ** Loading *)

Section LoadTheorems.
Context {NP : NumPy}.
Import Rag.

Lemma rstrip_lf_line_safe (d : str) : ~ In LF d -> rstrip_lf d = d.
Proof.
  intros H. unfold rstrip_lf. rewrite lstrip_lf_none.
  - apply rev_involutive.
  - intros Hin. apply H. now apply in_rev.
Qed.

Lemma line_safe_snoc (cur : str) (c : ascii) :
  line_safe cur -> c <> LF -> c <> CR -> line_safe (cur ++ [c]).
Proof.
  intros [H1 H2] Hl Hc.
  split; intros Hin; apply in_app_or in Hin as [Hin|[Hin|[]]]; auto.
Qed.

(** Every line read from a file, once its final LF is removed, holds no
    line terminator. *)
Lemma lines_from_line_safe (n : nat) :
  forall s cur, length s <= n -> line_safe cur ->
  Forall line_safe (map rstrip_lf (lines_from cur s)).
Proof.
  assert (Hdone : forall cur, line_safe cur ->
                    line_safe (rstrip_lf (cur ++ [LF]))).
  { intros cur Hc. rewrite rstrip_lf_line; [exact Hc | apply Hc]. }
  assert (Hnil : line_safe []) by (split; intros []).
  induction n as [|n IH]; intros s cur Hlen Hcur.
  - destruct s; [|cbn [length] in Hlen; lia].
    cbn [lines_from]. destruct cur; cbn [map]; constructor; [|constructor].
    rewrite rstrip_lf_line_safe; [exact Hcur | apply Hcur].
  - destruct s as [|c r].
    + cbn [lines_from]. destruct cur; cbn [map]; constructor; [|constructor].
      rewrite rstrip_lf_line_safe; [exact Hcur | apply Hcur].
    + cbn [length] in Hlen. cbn [lines_from].
      destruct (ascii_dec c LF) as [|Hl].
      { cbn [map]. constructor; [now apply Hdone|]. apply IH; [lia | exact Hnil]. }
      destruct (ascii_dec c CR) as [|Hc].
      * destruct r as [|c' r'].
        { cbn [map]. constructor; [now apply Hdone | constructor]. }
        destruct (ascii_dec c' LF); cbn [map]; (constructor; [now apply Hdone|]).
        -- apply IH; [cbn [length] in Hlen; lia | exact Hnil].
        -- apply IH; [lia | exact Hnil].
      * apply IH; [lia|]. now apply line_safe_snoc.
Qed.

(** X11.  When [__init__] returns, no chunk text it loaded holds a line
    feed or a carriage return - lines of [store.txt] end at LF, CR or CR LF
    alike -, writing the loaded chunk texts out as the persist step does
    and reading them again gives the same chunk texts, and a process
    started on the files so rewritten loads the same corpus.  [__init__]
    raises only if the directory cannot be made, [store.txt] cannot be
    read or [emb.npy] cannot be loaded, and then it raises what that
    raised.  Without either file the corpus is empty. *)
Theorem load_gives_clean_lines (fs : Disk) :
  (forall self, __init__ fs = Ok self ->
     Forall line_safe (docs self) /\
     map rstrip_lf (readlines (write_lines (docs self))) = docs self /\
     __init__ (set_files fs (Some (Utf8 (write_lines (docs self))))
                 (emb_npy fs))
     = Ok self) /\
  (forall e, __init__ fs = Raise e ->
     (makedirs_fails fs = true /\ e = OSError) \/
     store_txt fs = Some (Unreadable e) \/
     emb_npy fs = Some (Unloadable e)) /\
  (makedirs_fails fs = false -> store_txt fs = None -> emb_npy fs = None ->
   __init__ fs = Ok {| docs := []; embeddings := None |}).
Proof.
  split; [|split].
  - intros self E.
    assert (Hsafe : Forall line_safe (docs self)).
    { unfold __init__, _load in E. destruct (makedirs_fails fs); [discriminate E|].
      destruct (store_txt fs) as [[content|e]|]; try discriminate E.
      - assert (H : Forall line_safe (map rstrip_lf (readlines content))).
        { unfold readlines. apply (lines_from_line_safe (n := length content));
            [lia | split; intros []]. }
        destruct (emb_npy fs) as [[a|e]|]; try discriminate E;
          injection E as <-; exact H.
      - destruct (emb_npy fs) as [[a|e]|]; try discriminate E;
          injection E as <-; constructor. }
    split; [exact Hsafe|].
    pose proof (load_written_lines Hsafe) as Hround.
    split; [exact Hround|].
    unfold __init__, _load, set_files in *.
    cbn [makedirs_fails store_txt emb_npy].
    destruct (makedirs_fails fs); [discriminate E|]. rewrite Hround.
    destruct (store_txt fs) as [[content|e]|]; try discriminate E;
      destruct (emb_npy fs) as [[a|e]|]; try discriminate E;
      injection E as <-; reflexivity.
  - intros e E. unfold __init__, _load in E.
    destruct (makedirs_fails fs); [left; split; congruence|].
    destruct (store_txt fs) as [[content|e0]|].
    + destruct (emb_npy fs) as [[a|e1]|]; try discriminate E.
      injection E as <-. now right; right.
    + injection E as <-. now right; left.
    + destruct (emb_npy fs) as [[a|e1]|]; try discriminate E.
      injection E as <-. now right; right.
  - intros Hm Hs He. unfold __init__, _load. now rewrite Hm, Hs, He.
Qed.

End LoadTheorems.


Section ShortTermFacts.
Import ShortTerm.

Lemma dict_get_set_same (k : str) (v : list message) (d : memory) :
  dict_get k (dict_set k v d) = Some v.
Proof.
  induction d as [|[k' v'] r IH]; cbn [dict_set dict_get].
  - destruct (str_eq_dec k k); congruence.
  - destruct (str_eq_dec k k') as [e|n]; cbn [dict_get].
    + destruct (str_eq_dec k k'); congruence.
    + destruct (str_eq_dec k k'); congruence.
Qed.

Lemma dict_get_set_other (k k0 : str) (v : list message) (d : memory) :
  k0 <> k -> dict_get k0 (dict_set k v d) = dict_get k0 d.
Proof.
  intros Hne. induction d as [|[k' v'] r IH]; cbn [dict_set dict_get].
  - destruct (str_eq_dec k0 k); congruence.
  - destruct (str_eq_dec k k') as [e|n]; cbn [dict_get].
    + subst k'. destruct (str_eq_dec k0 k); congruence.
    + destruct (str_eq_dec k0 k'); congruence.
Qed.

Lemma dict_get_pop_same (k : str) (d : memory) : dict_get k (dict_pop k d) = None.
Proof.
  induction d as [|[k' v'] r IH]; cbn [dict_pop dict_get]; [reflexivity|].
  destruct (str_eq_dec k k') as [e|n]; cbn [dict_get]; [exact IH|].
  destruct (str_eq_dec k k'); congruence.
Qed.

Lemma dict_get_pop_other (k k0 : str) (d : memory) :
  k0 <> k -> dict_get k0 (dict_pop k d) = dict_get k0 d.
Proof.
  intros Hne. induction d as [|[k' v'] r IH]; cbn [dict_pop dict_get];
    [reflexivity|].
  destruct (str_eq_dec k k') as [e|n]; cbn [dict_get].
  - subst k'. destruct (str_eq_dec k0 k); congruence.
  - destruct (str_eq_dec k0 k'); congruence.
Qed.

Lemma get_add_same (s r c : str) (m : memory) :
  get s (add s r c m)
  = if 50 <? length (get s m ++ [mk_message r c])
    then last_n 50 (get s m ++ [mk_message r c])
    else get s m ++ [mk_message r c].
Proof.
  unfold add, get.
  destruct (50 <? _); now rewrite dict_get_set_same.
Qed.

Lemma get_add_other (s s0 r c : str) (m : memory) :
  s0 <> s -> get s0 (add s r c m) = get s0 m.
Proof.
  intros Hne. unfold add, get.
  destruct (50 <? _); now rewrite !dict_get_set_other by assumption.
Qed.

Lemma last_n_short {A : Type} (n : nat) (l : list A) :
  length l <= n -> last_n n l = l.
Proof.
  intros H. unfold last_n. replace (length l - n) with 0 by lia. reflexivity.
Qed.

Lemma length_last_n {A : Type} (n : nat) (l : list A) :
  length (last_n n l) = Nat.min n (length l).
Proof. unfold last_n. rewrite length_skipn. lia. Qed.

(** Keeping the last [n] after each append is keeping the last [n]. *)
Lemma last_n_snoc {A : Type} (n : nat) (l : list A) (x : A) :
  0 < n -> last_n n (last_n n l ++ [x]) = last_n n (l ++ [x]).
Proof.
  intros Hn. destruct (Nat.le_gt_cases (length l) n) as [Hle|Hgt].
  - now rewrite (last_n_short l Hle).
  - unfold last_n at 1 3.
    rewrite !length_app. cbn [length].
    rewrite (length_last_n n l), !skipn_app, length_last_n.
    replace (Nat.min n (length l) + 1 - n) with 1 by lia.
    replace (1 - Nat.min n (length l)) with 0 by lia.
    replace (length l + 1 - n - length l) with 0 by lia.
    f_equal. unfold last_n.
    rewrite skipn_skipn. f_equal. lia.
Qed.

End ShortTermFacts.

Section ShortTermTheorems.
Import ShortTerm.

Lemma get_add_last_n (s r c : str) (m : memory) :
  get s (add s r c m) = last_n 50 (get s m ++ [mk_message r c]).
Proof.
  rewrite get_add_same.
  destruct (Nat.ltb_spec 50 (length (get s m ++ [mk_message r c])));
    [reflexivity|].
  symmetry. now apply last_n_short.
Qed.

Lemma get_fold_ops (s : str) (ops : list op) :
  forall m acc,
    get s m = last_n 50 acc ->
    get s (fold_left apply_op ops m)
    = last_n 50 (fold_left (added_step s) ops acc).
Proof.
  induction ops as [|o ops IH]; intros m acc H; [exact H|].
  cbn [fold_left]. apply IH. destruct o as [s0 r c|s0]; cbn [apply_op added_step].
  - destruct (str_eq_dec s0 s) as [->|Hne].
    + rewrite get_add_last_n, H. apply last_n_snoc. lia.
    + rewrite get_add_other by congruence. exact H.
  - unfold clear, get. destruct (str_eq_dec s0 s) as [->|Hne].
    + now rewrite dict_get_pop_same.
    + rewrite dict_get_pop_other by congruence. exact H.
Qed.

(** X12.  After any calls of [add] and [clear] on a fresh
    [ShortTermMemory], [get] returns for every session the last 50 of the
    messages added to that session since it was last cleared, oldest first:
    never more than 50, nothing of other sessions, and nothing for a
    session that was cleared or never written. *)
Theorem short_term_keeps_last_50 (ops : list op) (session_id : str) :
  get session_id (after ops) = last_n 50 (added session_id ops) /\
  length (get session_id (after ops)) <= 50.
Proof.
  assert (H : get session_id (after ops) = last_n 50 (added session_id ops)).
  { unfold after, added. now apply get_fold_ops. }
  split; [exact H|]. rewrite H, length_last_n. lia.
Qed.

End ShortTermTheorems.

(* ================================================================= *)
(** ** Tools *)

Section ToolsTheorems.
Import Tools.





Lemma run_tools_loop_spec (web : nat -> Web) (input : str)
    (tool_names : list str) :
  forall i outputs,
    (forall j, j < count_occ str_eq_dec tool_names (py "web_search") ->
               search_and_summarize (web (i + j)) input <> None) ->
    exists blocks,
      run_tools_loop web i tool_names input outputs = Some (outputs ++ blocks) /\
      length blocks = count_occ str_eq_dec tool_names (py "web_search") /\
      Forall web_search_block blocks.
Proof.
  induction tool_names as [|name rest IH]; intros i outputs H.
  - exists []. cbn. rewrite app_nil_r. repeat split; constructor.
  - cbn [run_tools_loop lookup_tool TOOLS count_occ] in *.
    destruct (str_eq_dec name (py "web_search")) as [->|Hne].
    + destruct (str_eq_dec (py "web_search") (py "web_search")) as [_|n];
        [|contradiction n; reflexivity].
      unfold tool_web_search.
      destruct (search_and_summarize (web i) input) as [summary|] eqn:Es.
      2: { exfalso. apply (H 0); [lia|]. now rewrite Nat.add_0_r. }
      cbv beta iota.
      destruct (IH (S i) (outputs ++ [py "[web_search]" ++ [LF] ++ summary]))
        as (blocks & E & Hl & Hb).
      { intros j Hj. rewrite Nat.add_succ_l, <- Nat.add_succ_r.
        apply H. lia. }
      exists ((py "[web_search]" ++ [LF] ++ summary) :: blocks).
      split; [refine (eq_trans E _); f_equal; rewrite <- app_assoc; reflexivity|].
      split; [cbn [length]; lia|].
      constructor; [now exists summary | exact Hb].
    + destruct (str_eq_dec (py "web_search") name) as [e|_];
        [contradiction Hne; now symmetry|].
      destruct (str_eq_dec name (py "web_search")) as [e|_];
        [contradiction|]. now apply IH.
Qed.

Lemma run_tools_loop_fails (web : nat -> Web) (input : str)
    (tool_names : list str) :
  forall i outputs j,
    j < count_occ str_eq_dec tool_names (py "web_search") ->
    search_and_summarize (web (i + j)) input = None ->
    run_tools_loop web i tool_names input outputs = None.
Proof.
  induction tool_names as [|name rest IH]; intros i outputs j Hj Hs.
  - cbn in Hj. lia.
  - cbn [run_tools_loop lookup_tool TOOLS count_occ] in *.
    destruct (str_eq_dec name (py "web_search")) as [->|Hne].
    + destruct (str_eq_dec (py "web_search") (py "web_search")) as [_|n];
        [|contradiction n; reflexivity].
      unfold tool_web_search.
      destruct (search_and_summarize (web i) input) as [summary|] eqn:Es;
        [|reflexivity].
      cbv beta iota.
      destruct j as [|j]; [rewrite Nat.add_0_r in Hs; congruence|].
      apply (IH (S i) _ j); [lia|].
      now rewrite Nat.add_succ_l, <- Nat.add_succ_r.
    + destruct (str_eq_dec (py "web_search") name) as [e|_];
        [contradiction Hne; now symmetry|].
      destruct (str_eq_dec name (py "web_search")) as [e|_];
        [contradiction|]. now apply (IH i outputs j).
Qed.

(** X14.  [run_tools] skips every name that is not "web_search": without
    that name in the list it returns the empty string and searches nothing.
    Each occurrence of "web_search" is one search, in order.  If all of
    them return, the result is their blocks, each beginning with the line
    "[web_search]", joined by blank lines; if one of them raises,
    [run_tools] raises. *)
Theorem run_tools_one_block_per_web_search
    (web : nat -> Web) (tool_names : list str) (input_text : str) :
  (count_occ str_eq_dec tool_names (py "web_search") = 0 ->
   run_tools web tool_names input_text = Some []) /\
  ((forall j, j < count_occ str_eq_dec tool_names (py "web_search") ->
              search_and_summarize (web j) input_text <> None) ->
   exists blocks,
     run_tools web tool_names input_text = Some (join [LF; LF] blocks) /\
     length blocks = count_occ str_eq_dec tool_names (py "web_search") /\
     Forall web_search_block blocks) /\
  (forall j, j < count_occ str_eq_dec tool_names (py "web_search") ->
             search_and_summarize (web j) input_text = None ->
             run_tools web tool_names input_text = None).
Proof.
  assert (Hall : (forall j, j < count_occ str_eq_dec tool_names (py "web_search") ->
                   search_and_summarize (web j) input_text <> None) ->
                 exists blocks,
                   run_tools web tool_names input_text
                   = Some (join [LF; LF] blocks) /\
                   length blocks = count_occ str_eq_dec tool_names (py "web_search") /\
                   Forall web_search_block blocks).
  { intros H.
    destruct (@run_tools_loop_spec web input_text tool_names 0 [] H)
      as (blocks & E & Hl & Hb).
    exists blocks. unfold run_tools. rewrite E. auto. }
  split; [|split; [exact Hall|]].
  - intros H0. destruct Hall as (blocks & E & Hl & _).
    { intros j Hj. lia. }
    rewrite H0 in Hl. destruct blocks; [exact E | discriminate Hl].
  - intros j Hj Hs. unfold run_tools.
    now rewrite (@run_tools_loop_fails web input_text tool_names 0 [] j Hj Hs).
Qed.

Lemma run_tools_one_block_per_web_search_witness :
  run_tools (fun _ => mk_web (fun _ => None) (fun _ _ => None) None)
            [py "calculator"; py "github"] (py "what is new")
  = Some [].
Proof.
  apply (proj1 (run_tools_one_block_per_web_search _ _ _)). reflexivity.
Defined.

End ToolsTheorems.

(* ================================================================= *)
(** ** The table of messages *)

Section LongTermTheorems.
Import LongTerm.

(** X15.  With a [limit] that fits an SQLite INTEGER and a database that
    answers, [get_messages] returns the last [limit] messages of the
    session, oldest first, and nothing of other sessions; with a negative
    [limit] it returns all messages of the session.  A [limit] that does not
    fit raises [OverflowError] when it is bound, and a failing database
    makes the call raise.  [add_message] appends its message to those of its
    session and leaves the other sessions as they are. *)
Theorem get_messages_last_limit (session_id : str) (limit : Z) (db : table) :
  (int64 limit = true -> (0 <= limit)%Z ->
   get_messages None session_id limit db
   = Ok (ShortTerm.last_n (Z.to_nat limit) (messages_of session_id db))) /\
  (int64 limit = true -> (limit < 0)%Z ->
   get_messages None session_id limit db = Ok (messages_of session_id db)) /\
  (int64 limit = false ->
   forall fault, fault <> Some FailsBeforeBinding ->
     get_messages fault session_id limit db = Raise OverflowError) /\
  (forall fault, fault <> None ->
     exists e, get_messages fault session_id limit db = Raise e) /\
  (forall s role content,
     messages_of session_id (add_message s role content db)
     = if str_eq_dec s session_id
       then messages_of session_id db ++ [(role, content)]
       else messages_of session_id db).
Proof.
  unfold get_messages, messages_of, sql_limit.
  split; [|split; [|split; [|split]]].
  - intros Hi Hl. rewrite Hi. cbn [negb].
    destruct (Z.ltb_spec limit 0); [lia|].
    rewrite firstn_rev, rev_involutive. unfold ShortTerm.last_n.
    now rewrite skipn_map, length_map.
  - intros Hi Hl. rewrite Hi. cbn [negb].
    destruct (Z.ltb_spec limit 0); [|lia].
    now rewrite rev_involutive.
  - intros Hi fault Hf. rewrite Hi. cbn [negb].
    destruct fault as [[|]|]; [contradiction Hf| |]; reflexivity.
  - intros fault Hf. destruct fault as [[|]|]; [| |contradiction Hf; reflexivity].
    + now exists OperationalError.
    + destruct (negb (int64 limit)); eexists; reflexivity.
  - intros s role content. unfold add_message.
    rewrite filter_app, map_app. cbn [filter fst snd].
    unfold str_eqb at 2. destruct (str_eq_dec s session_id); cbn [map].
    + reflexivity.
    + now rewrite app_nil_r.
Qed.

End LongTermTheorems.

(* ================================================================= *)
(** ** The handler of [/api/chat] *)

Section HandlerTheorems.
Context {NP : NumPy}.
Import Main.

Lemma join_nonempty (sep x : str) (r : list str) :
  x <> [] -> join sep (x :: r) <> [].
Proof.
  intros Hx. destruct r; cbn [join]; [exact Hx|].
  destruct x; [contradiction Hx; reflexivity | discriminate].
Qed.

Lemma last_n_nil_iff {A : Type} (n : nat) (l : list A) :
  0 < n -> (ShortTerm.last_n n l = [] <-> l = []).
Proof.
  intros Hn. split; [|now intros ->].
  intros H. apply (f_equal (@length A)) in H.
  rewrite length_last_n in H. cbn [length] in H.
  destruct l; [reflexivity | cbn [length] in H; lia].
Qed.

Lemma snoc_not_nil {A : Type} (l : list A) (x : A) : l ++ [x] <> [].
Proof. destruct l; discriminate. Qed.

(** X16.  The model is given no context ([None]) exactly when the session
    has no earlier message, nothing was retrieved, no image was described
    and the tools gave the empty string. *)
Theorem guidance_none_iff_no_context
    (short_history : list ShortTerm.message)
    (context_docs image_context : list str) (tool_context : str) :
  build_guidance short_history context_docs image_context tool_context = None
  <-> short_history = [] /\ context_docs = [] /\ image_context = [] /\
      tool_context = [].
Proof.
  unfold build_guidance. split.
  - intros H.
    destruct (MSync.truthy tool_context) eqn:Ht.
    { destruct (_ ++ [py "Tools:" ++ [LF] ++ tool_context]) eqn:E;
        [now apply snoc_not_nil in E | discriminate H]. }
    destruct image_context as [|i imgs].
    2: { destruct (_ ++ [py "Image analysis:" ++ [LF] ++ join [LF] (i :: imgs)])
           eqn:E; [now apply snoc_not_nil in E | discriminate H]. }
    destruct context_docs as [|d ds].
    2: { destruct (_ ++ [_ ++ [LF] ++ join _ (d :: ds)]) eqn:E;
           [now apply snoc_not_nil in E | discriminate H]. }
    destruct (MSync.truthy (join [LF] (map format_message
                (ShortTerm.last_n 8 short_history)))) eqn:Hh; [discriminate H|].
    repeat split.
    + apply (last_n_nil_iff (n := 8)); [lia|].
      destruct (ShortTerm.last_n 8 short_history) as [|m ms]; [reflexivity|].
      exfalso. cbn [map] in Hh. unfold MSync.truthy in Hh.
      apply negb_false_iff in Hh.
      destruct (join [LF] (format_message m :: map format_message ms)) eqn:E;
        [|discriminate Hh].
      revert E. apply join_nonempty. unfold format_message.
      destruct (ShortTerm.role m); discriminate.
    + unfold MSync.truthy in Ht. apply negb_false_iff in Ht.
      destruct tool_context; [reflexivity | discriminate Ht].
  - intros (-> & -> & -> & ->). reflexivity.
Qed.

(** X17.  With [use_rag] set and a corpus that holds at least one chunk
    text and a matrix, the handler raises [RuntimeError] - [retrieve] asks
    the running event loop to run its coroutine - and nothing is added to
    the short-term memory or to the table, whatever the models, the tools
    and the images would have done. *)
Theorem chat_with_retrieval_on_live_corpus_raises
    (default_models : list str) (w : World) (body : ChatBody) (app : App)
    (emb : Rag.ndarray) :
  use_rag body = true ->
  Rag.embeddings (rag app) = Some emb ->
  Rag.docs (rag app) <> [] ->
  chat default_models w body app = (app, Raised (RetrieveRaised RuntimeError)).
Proof.
  intros Hr He Hd. unfold chat. rewrite Hr. unfold Rag.retrieve.
  rewrite He. destruct (Rag.docs (rag app)); [contradiction Hd; reflexivity|].
  reflexivity.
Qed.

Lemma retrieve_in_loop (env : Rag.Env) (self : Rag.RagPipeline) (q : str)
    (k : Z) :
  (Rag.retrieve Rag.LoopRunning env self q k = Ok [] /\
   (Rag.embeddings self = None \/ Rag.docs self = [])) \/
  (Rag.retrieve Rag.LoopRunning env self q k = Raise RuntimeError /\
   Rag.embeddings self <> None /\ Rag.docs self <> []).
Proof.
  unfold Rag.retrieve. destruct (Rag.embeddings self) as [emb|].
  - destruct (Rag.docs self) as [|d ds].
    + left. auto.
    + right. repeat split; discriminate.
  - left. auto.
Qed.

Lemma get_add_twice (s r1 c1 r2 c2 : str) (m : ShortTerm.memory) :
  ShortTerm.get s (ShortTerm.add s r2 c2 (ShortTerm.add s r1 c1 m))
  = ShortTerm.last_n 50
      (ShortTerm.get s m
       ++ [ShortTerm.mk_message r1 c1; ShortTerm.mk_message r2 c2]).
Proof.
  rewrite !get_add_last_n, last_n_snoc by lia.
  now rewrite <- app_assoc.
Qed.

Lemma describe_images_raises (analyze : nat -> str -> analysis)
    (urls : list str) :
  forall i e, describe_images analyze i urls = Raise e -> e = CancelledError.
Proof.
  induction urls as [|url r IH]; intros i e; cbn [describe_images];
    [discriminate|].
  destruct (analyze i url); try (intros [= <-]; reflexivity);
    destruct (describe_images analyze (S i) r) eqn:E; try discriminate;
    intros [= <-]; eapply IH; eauto.
Qed.

Lemma joinable_raises (items : list MSync.content) (e : exn) :
  joinable items = Raise e -> e = TypeError.
Proof.
  induction items as [|[s|b] r IH]; cbn [joinable]; [discriminate| |].
  - destruct (joinable r); [discriminate|]. intros [= <-]. now apply IH.
  - now intros [= <-].
Qed.

(** X18.  When the handler returns a reply: the reply is not empty; the
    user's message and the reply, in this order, have been appended to the
    short-term memory of the session - which keeps its last 50 - and as two
    rows to the table; the other sessions and the corpus are as they were;
    and if [use_rag] was set, the corpus holds no chunk text or no
    matrix. *)
Theorem chat_reply_effects
    (default_models : list str) (w : World) (body : ChatBody) (app app' : App)
    (reply : str) :
  chat default_models w body app = (app', Reply reply) ->
  reply <> [] /\
  ShortTerm.get (session_of body) (short_mem app')
  = ShortTerm.last_n 50
      (ShortTerm.get (session_of body) (short_mem app)
       ++ [ShortTerm.mk_message (py "user") (message body);
           ShortTerm.mk_message (py "assistant") reply]) /\
  (forall s, s <> session_of body ->
     ShortTerm.get s (short_mem app') = ShortTerm.get s (short_mem app)) /\
  conversations app'
  = conversations app
    ++ [(session_of body, py "user", message body);
        (session_of body, py "assistant", reply)] /\
  rag app' = rag app /\
  (use_rag body = true ->
   Rag.embeddings (rag app) = None \/ Rag.docs (rag app) = []).
Proof.
  unfold chat. intros H.
  assert (Hrag : use_rag body = true ->
                 Rag.embeddings (rag app) = None \/ Rag.docs (rag app) = []).
  { intros Hr. rewrite Hr in H.
    destruct (retrieve_in_loop (embed_env w) (rag app) (message body) 4)
      as [[_ Hempty]|[E _]]; [exact Hempty|].
    rewrite E in H. discriminate H. }
  destruct (if use_rag body then _ else _) as [context_docs|e];
    [|discriminate H].
  destruct (match image_urls body with Some (u :: us) => _ | _ => _ end)
    as [image_context|e]; [|discriminate H].
  destruct (match tools body with Some (t :: ts) => _ | _ => _ end)
    as [tool_context|]; [|discriminate H].
  destruct (joinable image_context) as [image_texts|e]; [|discriminate H].
  destruct (negb (db_insert_ok w 0)); [discriminate H|].
  cbv zeta in H.
  destruct (MSync.chat _ default_models (models body)) as [r|e] eqn:Er;
    [|discriminate H].
  destruct (negb (db_insert_ok w 1)); [discriminate H|].
  injection H as <- <-. cbn [short_mem conversations rag].
  split; [exact (chat_ok_nonempty _ _ _ Er)|]. split; [apply get_add_twice|].
  split; [|split; [|split; [reflexivity | exact Hrag]]].
  - intros s Hs. now rewrite !get_add_other by congruence.
  - unfold LongTerm.add_message. now rewrite <- app_assoc.
Qed.

(** X19.  When the handler raises, the corpus is as it was, and what else
    has changed depends on where it raised.  After a failed [retrieve] -
    [RuntimeError], with [use_rag] set -, a cancelled image analysis, a
    failed tool call or a description that is no string ([TypeError] when
    the guidance is joined), nothing has changed.  After a failed first
    insert the user's message is in the short-term memory and not in the
    table.  When the fusion raises - [CancelledError] or [AttributeError] -
    the user's message is in the short-term memory and in the table, without
    a reply.  After a failed second insert the user's message and the reply
    are in the short-term memory and only the user's message is in the
    table. *)
Theorem chat_failure_effects
    (default_models : list str) (w : World) (body : ChatBody) (app app' : App)
    (r : raised) :
  chat default_models w body app = (app', Raised r) ->
  rag app' = rag app /\
  match r with
  | RetrieveRaised e => app' = app /\ use_rag body = true /\ e = RuntimeError
  | ImageRaised e => app' = app /\ e = CancelledError
  | ToolRaised => app' = app
  | GuidanceRaised e => app' = app /\ e = TypeError
  | DatabaseRaised =>
      (db_insert_ok w 0 = false /\
       conversations app' = conversations app /\
       ShortTerm.get (session_of body) (short_mem app')
       = ShortTerm.last_n 50
           (ShortTerm.get (session_of body) (short_mem app)
            ++ [ShortTerm.mk_message (py "user") (message body)])) \/
      (db_insert_ok w 0 = true /\ db_insert_ok w 1 = false /\
       conversations app'
       = conversations app ++ [(session_of body, py "user", message body)] /\
       exists reply,
         ShortTerm.get (session_of body) (short_mem app')
         = ShortTerm.last_n 50
             (ShortTerm.get (session_of body) (short_mem app)
              ++ [ShortTerm.mk_message (py "user") (message body);
                  ShortTerm.mk_message (py "assistant") reply]))
  | ChatRaised e =>
      (e = CancelledError \/ e = AttributeError) /\
      db_insert_ok w 0 = true /\
      conversations app'
      = conversations app ++ [(session_of body, py "user", message body)] /\
      ShortTerm.get (session_of body) (short_mem app')
      = ShortTerm.last_n 50
          (ShortTerm.get (session_of body) (short_mem app)
           ++ [ShortTerm.mk_message (py "user") (message body)])
  end.
Proof.
  unfold chat. intros H.
  remember (if use_rag body
            then Rag.retrieve Rag.LoopRunning (embed_env w) (rag app)
                   (message body) 4
            else Ok []) as retrieved eqn:Eret.
  destruct retrieved as [context_docs|e].
  2: { injection H as <- <-. split; [reflexivity|]. split; [reflexivity|].
       destruct (use_rag body); [|discriminate Eret]. split; [reflexivity|].
       destruct (retrieve_in_loop (embed_env w) (rag app) (message body) 4)
         as [[E _]|[E _]]; rewrite E in Eret; congruence. }
  clear Eret.
  remember (match image_urls body with
            | Some (u :: us) => describe_images (analyze_image w) 0 (u :: us)
            | _ => Ok []
            end) as described eqn:Eimg.
  destruct described as [image_context|e].
  2: { injection H as <- <-. split; [reflexivity|]. split; [reflexivity|].
       destruct (image_urls body) as [[|u us]|]; try discriminate Eimg.
       symmetry in Eimg. now apply describe_images_raises in Eimg. }
  clear Eimg.
  destruct (match tools body with Some (t :: ts) => _ | _ => _ end)
    as [tool_context|]; [|injection H as <- <-; auto].
  destruct (joinable image_context) as [image_texts|e] eqn:Ejoin.
  2: { injection H as <- <-. split; [reflexivity|]. split; [reflexivity|].
       now apply joinable_raises in Ejoin. }
  revert H. generalize (build_guidance
    (ShortTerm.get (session_of body) (short_mem app)) context_docs
    image_texts tool_context). intros g H.
  destruct (db_insert_ok w 0) eqn:H0; cbn [negb] in H.
  2: { injection H as <- <-. cbn [rag short_mem conversations].
       split; [reflexivity|]. left. split; [reflexivity|].
       split; [reflexivity | apply get_add_last_n]. }
  cbv zeta in H.
  destruct (MSync.chat (ollama_chat w g) default_models (models body))
    as [reply|e] eqn:Er.
  2: { injection H as <- <-. cbn [rag short_mem conversations].
       split; [reflexivity|]. split; [exact (chat_raises _ _ _ Er)|].
       split; [reflexivity|]. split; [reflexivity | apply get_add_last_n]. }
  destruct (db_insert_ok w 1) eqn:H1; cbn [negb] in H; [discriminate H|].
  injection H as <- <-. cbn [rag short_mem conversations].
  split; [reflexivity|]. right. repeat split.
  exists reply. apply get_add_twice.
Qed.

End HandlerTheorems.

(* ================================================================= *)
(** ** Uploads *)

Section UploadMore.
Context {NP : NumPy}.
Import Rag.

Lemma split_from_space_between (c : ascii) (x y : str) :
  isspace c = true ->
  forall cur, split_from cur (x ++ c :: y) = split_from cur x ++ split y.
Proof.
  intros Hc. unfold split. induction x as [|a x IH]; intros cur.
  - cbn [app split_from]. rewrite Hc. destruct cur; reflexivity.
  - cbn [app split_from]. destruct (isspace a); [|apply IH].
    destruct cur; cbn [app]; now rewrite IH.
Qed.

Lemma split_pdf_text (pages : list str) :
  split (_pdf_to_text pages) = concat (map split pages).
Proof.
  unfold _pdf_to_text. induction pages as [|p ps IH]; [reflexivity|].
  destruct ps as [|p' ps'].
  - cbn [join map concat]. now rewrite app_nil_r.
  - rewrite join_cons2. cbn [map concat app]. unfold split at 1.
    rewrite split_from_space_between by reflexivity.
    fold (split p). now rewrite IH.
Qed.

(** X21.  The text of a PDF is the page texts joined by line feeds, so
    the words of a PDF are the words of its pages in order - a page break
    separates words, and a chunk may run across pages.  A PDF is chunked as
    the text made of those words, separated by single spaces, would be. *)
Theorem pdf_is_chunked_by_page_words (pages : list str) (m : Z) :
  split (_pdf_to_text pages) = concat (map split pages) /\
  _chunk (_pdf_to_text pages) m
  = _chunk (join [SP] (concat (map split pages))) m.
Proof.
  split; [apply split_pdf_text|].
  unfold _chunk. rewrite split_pdf_text. f_equal. symmetry.
  apply split_join. rewrite <- split_pdf_text. apply split_words.
Qed.

(** X22.  An upload without a word - an empty file, a file of whitespace,
    a PDF whose pages have no text - is no error and changes nothing:
    [save_and_ingest] returns, the corpus in memory and the files are as
    they were, and nothing is written or embedded, whatever the backend
    and the disk would have done. *)
Theorem upload_without_words_changes_nothing
    (io : IO) (env : Env) (self : RagPipeline) (fs : Disk) :
  (forall text, forallb isspace text = true ->
     save_and_ingest io env self fs (OtherFile text) = (self, fs, Ok tt)) /\
  (forall pages, Forall (fun p => forallb isspace p = true) pages ->
     save_and_ingest io env self fs (PdfFile (Some pages)) = (self, fs, Ok tt)).
Proof.
  assert (Hsp : forall text, forallb isspace text = true -> split text = []).
  { intros text H. rewrite <- (app_nil_r text).
    now rewrite split_leading_spaces. }
  split.
  - intros text H. unfold save_and_ingest, _chunk. now rewrite (Hsp text H).
  - intros pages H. unfold save_and_ingest, _chunk. rewrite split_pdf_text.
    replace (concat (map split pages)) with (@nil str); [reflexivity|].
    symmetry. induction H as [|p ps Hp _ IH]; [reflexivity|].
    cbn [map concat]. now rewrite (Hsp p Hp), IH.
Qed.

End UploadMore.

(* ================================================================= *)
(** ** The theorems at work *)

Section Examples.
Import Rag Main.

Ltac line_safe_by_computation :=
  repeat constructor; intros H; vm_compute in H;
  repeat (destruct H as [H|H]; [discriminate H|]); exact H.

Ltac call_by_parts :=
  match goal with
  | |- ?c = (fst (fst ?c), snd (fst ?c), _) =>
      rewrite (surjective_pairing c) at 1;
      rewrite (surjective_pairing (fst c)) at 1;
      f_equal; vm_compute; reflexivity
  | |- ?c = (fst ?c, _) =>
      rewrite (surjective_pairing c) at 1;
      f_equal; vm_compute; reflexivity
  end.

(** A run: two uploads with the backend answering, a restart between. *)
Lemma run_two_uploads :
  option_map (fun s => docs (fst s)) (run two_uploads)
  = Some [py "hello world"; py "foo"] /\
  option_map (fun s => store_txt (snd s)) (run two_uploads)
  = Some (Some (Utf8 (py "hello world" ++ [LF] ++ py "foo" ++ [LF]))) /\
  option_map (fun s => disk_rows (snd s)) (run two_uploads)
  = Some (Some 2).
Proof. vm_compute. repeat split. Qed.

(** The upload of [first_upload] makes [one_fallback] of an empty data
    directory, and the uploads of [alpha_beta] make [two_alike]. *)
Lemma run_first_upload :
  option_map (fun s => docs (fst s)) (run [first_upload])
  = Some (docs one_fallback) /\
  option_map (fun s => option_map rows (embeddings (fst s))) (run [first_upload])
  = Some (option_map rows (embeddings one_fallback)) /\
  option_map (fun s => store_txt (snd s)) (run [first_upload])
  = Some (store_txt one_fallback_disk).
Proof. vm_compute. repeat split. Qed.

Lemma run_alpha_beta :
  option_map (fun s => docs (fst s)) (run alpha_beta)
  = Some (docs two_alike) /\
  option_map (fun s => option_map rows (embeddings (fst s))) (run alpha_beta)
  = Some (option_map rows (embeddings two_alike)) /\
  option_map (fun s => store_txt (snd s)) (run alpha_beta)
  = Some (store_txt two_alike_disk) /\
  option_map (fun s => disk_rows (snd s)) (run alpha_beta)
  = Some (disk_rows two_alike_disk).
Proof. vm_compute. repeat split. Qed.

Lemma ingest_preserves_alignment_witness :
  second_call = (fst (fst second_call), snd (fst second_call), Ok tt) /\
  aligned (fst (fst second_call)) /\
  disk_lines (snd (fst second_call)) = Some 2 /\
  disk_rows (snd (fst second_call)) = Some 2 /\
  exists emb r,
    embeddings (fst (fst second_call)) = Some emb /\
    nth_error (rows emb) 1 = Some r /\ length r = 384.
Proof.
  assert (E : second_call
              = (fst (fst second_call), snd (fst second_call), Ok tt))
    by call_by_parts.
  assert (Ha : aligned one_fallback) by reflexivity.
  assert (Hs : Forall line_safe (docs one_fallback))
    by (cbn [docs one_fallback]; line_safe_by_computation).
  destruct (proj2 (@ingest_preserves_alignment small_int_numpy)
              io_ok (backend_down 1) one_fallback one_fallback_disk
              (OtherFile (py "second upload")) _ _ E)
    as (_ & _ & Hal & Hfiles & Hrows).
  split; [exact E|]. split; [exact (Hal Ha)|].
  assert (Hlen : length (docs (fst (fst second_call))) = 2)
    by (vm_compute; reflexivity).
  destruct Hfiles as [[Hsame _]|(emb & _ & _ & _ & Hcount)].
  { rewrite Hsame in Hlen. discriminate Hlen. }
  destruct (Hcount Ha Hs) as [Hl Hr]. rewrite Hlen in Hl, Hr.
  split; [exact Hl|]. split; [exact Hr|].
  apply (Hrows Ha 1 (py "second upload")).
  - cbn. lia.
  - vm_compute. reflexivity.
  - reflexivity.
Defined.

(** C1, as the specification words it, fails.  When [np.save] fails on a
    third chunk, [store.txt] holds three lines and [emb.npy] two rows; the
    next process loads three chunk texts and two rows, and an upload to it
    returns with four chunk texts and three rows, in memory and in the
    files. *)
Lemma ingest_after_failed_write_is_misaligned :
  consistent (two_alike, two_alike_disk) /\
  snd faulty_call = Raise OSError /\
  __init__ (snd (fst faulty_call)) = Ok three_texts_two_rows /\
  snd late_call = Ok tt /\
  length (docs (fst (fst late_call))) = 4 /\
  row_count (fst (fst late_call)) = 3 /\
  disk_lines (snd (fst late_call)) = Some 4 /\
  disk_rows (snd (fst late_call)) = Some 3.
Proof.
  split; [|repeat split; reflexivity].
  split; [reflexivity|]. split; [|reflexivity].
  cbn [fst docs two_alike]. line_safe_by_computation.
Qed.

Lemma failed_ingest_effect_on_disk_witness :
  faulty_call = (fst (fst faulty_call), snd (fst faulty_call), Raise OSError) /\
  store_txt (snd (fst faulty_call))
  = Some (Utf8 (write_lines [py "alpha"; py "beta"; py "gamma"])) /\
  emb_npy (snd (fst faulty_call)) = emb_npy two_alike_disk.
Proof.
  assert (E : faulty_call
              = (fst (fst faulty_call), snd (fst faulty_call), Raise OSError))
    by call_by_parts.
  split; [exact E|].
  destruct (failed_ingest_effect_on_disk _ _ _ _ _ E) as [_ H].
  destruct (H eq_refl) as (_ & Hs & Hn).
  split; [|exact Hn].
  rewrite Hs. reflexivity.
Defined.

(** C2, as the specification words it, fails: when the write of the matrix
    fails after the text file was written, the files are not as they were
    before the call - [store.txt] has three lines, [emb.npy] two rows; and
    when the write of the text file fails, [store.txt] has been emptied. *)
Lemma failed_vector_write_leaves_new_text_file :
  consistent (two_alike, two_alike_disk) /\
  snd faulty_call = Raise OSError /\
  snd (fst faulty_call) <> two_alike_disk /\
  disk_lines (snd (fst faulty_call)) = Some 3 /\
  disk_rows (snd (fst faulty_call)) = Some 2 /\
  snd emptied_call = Raise OSError /\
  disk_lines (snd (fst emptied_call)) = Some 0 /\
  disk_rows (snd (fst emptied_call)) = Some 2.
Proof.
  split; [|split; [reflexivity|split; [|repeat split; reflexivity]]].
  - split; [reflexivity|]. split; [|reflexivity].
    cbn [fst docs two_alike]. line_safe_by_computation.
  - intros E. apply (f_equal disk_lines) in E. vm_compute in E.
    discriminate E.
Qed.



Lemma retrieve_empty_corpus_witness :
  retrieve LoopRunning backend_unit (@mk_rag small_int_numpy [] None)
    (py "query") 4
  = Ok [].
Proof.
  apply retrieve_empty_corpus. left. reflexivity.
Defined.

(** C8 at a failing input.  The same text, embedded with the backend down
    by two interpreter processes whose [hash] of it differs, is given the
    seeds 1 and 2; the generator of [small_int_numpy] tells the two seeds
    apart, and the two rows differ. *)
Theorem fallback_row_differs_between_processes :
  fallback_seed (backend_down 1) (py "some chunk") = 1%Z /\
  fallback_seed (backend_down 2) (py "some chunk") = 2%Z /\
  _embed_texts (backend_down 1) [py "some chunk"]
  <> _embed_texts (backend_down 2) [py "some chunk"].
Proof.
  split; [reflexivity|]. split; [reflexivity|].
  intros E.
  assert (H : forall a b : result (@ndarray small_int_numpy), a = b ->
                match a, b with
                | Ok x, Ok y => map (fun r => nth 1 r Inexact) (rows x)
                              = map (fun r => nth 1 r Inexact) (rows y)
                | _, _ => True
                end).
  { intros a b <-. destruct a; auto. }
  apply H in E. vm_compute in E. discriminate E.
Qed.

Lemma embed_texts_rectangular_or_raises_witness :
  @_embed_texts small_int_numpy backend_first_only [py "first"; py "second"]
  = Raise ValueError.
Proof.
  apply (proj1 (proj2 (@embed_texts_rectangular_or_raises small_int_numpy _))
           [py "first"; py "second"] 0 1 (py "first") (py "second"));
    [reflexivity | reflexivity |].
  vm_compute. discriminate.
Defined.

Lemma ingest_during_outage_witness :
  @_add_documents small_int_numpy vector_write_fails (backend_down 7)
    two_alike two_alike_disk [py "gamma"]
  = (two_alike, two_alike_disk, Raise ValueError).
Proof.
  refine (proj1 (@ingest_during_outage small_int_numpy (backend_down 7)
                   two_alike two_alike_disk [py "gamma"] _ _)
            two_alike_matrix eq_refl _ vector_write_fails).
  - discriminate.
  - intros j c _. reflexivity.
  - cbn. discriminate.
Defined.

Lemma retrieve_dimension_mismatch_witness :
  retrieve LoopIdle (backend_down 3) three_texts_two_rows (py "capital?") 1
  = Raise ValueError.
Proof.
  refine (proj2 (proj2 (@retrieve_dimension_mismatch small_int_numpy
                          (backend_down 3) three_texts_two_rows
                          two_alike_matrix (py "capital?") 1 eq_refl _)) _ _).
  - discriminate.
  - reflexivity.
  - cbn. discriminate.
Defined.

Lemma retrieve_returns_stored_texts_witness :
  exists res,
    retrieve LoopIdle backend_unit three_texts_two_rows (py "query") (-1)
    = Ok res /\
    length res = 1 /\
    forall d, In d res -> In d [py "alpha"; py "beta"].
Proof.
  destruct (@retrieve_returns_stored_texts small_int_numpy
              small_int_argsort_sorts backend_unit three_texts_two_rows
              two_alike_matrix (py "query") (-1)%Z eq_refl
              ltac:(discriminate) ltac:(cbn; lia) eq_refl)
    as (res & Hr & Hin & Hlen & _).
  exists res. split; [exact Hr|]. split; [exact Hlen | exact Hin].
Defined.

Lemma ingested_chunks_are_retrievable_witness :
  exists res,
    retrieve LoopIdle backend_unit (fst (fst good_call)) (py "query") 3
    = Ok res /\
    Permutation res [py "alpha"; py "beta"; py "gamma"].
Proof.
  assert (E : good_call = (fst (fst good_call), snd (fst good_call), Ok tt))
    by call_by_parts.
  destruct (@ingested_chunks_are_retrievable small_int_numpy
              small_int_argsort_sorts io_ok backend_unit two_alike
              two_alike_disk (OtherFile (py "gamma")) _ _
              backend_unit (py "query") 3%Z eq_refl E)
    as (text & res & Ht & _ & Hr & Hp).
  - intros emb He.
    assert (H2 : option_map ncols (embeddings (fst (fst good_call))) = Some 2)
      by (vm_compute; reflexivity).
    rewrite He in H2. cbn [option_map] in H2. injection H2 as ->.
    reflexivity.
  - vm_compute. discriminate.
  - injection Ht as <-. exists res. split; [exact Hr | exact Hp].
Defined.

Lemma load_gives_clean_lines_witness :
  exists self,
    __init__ crlf_disk = Ok self /\
    docs self = [py "a"; py "b"; py "c"] /\
    Forall line_safe (docs self).
Proof.
  exists (@mk_rag small_int_numpy [py "a"; py "b"; py "c"] None).
  assert (E : __init__ crlf_disk
              = Ok (@mk_rag small_int_numpy [py "a"; py "b"; py "c"] None))
    by reflexivity.
  split; [exact E|]. split; [reflexivity|].
  exact (proj1 (proj1 (@load_gives_clean_lines small_int_numpy crlf_disk)
                  _ E)).
Defined.

Lemma get_messages_last_limit_witness :
  LongTerm.get_messages None (py "s1") 2
    [(py "s1", py "user", py "one"); (py "s2", py "user", py "other");
     (py "s1", py "assistant", py "two"); (py "s1", py "user", py "three")]
  = Ok [(py "assistant", py "two"); (py "user", py "three")].
Proof.
  rewrite (proj1 (get_messages_last_limit (py "s1") 2 _)
             eq_refl ltac:(lia)).
  reflexivity.
Defined.

Lemma guidance_none_iff_no_context_witness :
  build_guidance [] [] [] [] = None.
Proof.
  apply (proj2 (guidance_none_iff_no_context [] [] [] [])).
  repeat split.
Defined.

Lemma chat_with_retrieval_on_live_corpus_raises_witness :
  chat [py "llama3"; py "mistral"] (world_with_db (fun _ => true))
       body_with_rag live_app
  = (live_app, Raised (RetrieveRaised RuntimeError)).
Proof.
  apply (@chat_with_retrieval_on_live_corpus_raises small_int_numpy
           _ _ body_with_rag live_app two_alike_matrix).
  - reflexivity.
  - reflexivity.
  - discriminate.
Defined.

Lemma chat_reply_effects_witness :
  plain_call = (fst plain_call, Reply (py "Paris")) /\
  conversations (fst plain_call)
  = [(py "s1", py "user", py "capital of France?");
     (py "s1", py "assistant", py "Paris")].
Proof.
  assert (E : plain_call = (fst plain_call, Reply (py "Paris")))
    by call_by_parts.
  split; [exact E|].
  destruct (@chat_reply_effects small_int_numpy _ _ _ _ _ _ E)
    as (_ & _ & _ & Hc & _).
  exact Hc.
Defined.

Lemma chat_failure_effects_witness :
  number_call = (fst number_call, Raised (ChatRaised AttributeError)) /\
  rag (fst number_call) = two_alike /\
  conversations (fst number_call)
  = [(py "s1", py "user", py "capital of France?")].
Proof.
  assert (E : number_call
              = (fst number_call, Raised (ChatRaised AttributeError)))
    by call_by_parts.
  split; [exact E|].
  destruct (@chat_failure_effects small_int_numpy _ _ _ _ _ _ E)
    as (Hrag & _ & _ & Hc & _).
  split; [exact Hrag | exact Hc].
Defined.

Lemma upload_without_words_changes_nothing_witness :
  save_and_ingest vector_write_fails (backend_down 1) two_alike two_alike_disk
    (OtherFile (py "   "))
  = (two_alike, two_alike_disk, Ok tt).
Proof.
  apply (proj1 (@upload_without_words_changes_nothing small_int_numpy
                  vector_write_fails (backend_down 1) two_alike two_alike_disk)).
  reflexivity.
Defined.

End Examples.
